(** * Storefront front end: comment threads and admin image handling

    A shallow embedding of the comment list component
    ([src/components/ui/Tabs.tsx], second document: [CommentList]) and of
    the admin managers that delete stored images
    ([src/pages/admin/Admin{Images,Services,Proofs}Manager.tsx]).

    Conventions of the embedding:
    - a JavaScript [number] used as a row id is a [Z];
    - [created_at] is carried as the instant [new Date(created_at).getTime()]
      denotes, in milliseconds (the column is a [TIMESTAMPTZ], so the parse
      never yields [NaN]);
    - an object reference held in [commentMap], [rootComments] or a
      [replies] array is the key of that object in [commentMap]: the first
      pass stores exactly one object per key and nothing is stored later, so
      keys and live objects are in one-to-one correspondence;
    - the text of a comment (typed, stored or shown) is a JavaScript
      string, the sequence of its UTF-16 code units ([JSString]); the other
      strings (URLs, file names, messages) are sequences of code units
      below 256. *)

From stdpp Require Import gmap strings list sorting pretty.
From Stdlib Require Import ZArith Lia Ascii.
From Stdlib Require String.

Local Open Scope Z_scope.
#[local] Set Warnings "-clear-no-such-hyp".

(** ** JavaScript built-ins used by the components *)

Module JS.

(** [Array.prototype.sort(cmp)]: a stable sort; [x] stays before [y] unless
    [cmp x y > 0].  For a consistent comparator the result is the one any
    conforming engine returns. *)
Fixpoint insert_sorted {A} (cmp : A → A → Z) (x : A) (l : list A) : list A :=
  match l with
  | [] => [x]
  | y :: l' => if cmp x y <=? 0 then x :: l else y :: insert_sorted cmp x l'
  end.

Definition Array_sort {A} (cmp : A → A → Z) (l : list A) : list A :=
  foldr (insert_sorted cmp) [] l.

(** [Array.prototype.push] *)
Definition push {A} (x : A) (l : list A) : list A := l ++ [x].

(** Truthiness of a [number | null] value: [null] and [0] are falsy. *)
Definition truthy (n : option Z) : bool :=
  match n with
  | Some z => negb (z =? 0)
  | None => false
  end.

(** *** Strings *)

(** A JavaScript string, as the sequence of its UTF-16 code units. *)
Definition CodeUnit := Z.
Definition JSString := list CodeUnit.

(** The JavaScript string written with code units below 256. *)
Fixpoint codeUnits (s : string) : JSString :=
  match s with
  | EmptyString => []
  | String c s' => Z.of_nat (nat_of_ascii c) :: codeUnits s'
  end.

(** [WhiteSpace] and [LineTerminator] of ECMAScript, each a single code
    unit: TAB, LF, VT, FF, CR, SP, NBSP, U+1680, U+2000 to U+200A, LS
    (U+2028), PS (U+2029), U+202F, U+205F, U+3000 and ZWNBSP (U+FEFF). *)
Definition isWhiteSpace (c : CodeUnit) : bool :=
  bool_decide (c ∈ [0x9; 0xA; 0xB; 0xC; 0xD; 0x20; 0xA0; 0x1680;
                    0x2028; 0x2029; 0x202F; 0x205F; 0x3000; 0xFEFF])
  || bool_decide (0x2000 ≤ c ≤ 0x200A).

Fixpoint trimStart (s : JSString) : JSString :=
  match s with
  | [] => []
  | c :: s' => if isWhiteSpace c then trimStart s' else s
  end.

Fixpoint trimEnd (s : JSString) : JSString :=
  match s with
  | [] => []
  | c :: s' =>
      match trimEnd s' with
      | [] => if isWhiteSpace c then [] else [c]
      | t => c :: t
      end
  end.

(** [String.prototype.trim] *)
Definition trim (s : JSString) : JSString := trimEnd (trimStart s).

Fixpoint allWhiteSpace (s : JSString) : bool :=
  match s with
  | [] => true
  | c :: s' => isWhiteSpace c && allWhiteSpace s'
  end.

(** Truthiness of a JavaScript string: only the empty string is falsy. *)
Definition nonEmptyText (s : JSString) : bool :=
  match s with [] => false | _ => true end.

(** Truthiness of a string: only the empty string is falsy. *)
Definition nonEmpty (s : string) : bool :=
  match s with EmptyString => false | _ => true end.

(** [s.startsWith(p)] *)
Definition startsWith (s p : string) : bool := String.prefix p s.

(** [s.substring(n)], for [n] within the string *)
Fixpoint substring (n : nat) (s : string) : string :=
  match n, s with
  | O, _ => s
  | S n', String _ s' => substring n' s'
  | S _, EmptyString => EmptyString
  end.

(** [s.split(sep)] for a separator of one code unit *)
Fixpoint split (sep : ascii) (s : string) : list string :=
  match s with
  | EmptyString => [EmptyString]
  | String c s' =>
      if decide (c = sep) then EmptyString :: split sep s'
      else match split sep s' with
           | part :: parts => String c part :: parts
           | [] => [String c EmptyString]
           end
  end.

(** [parts.join(sep)] *)
Fixpoint join (sep : string) (parts : list string) : string :=
  match parts with
  | [] => EmptyString
  | [part] => part
  | part :: parts' => part +:+ sep +:+ join sep parts'
  end.

(** [parts.indexOf(x)]: the first index of [x], or [-1]. *)
Fixpoint indexOf (x : string) (parts : list string) : Z :=
  match parts with
  | [] => -1
  | part :: parts' =>
      if decide (part = x) then 0
      else let i := indexOf x parts' in if i <? 0 then -1 else i + 1
  end.

(** [parts.slice(start)] for [start >= 0] *)
Definition slice (start : Z) (parts : list string) : list string :=
  drop (Z.to_nat start) parts.

(** [parts.pop()] on a non-empty array: its last element. *)
Definition pop (parts : list string) : string := List.last parts EmptyString.

(** The outcome of a built-in that may throw. *)
Inductive Try (A : Type) : Type :=
| Returned (a : A)
| Thrown (message : string).
Arguments Returned {A} a.
Arguments Thrown {A} message.

(** A reading of [new URL(url).pathname] for the URLs the storage API hands
    out: [scheme://authority/path], optionally followed by [?query] or
    [#fragment]; the path is returned as written.  It agrees with the URL
    Standard on http(s) URLs whose path has no dot segments and no character
    the standard would escape.  The components take the parser as a
    parameter; this one serves in examples. *)
Fixpoint afterScheme (s : string) : option string :=
  match s with
  | String ":" (String "/" (String "/" rest)) => Some rest
  | String _ s' => afterScheme s'
  | EmptyString => None
  end.

Fixpoint dropAuthority (s : string) : string :=
  match s with
  | EmptyString => EmptyString
  | String c s' => if decide (c = "/"%char) then s else dropAuthority s'
  end.

Fixpoint untilQueryOrFragment (s : string) : string :=
  match s with
  | EmptyString => EmptyString
  | String c s' =>
      if decide (c = "?"%char ∨ c = "#"%char) then EmptyString
      else String c (untilQueryOrFragment s')
  end.

Definition simple_URL_pathname (url : string) : Try string :=
  match afterScheme url with
  | None => Thrown "Invalid URL"
  | Some rest =>
      match untilQueryOrFragment (dropAuthority rest) with
      | EmptyString => Returned "/"
      | path => Returned path
      end
  end.

(** A reading of [decodeURIComponent] for escapes of ASCII characters:
    [%XX] with [XX] below 80 hexadecimal becomes that character; any other
    use of [%] is reported as malformed.  Also a parameter of the
    components; this one serves in examples. *)
Definition hexDigit (c : ascii) : option nat :=
  let n := nat_of_ascii c in
  if bool_decide (48 ≤ n ≤ 57)%nat then Some (n - 48)%nat
  else if bool_decide (65 ≤ n ≤ 70)%nat then Some (n - 55)%nat
  else if bool_decide (97 ≤ n ≤ 102)%nat then Some (n - 87)%nat
  else None.

Fixpoint percent_decode (s : string) : Try string :=
  match s with
  | EmptyString => Returned EmptyString
  | String "%" (String h (String l rest)) =>
      match hexDigit h, hexDigit l with
      | Some a, Some b =>
          if bool_decide (a < 8)%nat then
            match percent_decode rest with
            | Returned t => Returned (String (ascii_of_nat (16 * a + b)) t)
            | Thrown m => Thrown m
            end
          else Thrown "URI malformed"
      | _, _ => Thrown "URI malformed"
      end
  | String "%" _ => Thrown "URI malformed"
  | String c rest =>
      match percent_decode rest with
      | Returned t => Returned (String c t)
      | Thrown m => Thrown m
      end
  end.

End JS.

(** ** Asynchronous handlers

    A handler is a program over the calls it makes to its environment (the
    backend client, the browser); every [await] is a call whose answer the
    environment chooses. *)

Module Effects.

Inductive Free (E : Type → Type) (A : Type) : Type :=
| Ret (a : A)
| Vis {R : Type} (e : E R) (k : R → Free E A).
Arguments Ret {E A} a.
Arguments Vis {E A R} e k.

Fixpoint bind {E A B} (p : Free E A) (f : A → Free E B) : Free E B :=
  match p with
  | Ret a => f a
  | Vis e k => Vis e (λ r, bind (k r) f)
  end.

Definition call {E R} (e : E R) : Free E R := Vis e Ret.

#[global] Instance Free_ret {E} : MRet (Free E) := λ A a, Ret a.
#[global] Instance Free_bind {E} : MBind (Free E) := λ A B f p, bind p f.

(** A call together with the answer it received. *)
Inductive Event (E : Type → Type) : Type :=
| Ev {R : Type} (e : E R) (r : R).
Arguments Ev {E R} e r.

(** [runs p trace a]: [p] can make exactly the calls of [trace], receive the
    answers recorded there, and finish with [a]. *)
Fixpoint runs {E A} (p : Free E A) (trace : list (Event E)) (a : A) : Prop :=
  match p with
  | Ret x => trace = [] ∧ a = x
  | Vis e k => ∃ r trace', trace = Ev e r :: trace' ∧ runs (k r) trace' a
  end.

(** Running against an environment that answers each call by its shape. *)
Fixpoint exec {E A} (env : ∀ R, E R → R) (p : Free E A) : list (Event E) * A :=
  match p with
  | Ret x => ([], x)
  | Vis e k => let r := env _ e in
               let '(trace, a) := exec env (k r) in (Ev e r :: trace, a)
  end.

(** What a [try] block comes to. *)
Inductive Outcome (S : Type) : Type :=
| Completed (s : S)
| Threw (s : S) (message : string).
Arguments Completed {S} s.
Arguments Threw {S} s message.

End Effects.

(** ** The comment list *)

Module CommentList.
Import JS.

(** [interface DbComment]; the joined [profiles] object is only rendered
    and is left out. *)
Record DbComment := mkDbComment {
  id : Z;
  content : JSString;
  created_at : Z;
  user_id : option string;
  category_id : option Z;
  item_id : option Z;
  parent_comment_id : option Z
}.

(** [interface Comment extends DbComment { replies: Comment[] }], as an
    object of the heap: [replies] holds references. *)
Record Comment := mkComment {
  fields : DbComment;
  replies : list Z
}.

(** The heap of [Comment] objects is [commentMap] itself. *)
Abbreviation Heap := (gmap Z Comment).

(** First pass: [commentMap[comment.id] = { ...comment, replies: [] }]. *)
Definition indexComments (comments : list DbComment) : Heap :=
  foldl (λ commentMap comment,
           <[id comment := mkComment comment []]> commentMap) ∅ comments.

(** The guard of the second pass,
    [comment.parent_comment_id && commentMap[comment.parent_comment_id]]:
    the key of the parent object when the guard holds. *)
Definition resolvedParent (commentMap : Heap) (comment : DbComment) : option Z :=
  match parent_comment_id comment with
  | Some p =>
      if truthy (Some p) && bool_decide (is_Some (commentMap !! p))
      then Some p else None
  | None => None
  end.

(** Second pass, one iteration of the [forEach]. *)
Definition nest (acc : Heap * list Z) (comment : DbComment) : Heap * list Z :=
  let '(commentMap, rootComments) := acc in
  match resolvedParent commentMap comment with
  | Some p =>
      (alter (λ parent, mkComment (fields parent)
                          (push (id comment) (replies parent))) p commentMap,
       rootComments)
  | None => (commentMap, push (id comment) rootComments)
  end.

(** [new Date(c.created_at).getTime()] of the object behind a reference. *)
Definition getTime (commentMap : Heap) (ref : Z) : Z :=
  match commentMap !! ref with
  | Some c => created_at (fields c)
  | None => 0
  end.

(** [sortByDate = (a, b) =>
      new Date(b.created_at).getTime() - new Date(a.created_at).getTime()] *)
Definition sortByDate (commentMap : Heap) (a b : Z) : Z :=
  getTime commentMap b - getTime commentMap a.

(** [buildCommentThreads]: the returned array of root references together
    with the heap they point into. *)
Definition buildCommentThreads (comments : list DbComment) : list Z * Heap :=
  let commentMap := indexComments comments in
  let '(commentMap, rootComments) := foldl nest (commentMap, []) comments in
  let rootComments := Array_sort (sortByDate commentMap) rootComments in
  let commentMap :=
    (λ comment, mkComment (fields comment)
                  (Array_sort (sortByDate commentMap) (replies comment)))
      <$> commentMap in
  (rootComments, commentMap).

(** [flatten] of [fetchAndAddComment]: a thread followed by the flattening
    of its replies.  The recursion follows references, hence the fuel. *)
Fixpoint flatten (fuel : nat) (heap : Heap) (thread : Z) : list DbComment :=
  match fuel with
  | O => []
  | S fuel' =>
      match heap !! thread with
      | Some c => fields c :: (replies c ≫= flatten fuel' heap)
      | None => []
      end
  end.

(** [threads.forEach(flatten)] *)
Definition flattenAll (fuel : nat) (heap : Heap) (threads : list Z) : list DbComment :=
  threads ≫= flatten fuel heap.

(** The nodes of the returned forest: the objects the returned array refers
    to, and the objects the [replies] of such a node refer to. *)
Inductive inForest (result : list Z * Heap) : Comment → Prop :=
| inForest_root k node :
    k ∈ result.1 → result.2 !! k = Some node → inForest result node
| inForest_reply parent k node :
    inForest result parent → k ∈ replies parent →
    result.2 !! k = Some node → inForest result node.

(** *** Well-founded parent links

    [depth comments fuel k] counts the parent links from the comment stored
    under key [k] up to a comment that the second pass places among the
    roots; it is [None] when no such comment is reached within [fuel]
    links. *)
Fixpoint depth (comments : list DbComment) (fuel : nat) (k : Z) : option nat :=
  match fuel with
  | O => None
  | S fuel' =>
      c ← indexComments comments !! k;
      match resolvedParent (indexComments comments) (fields c) with
      | None => Some O
      | Some p => S <$> depth comments fuel' p
      end
  end.

(** Every comment lies at a finite depth below a root: the parent links
    contain no cycle. *)
Definition parentLinksEnd (comments : list DbComment) : Prop :=
  ∀ c, c ∈ comments → is_Some (depth comments (length comments) (id c)).

Definition distinctIds (comments : list DbComment) : Prop :=
  NoDup (id <$> comments).

(** *** What the second pass computes, in closed form

    The references pushed on [rootComments], and on the [replies] of the
    object stored under [k], by a [forEach] over [comments]. *)
Definition rootsOf (m : Heap) (comments : list DbComment) : list Z :=
  id <$> filter (λ c, resolvedParent m c = None) comments.

Definition childrenOf (m : Heap) (k : Z) (comments : list DbComment) : list Z :=
  id <$> filter (λ c, resolvedParent m c = Some k) comments.

Definition addReplies (rs : list Z) (nd : Comment) : Comment :=
  mkComment (fields nd) (replies nd ++ rs).

Definition depthOf (comments : list DbComment) (c : DbComment) : option nat :=
  depth comments (length comments) (id c).

(** The comments [d] parent links below a root. *)
Definition level (comments : list DbComment) (d : nat) : list DbComment :=
  filter (λ c, depthOf comments c = Some d) comments.

(** Newest first: the order [sortByDate] sorts into. *)
Definition newestFirst (heap : Heap) (a b : Z) : Prop :=
  getTime heap b ≤ getTime heap a.

(** *** The component [CommentList] *)

(** [useAuth().user]; only its [id] is read. *)
Record User := mkUser { uid : string }.

Record Props := mkProps {
  categoryId : option Z;
  itemId : option Z
}.

(** The [useState] cells, and the reply textareas of the document
    ([reply-input-<id>], uncontrolled) by comment id. *)
Record State := mkState {
  comments : list Z * Heap;
  isLoading : bool;
  newComment : JSString;
  isSubmitting : bool;
  isAnonymous : bool;
  replyingToCommentId : option Z;
  isAdmin : bool;
  replyInputs : gmap Z JSString
}.

Definition setComments (v : list Z * Heap) (s : State) : State :=
  mkState v (isLoading s) (newComment s) (isSubmitting s) (isAnonymous s)
    (replyingToCommentId s) (isAdmin s) (replyInputs s).
Definition setNewComment (v : JSString) (s : State) : State :=
  mkState (comments s) (isLoading s) v (isSubmitting s) (isAnonymous s)
    (replyingToCommentId s) (isAdmin s) (replyInputs s).
Definition setIsSubmitting (v : bool) (s : State) : State :=
  mkState (comments s) (isLoading s) (newComment s) v (isAnonymous s)
    (replyingToCommentId s) (isAdmin s) (replyInputs s).
Definition setIsAnonymous (v : bool) (s : State) : State :=
  mkState (comments s) (isLoading s) (newComment s) (isSubmitting s) v
    (replyingToCommentId s) (isAdmin s) (replyInputs s).
Definition setReplyingToCommentId (v : option Z) (s : State) : State :=
  mkState (comments s) (isLoading s) (newComment s) (isSubmitting s)
    (isAnonymous s) v (isAdmin s) (replyInputs s).
Definition setReplyInputs (v : gmap Z JSString) (s : State) : State :=
  mkState (comments s) (isLoading s) (newComment s) (isSubmitting s)
    (isAnonymous s) (replyingToCommentId s) (isAdmin s) v.

(** The row handed to [supabase.from('comments').insert]. *)
Record CommentInsert := mkCommentInsert {
  new_content : JSString;
  new_user_id : option string;
  new_parent_comment_id : option Z;
  new_category_id : option Z;
  new_item_id : option Z
}.

(** Calls to the environment; a query answers with [{ data, error }], the
    error by its message. *)
Inductive Call : Type → Type :=
| PreventDefault : Call unit
| StopPropagation : Call unit
| ConsoleLog (message : string) : Call unit
| ConsoleError (message : string) : Call unit
| InsertComment (row : CommentInsert) : Call (option DbComment * option string)
| SelectComment (commentId : Z) : Call (option DbComment * option string).

Import Effects.

(** [fetchAndAddComment]: fetch one comment, and rebuild the threads with it
    unless it is already shown.  [flatten] gets as much fuel as the heap has
    objects. *)
Definition fetchAndAddComment (commentId : Z) (st : State) : Free Call State :=
  call (ConsoleLog ("fetchAndAddComment: Fetching details for comment "
                    +:+ pretty commentId));;
  '(data, error) ← call (SelectComment commentId);
  match error with
  | Some _ =>
      call (ConsoleError ("fetchAndAddComment: Error fetching comment "
                          +:+ pretty commentId +:+ ":"));;
      mret st
  | None =>
      let '(threads, heap) := comments st in
      updatedThreads ←
        match data with
        | Some commentData =>
            let flatExistingComments :=
              flattenAll (S (size heap)) heap threads in
            if bool_decide (Exists (λ c, id c = id commentData)
                              flatExistingComments)
            then
              call (ConsoleLog ("fetchAndAddComment: Comment "
                                +:+ pretty (id commentData)
                                +:+ " already exists, skipping update."));;
              mret (threads, heap)
            else
              call (ConsoleLog ("fetchAndAddComment: Adding new comment "
                                +:+ pretty (id commentData)
                                +:+ " and rebuilding threads."));;
              mret (buildCommentThreads (flatExistingComments ++ [commentData]))
        | None =>
            call (ConsoleLog ("fetchAndAddComment: Comment "
                              +:+ pretty commentId
                              +:+ " not found (returned null)."));;
            mret (threads, heap)
        end;
      mret (setComments updatedThreads st)
  end.

(** The callback registered for [INSERT] notifications on [comments]. *)
Definition onRealtimeInsert (payload : DbComment) (st : State) : Free Call State :=
  call (ConsoleLog "Real-time INSERT received:");;
  let newCommentData := payload in
  call (ConsoleLog "[Debug] Real-time insert detected, auto-fetch disabled for now.");;
  mret st.

(** [parentId ? document.getElementById(`reply-input-${parentId}`)?.value
             : newComment] *)
Definition commentText (parentId : option Z) (st : State) : option JSString :=
  if truthy parentId then parentId ≫= λ p, replyInputs st !! p
  else Some (newComment st).

(** [!user || (parentId ? false : isAnonymous)] *)
Definition postAnonymously (user : option User) (parentId : option Z) (st : State) : bool :=
  match user with
  | None => true
  | Some _ => if truthy parentId then false else isAnonymous st
  end.

Definition commentData (props : Props) (user : option User) (parentId : option Z) (text : JSString) (st : State) : CommentInsert :=
  let userIdToSend :=
    if postAnonymously user parentId st then None else uid <$> user in
  {| new_content := trim text;
     new_user_id := userIdToSend;
     new_parent_comment_id := parentId;
     new_category_id := if truthy (categoryId props) then categoryId props else None;
     new_item_id := if truthy (itemId props) then itemId props else None |}.

Definition handleSubmitComment (props : Props) (user : option User) (parentId : option Z) (st : State) : Free Call State :=
  call PreventDefault;;
  call StopPropagation;;
  match commentText parentId st with
  | None => mret st
  | Some text =>
      if negb (nonEmptyText text) || negb (nonEmptyText (trim text)) then mret st
      else
        let submitting := setIsSubmitting true st in
        call (ConsoleLog "Submitting comment data:");;
        '(insertedData, error) ←
          call (InsertComment (commentData props user parentId text st));
        let st' := setIsSubmitting false submitting in
        match error, insertedData with
        | None, Some _ =>
            call (ConsoleLog "Comment submission successful:");;
            match parentId with
            | Some p =>
                if truthy parentId then
                  let inputs :=
                    match replyInputs st' !! p with
                    | Some _ => <[p := []]> (replyInputs st')
                    | None => replyInputs st'
                    end in
                  mret (setReplyingToCommentId None (setReplyInputs inputs st'))
                else mret (setIsAnonymous false (setNewComment [] st'))
            | None => mret (setIsAnonymous false (setNewComment [] st'))
            end
        | Some _, _ =>
            call (ConsoleError "Error submitting comment:");;
            mret st'
        | None, None => mret st'
        end
  end.

(** The row of an insert call, and whether a call reaches the backend. *)
Definition insertedRow (ev : Event Call) : option CommentInsert :=
  match ev with
  | Ev e _ =>
      match e with
      | InsertComment row => Some row
      | _ => None
      end
  end.

Definition isBackendCall (ev : Event Call) : bool :=
  match ev with
  | Ev e _ =>
      match e with
      | InsertComment _ | SelectComment _ => true
      | PreventDefault | StopPropagation | ConsoleLog _ | ConsoleError _ => false
      end
  end.

(** *** Sample data *)

(** A comment with given key fields and the remaining fields of [base]. *)
Definition keyed (base : DbComment) (i : Z) (p : option Z) (t : Z) : DbComment :=
  mkDbComment i (content base) t (user_id base) (category_id base)
    (item_id base) p.

Definition blank : DbComment := mkDbComment 0 [] 0 None None None None.

Definition idle : State :=
  mkState ([], ∅) false [] false false None false ∅.

Definition sampleComment : DbComment :=
  mkDbComment 7 (codeUnits "hello") 1000 None (Some 1) None None.

(** An environment whose backend rejects every query. *)
Definition rejecting (R : Type) (e : Call R) : R :=
  match e with
  | PreventDefault | StopPropagation | ConsoleLog _ | ConsoleError _ => ()
  | InsertComment _ => (None, Some "rejected")
  | SelectComment _ => (None, Some "rejected")
  end.

Definition alice : User := mkUser "user-1".

End CommentList.

(** ** The admin managers *)

(** The storage path prefix of public object URLs. *)
Definition pathPrefix (bucketName : string) : string :=
  "/storage/v1/object/public/" +:+ bucketName +:+ "/".

(** *** [AdminProofsManager] *)

Module AdminProofsManager.
Import JS Effects.

Record Proof := mkProof {
  id : Z;
  created_at : string;
  image_url : string;
  proof_date : option string
}.

(** A [File] of the file input; only its name is read. *)
Record File := mkFile { name : string }.

Definition PROOF_IMAGE_BUCKET : string := "proof-images".

(** The [useState] cells, and the value of the file input
    [proofImageUpload] when the document has it. *)
Record State := mkState {
  proofs : list Proof;
  isLoading : bool;
  error : option string;
  selectedFile : option File;
  proofDate : string;
  isUploading : bool;
  fileInput : option string
}.

Definition setProofs (v : list Proof) (s : State) : State :=
  mkState v (isLoading s) (error s) (selectedFile s) (proofDate s)
    (isUploading s) (fileInput s).
Definition setIsLoading (v : bool) (s : State) : State :=
  mkState (proofs s) v (error s) (selectedFile s) (proofDate s)
    (isUploading s) (fileInput s).
Definition setError (v : option string) (s : State) : State :=
  mkState (proofs s) (isLoading s) v (selectedFile s) (proofDate s)
    (isUploading s) (fileInput s).
Definition setSelectedFile (v : option File) (s : State) : State :=
  mkState (proofs s) (isLoading s) (error s) v (proofDate s)
    (isUploading s) (fileInput s).
Definition setProofDate (v : string) (s : State) : State :=
  mkState (proofs s) (isLoading s) (error s) (selectedFile s) v
    (isUploading s) (fileInput s).
Definition setIsUploading (v : bool) (s : State) : State :=
  mkState (proofs s) (isLoading s) (error s) (selectedFile s) (proofDate s)
    v (fileInput s).
Definition setFileInput (v : option string) (s : State) : State :=
  mkState (proofs s) (isLoading s) (error s) (selectedFile s) (proofDate s)
    (isUploading s) v.

Inductive Level := Log | Warn | Error.

(** A storage or table call answers with [{ error }], here the message of
    the error if there is one. *)
Inductive Call : Type → Type :=
| PreventDefault : Call unit
| WindowConfirm (message : string) : Call bool
| Console (level : Level) (message : string) : Call unit
| DateNow : Call Z
| StorageUpload (bucket path : string) (file : File) : Call (option string)
| StorageGetPublicUrl (bucket path : string) : Call (option string)
| StorageRemove (bucket : string) (paths : list string) : Call (option string)
| InsertProof (image_url : string) (proof_date : option string) : Call (option string)
| SelectProofs : Call (option (list Proof) * option string)
| DeleteProof (id : Z) : Call (option string).

Definition loadProofs (st : State) : Free Call State :=
  let st := setError None (setIsLoading true st) in
  '(data, fetchError) ← call SelectProofs;
  st ← match fetchError with
       | Some message =>
           call (Console Error "Error loading proofs:");;
           mret (setError (Some message) st)
       | None => mret (setProofs (default [] data) st)
       end;
  mret (setIsLoading false st).

(** The [try] block of [handleUploadProof]. *)
Definition uploadProof (file : File) (st : State) : Free Call (Outcome State) :=
  now ← call DateNow;
  let fileExt := pop (split "." (name file)) in
  let filePath := "proof-" +:+ pretty now +:+ "." +:+ fileExt in
  uploadError ← call (StorageUpload PROOF_IMAGE_BUCKET filePath file);
  match uploadError with
  | Some message => mret (Threw st ("Image Upload Error: " +:+ message))
  | None =>
      urlData ← call (StorageGetPublicUrl PROOF_IMAGE_BUCKET filePath);
      match urlData with
      | Some publicUrl =>
          if nonEmpty publicUrl then
            insertError ←
              call (InsertProof publicUrl
                      (if nonEmpty (proofDate st) then Some (proofDate st)
                       else None));
            match insertError with
            | Some message =>
                call (StorageRemove PROOF_IMAGE_BUCKET [filePath]);;
                mret (Threw st ("DB Insert Error: " +:+ message))
            | None =>
                call (Console Log "Proof uploaded and linked successfully:");;
                let st := setProofDate EmptyString (setSelectedFile None st) in
                let st :=
                  match fileInput st with
                  | Some _ => setFileInput (Some EmptyString) st
                  | None => st
                  end in
                mret (Completed st)
            end
          else mret (Threw st "Could not get public URL for uploaded image.")
      | None => mret (Threw st "Could not get public URL for uploaded image.")
      end
  end.

(** [handleUploadProof].  On success [loadProofs()] is started and not
    awaited: it is suspended at its query, the [finally] block runs, and the
    rest of [loadProofs] runs afterwards; its two updates before the query
    touch other cells than [setIsUploading], so the whole of it is placed
    after the [finally] block. *)
Definition handleUploadProof (st : State) : Free Call State :=
  call PreventDefault;;
  match selectedFile st with
  | None => mret (setError (Some "Please select an image file to upload.") st)
  | Some file =>
      let st := setError None (setIsUploading true st) in
      outcome ← uploadProof file st;
      match outcome with
      | Completed st =>
          let st := setIsUploading false st in
          loadProofs st
      | Threw st message =>
          call (Console Error "Error during proof upload:");;
          let st := setError (Some ("Failed to upload proof: " +:+ message)) st in
          mret (setIsUploading false st)
      end
  end.

(** The path [handleDeleteProof] takes from the URL: what follows the first
    segment equal to the bucket name. *)
Definition proofFilePath (image_url : string) : string :=
  let urlParts := split "/" image_url in
  join "/" (slice (indexOf PROOF_IMAGE_BUCKET urlParts + 1) urlParts).

Definition deleteProof (proof : Proof) (st : State) : Free Call (Outcome State) :=
  let filePath := proofFilePath (image_url proof) in
  st ← (if nonEmpty filePath then
          call (Console Log "Attempting to delete from storage:");;
          storageError ← call (StorageRemove PROOF_IMAGE_BUCKET [filePath]);
          match storageError with
          | Some message =>
              call (Console Error "Error deleting proof from storage (will still attempt DB deletion):");;
              mret (setError (Some ("Warning: Failed to delete image file from storage: " +:+ message)) st)
          | None =>
              call (Console Log "Successfully deleted from storage:");;
              mret st
          end
        else
          call (Console Warn "Could not determine file path from URL for deletion:");;
          mret st);
  dbError ← call (DeleteProof (id proof));
  match dbError with
  | Some message => mret (Threw st message)
  | None =>
      call (Console Log "Proof deleted successfully from DB:");;
      mret (Completed
              (setProofs (filter (λ p, id p ≠ id proof) (proofs st)) st))
  end.

Definition handleDeleteProof (proof : Proof) (st : State) : Free Call State :=
  confirmed ← call (WindowConfirm "Are you sure you want to delete this proof? This action cannot be undone.");
  if confirmed : bool then
    let st := setError None (setIsLoading true st) in
    outcome ← deleteProof proof st;
    match outcome with
    | Completed st => mret (setIsLoading false st)
    | Threw st message =>
        call (Console Error "Error deleting proof:");;
        let st := setError (Some ("Failed to delete proof: " +:+ message)) st in
        mret (setIsLoading false st)
    end
  else mret st.

(** Observations on a trace: an upload that succeeded, an insert that
    failed, and the arguments of a storage delete. *)
Definition uploadSucceeded (ev : Event Call) : option (string * string) :=
  match ev with
  | Ev e r =>
      match e in Call R return R → option (string * string) with
      | StorageUpload bucket path _ =>
          λ r, match r with None => Some (bucket, path) | Some _ => None end
      | _ => λ _, None
      end r
  end.

Definition insertFailed (ev : Event Call) : option string :=
  match ev with
  | Ev e r =>
      match e in Call R return R → option string with
      | InsertProof _ _ => λ r, r
      | _ => λ _, None
      end r
  end.

Definition removeCall (ev : Event Call) : option (string * list string) :=
  match ev with
  | Ev e _ =>
      match e with
      | StorageRemove bucket paths => Some (bucket, paths)
      | _ => None
      end
  end.

Definition confirmAnswer (ev : Event Call) : option bool :=
  match ev with
  | Ev e r =>
      match e in Call R return R → option bool with
      | WindowConfirm _ => λ r, Some r
      | _ => λ _, None
      end r
  end.

Definition confirmed (trace : list (Event Call)) : bool :=
  bool_decide (head trace ≫= confirmAnswer = Some true).

(** *** Sample data *)

(** An environment in which the upload works and the insert, then the
    rollback, are refused. *)
Definition refusingInsert (R : Type) (e : Call R) : R :=
  match e with
  | PreventDefault => ()
  | WindowConfirm _ => true
  | Console _ _ => ()
  | DateNow => 1714000000000
  | StorageUpload _ _ _ => None
  | StorageGetPublicUrl bucket path =>
      Some ("https://x.supabase.co" +:+ pathPrefix bucket +:+ path)
  | StorageRemove _ _ => Some "object not found"
  | InsertProof _ _ => Some "violates row-level security"
  | SelectProofs => (Some [], None)
  | DeleteProof _ => None
  end.

Definition withFile : State :=
  mkState [] false None (Some (mkFile "receipt.png")) "2025-05-01" false
    (Some "C:\fakepath\receipt.png").

(** An environment that agrees to everything. *)
Definition accepting (R : Type) (e : Call R) : R :=
  match e with
  | PreventDefault => ()
  | WindowConfirm _ => true
  | Console _ _ => ()
  | DateNow => 1714000000000
  | StorageUpload _ _ _ => None
  | StorageGetPublicUrl bucket path =>
      Some ("https://x.supabase.co" +:+ pathPrefix bucket +:+ path)
  | StorageRemove _ _ => None
  | InsertProof _ _ => None
  | SelectProofs => (Some [], None)
  | DeleteProof _ => None
  end.

End AdminProofsManager.

(** *** [AdminImagesManager] *)

Module AdminImagesManager.
Import JS Effects.

Record Image := mkImage {
  id : Z;
  url : string;
  item_id : option Z;
  category_id : option Z;
  type : string
}.

(** The [useState] cells [deleteImage] and [loadImages] read or write. *)
Record State := mkState {
  images : list Image;
  selectedCategoryId : option Z;
  selectedType : string;
  isLoading : bool;
  error : option string
}.

Definition setImages (v : list Image) (s : State) : State :=
  mkState v (selectedCategoryId s) (selectedType s) (isLoading s) (error s).
Definition setIsLoading (v : bool) (s : State) : State :=
  mkState (images s) (selectedCategoryId s) (selectedType s) v (error s).
Definition setError (v : option string) (s : State) : State :=
  mkState (images s) (selectedCategoryId s) (selectedType s) (isLoading s) v.

(** [FetchImages] and [GetImagesByCategory] are the store's functions; the
    first answers with the message of the error it throws, if any. *)
Inductive Call : Type → Type :=
| WindowConfirm (message : string) : Call bool
| ConsoleWarn (message : string) : Call unit
| ConsoleError (message : string) : Call unit
| StorageRemove (bucket : string) (paths : list string) : Call (option string)
| DeleteImageRow (id : Z) : Call (option string)
| FetchImages (type : string) (categoryId : Z) : Call (option string)
| GetImagesByCategory (categoryId : Z) (type : string) : Call (list Image).

Definition loadImages (type : string) (categoryId : Z) (st : State) : Free Call State :=
  let st := setImages [] (setError None (setIsLoading true st)) in
  thrown ← call (FetchImages type categoryId);
  st ← match thrown with
       | None =>
           found ← call (GetImagesByCategory categoryId type);
           mret (setImages found st)
       | Some message => mret (setImages [] (setError (Some message) st))
       end;
  mret (setIsLoading false st).

Section with_URL.
(** [new URL(url).pathname], or the message of the [TypeError]. *)
Context (URL_pathname : string → Try string).

Definition bucketName : string := "images".

(** The [try] block of [deleteImage]. *)
Definition removeImage (image : Image) (st : State) : Free Call (Outcome State) :=
  let st := setError None (setIsLoading true st) in
  match URL_pathname (url image) with
  | Thrown message => mret (Threw st message)
  | Returned pathname =>
      filePath ←
        (if startsWith pathname (pathPrefix bucketName)
         then mret (substring (String.length (pathPrefix bucketName)) pathname)
         else
           call (ConsoleWarn "Could not determine file path from URL structure:");;
           mret EmptyString);
      st ← (if nonEmpty filePath then
              storageError ← call (StorageRemove bucketName [filePath]);
              match storageError with
              | Some message =>
                  call (ConsoleError "Storage deletion error:");;
                  mret (setError (Some ("Storage deletion failed: " +:+ message +:+ ". Attempting to delete database record.")) st)
              | None => mret st
              end
            else mret st);
      dbError ← call (DeleteImageRow (id image));
      match dbError with
      | Some message => mret (Threw st message)
      | None =>
          match selectedCategoryId st with
          | Some categoryId =>
              if truthy (selectedCategoryId st) && nonEmpty (selectedType st)
              then st ← loadImages (selectedType st) categoryId st;
                   mret (Completed st)
              else mret (Completed st)
          | None => mret (Completed st)
          end
      end
  end.

Definition deleteImage (image : Image) (st : State) : Free Call State :=
  confirmed ← call (WindowConfirm "Are you sure you want to delete this image?");
  if confirmed : bool then
    outcome ← removeImage image st;
    match outcome with
    | Completed st => mret (setIsLoading false st)
    | Threw st message =>
        let st := setError (Some ("Deletion failed: " +:+ message)) st in
        call (ConsoleError "Deletion error:");;
        mret (setIsLoading false st)
    end
  else mret st.

End with_URL.

Definition removeCall (ev : Event Call) : option (string * list string) :=
  match ev with
  | Ev e _ =>
      match e with
      | StorageRemove bucket paths => Some (bucket, paths)
      | _ => None
      end
  end.

Definition confirmAnswer (ev : Event Call) : option bool :=
  match ev with
  | Ev e r =>
      match e in Call R return R → option bool with
      | WindowConfirm _ => λ r, Some r
      | _ => λ _, None
      end r
  end.

Definition confirmed (trace : list (Event Call)) : bool :=
  bool_decide (head trace ≫= confirmAnswer = Some true).

(** The value of [filePath] in [deleteImage]. *)
Definition imageFilePath (pathname : string) : string :=
  if startsWith pathname (pathPrefix bucketName)
  then JS.substring (String.length (pathPrefix bucketName)) pathname
  else EmptyString.

(** *** Sample data *)

(** An environment that agrees to everything. *)
Definition accepting (R : Type) (e : Call R) : R :=
  match e with
  | WindowConfirm _ => true
  | ConsoleWarn _ | ConsoleError _ => ()
  | StorageRemove _ _ => None
  | DeleteImageRow _ => None
  | FetchImages _ _ => None
  | GetImagesByCategory _ _ => []
  end.

Definition viewing : State := mkState [] (Some 2) "proofs" false None.

End AdminImagesManager.

(** *** [AdminServicesManager] *)

Module AdminServicesManager.
Import JS Effects.

(** The one [useState] cell [deleteStoredImage] writes. *)
Record State := mkState { error : option string }.

Inductive Call : Type → Type :=
| ConsoleLog (message : string) : Call unit
| ConsoleWarn (message : string) : Call unit
| ConsoleError (message : string) : Call unit
| StorageRemove (bucket : string) (paths : list string) : Call (option string).

Section with_URL.
(** [new URL(url).pathname] and [decodeURIComponent], each with the message
    of the error it may throw. *)
Context (URL_pathname : string → Try string).
Context (decodeURIComponent : string → Try string).

Definition bucketName : string := "programminglistbuckets".

(** The path taken from the URL inside the [try] block: [None] when the
    function returns early, having found no path. *)
Definition storedFilePath (pathname : string) : Free Call (Outcome (option string)) :=
  if startsWith pathname (pathPrefix bucketName) then
    match decodeURIComponent
            (substring (String.length (pathPrefix bucketName)) pathname) with
    | Returned filePath => mret (Completed (Some filePath))
    | Thrown message => mret (Threw None message)
    end
  else
    call (ConsoleWarn "Could not determine file path from URL structure:");;
    let pathSegments := split "/" pathname in
    let potentialPath :=
      join "/" (slice (indexOf bucketName pathSegments + 1) pathSegments) in
    if nonEmpty potentialPath then
      match decodeURIComponent potentialPath with
      | Returned filePath =>
          call (ConsoleLog "Attempting deletion with extracted path:");;
          mret (Completed (Some filePath))
      | Thrown message => mret (Threw None message)
      end
    else
      call (ConsoleError "Failed to extract file path for deletion.");;
      mret (Completed None).

Definition deleteStoredImage (imageUrl : option string) (st : State) : Free Call State :=
  match imageUrl with
  | None => mret st
  | Some imageUrl =>
      if nonEmpty imageUrl then
        outcome ←
          match URL_pathname imageUrl with
          | Thrown message => mret (Threw None message)
          | Returned pathname => storedFilePath pathname
          end;
        match outcome with
        | Completed (Some filePath) =>
            if nonEmpty filePath then
              storageError ← call (StorageRemove bucketName [filePath]);
              match storageError with
              | Some message =>
                  call (ConsoleError "Storage deletion error:");;
                  mret (mkState (Some ("Storage deletion failed: " +:+ message +:+ ". Proceeding with DB operation.")))
              | None =>
                  call (ConsoleLog "Successfully deleted old image:");;
                  mret st
              end
            else mret st
        | Completed None => mret st
        | Threw _ _ =>
            call (ConsoleError "Error processing image URL for deletion:");;
            mret (mkState (Some "Error occurred while trying to delete the old image."))
        end
      else mret st
  end.

End with_URL.

Definition removeCall (ev : Event Call) : option (string * list string) :=
  match ev with
  | Ev e _ =>
      match e with
      | StorageRemove bucket paths => Some (bucket, paths)
      | _ => None
      end
  end.

(** The storage delete [deleteStoredImage] makes for a decoded path. *)
Definition removalOf (decoded : Try string) : list (string * list string) :=
  match decoded with
  | Returned filePath =>
      if nonEmpty filePath then [(bucketName, [filePath])] else []
  | Thrown _ => []
  end.

(** The path of the fallback of [deleteStoredImage]: what follows the
    first path segment equal to the bucket name. *)
Definition fallbackPath (pathname : string) : string :=
  let pathSegments := split "/" pathname in
  join "/" (slice (indexOf bucketName pathSegments + 1) pathSegments).

(** *** Sample data *)

(** An environment that agrees to everything. *)
Definition accepting (R : Type) (e : Call R) : R :=
  match e with
  | ConsoleLog _ | ConsoleWarn _ | ConsoleError _ => ()
  | StorageRemove _ _ => None
  end.

Definition noError : State := mkState None.

End AdminServicesManager.

(** ** Further observations on the comment forest *)

Module ThreadObservations.
Import JS CommentList.

(** Every reference the result holds: the roots, then the [replies] of each
    object of the heap. *)
Definition allReferences (result : list Z * Heap) : list Z :=
  result.1 ++ (map_to_list result.2 ≫= λ entry, replies entry.2).

(** The references of a list whose object was created at [t]. *)
Definition createdAt (heap : Heap) (t : Z) (refs : list Z) : list Z :=
  filter (λ k, getTime heap k = t) refs.

(** No two comments were created at the same instant. *)
Definition distinctTimes (comments : list DbComment) : Prop :=
  NoDup (created_at <$> comments).

(** The comments a state shows are those of a well-formed list. *)
Definition shows (st : State) (comments : list DbComment) : Prop :=
  CommentList.comments st = buildCommentThreads comments ∧
  distinctIds comments ∧ parentLinksEnd comments.

(** What the backend answered to the query of [fetchAndAddComment]. *)
Definition fetchAnswer (ev : Effects.Event Call) : option (option DbComment * option string) :=
  match ev with
  | Effects.Ev e r =>
      match e in Call R return R → option (option DbComment * option string) with
      | SelectComment _ => λ r, Some r
      | _ => λ _, None
      end r
  end.

(** An environment whose backend answers the query for one comment with
    [answer], and rejects inserts. *)
Definition fetching (answer : option DbComment * option string) (R : Type) (e : Call R) : R :=
  match e with
  | PreventDefault | StopPropagation | ConsoleLog _ | ConsoleError _ => ()
  | InsertComment _ => (None, Some "rejected")
  | SelectComment _ => answer
  end.

(** A state that shows one comment and a reply to it. *)
Definition showingTwo : State :=
  setComments
    (buildCommentThreads [keyed blank 1 None 10; keyed blank 2 (Some 1) 20])
    idle.

(** What the backend answered to the insert of [handleSubmitComment]. *)
Definition insertAnswer (ev : Effects.Event Call) : option (option DbComment * option string) :=
  match ev with
  | Effects.Ev e r =>
      match e in Call R return R → option (option DbComment * option string) with
      | InsertComment _ => λ r, Some r
      | _ => λ _, None
      end r
  end.

(** An environment whose backend accepts the insert and returns [row]. *)
Definition inserting (row : DbComment) (R : Type) (e : Call R) : R :=
  match e with
  | PreventDefault | StopPropagation | ConsoleLog _ | ConsoleError _ => ()
  | InsertComment _ => (Some row, None)
  | SelectComment _ => (Some row, None)
  end.

End ThreadObservations.

(** ** Further observations on the admin managers *)

Module ProofObservations.
Import JS Effects AdminProofsManager.

(** The path [handleUploadProof] uploads to at time [now]. *)
Definition uploadPath (now : Z) (file : File) : string :=
  "proof-" +:+ pretty now +:+ "." +:+ pop (split "." (name file)).

(** The date [handleUploadProof] stores: [proofDate || null]. *)
Definition dateToStore (st : State) : option string :=
  if nonEmpty (proofDate st) then Some (proofDate st) else None.

(** The bucket, the path and the file of an upload. *)
Definition uploadCall (ev : Event Call) : option (string * string * File) :=
  match ev with
  | Ev e _ =>
      match e with
      | StorageUpload bucket path file => Some (bucket, path, file)
      | _ => None
      end
  end.

(** The row of an insert, and what the backend answered to it. *)
Definition insertCall (ev : Event Call) : option (string * option string) :=
  match ev with
  | Ev e _ =>
      match e with
      | InsertProof image_url proof_date => Some (image_url, proof_date)
      | _ => None
      end
  end.

Definition insertAnswer (ev : Event Call) : option (option string) :=
  match ev with
  | Ev e r =>
      match e in Call R return R → option (option string) with
      | InsertProof _ _ => λ r, Some r
      | _ => λ _, None
      end r
  end.

(** What the backend answered to the query of [loadProofs]. *)
Definition selectAnswer (ev : Event Call) : option (option (list Proof) * option string) :=
  match ev with
  | Ev e r =>
      match e in Call R return R → option (option (list Proof) * option string) with
      | SelectProofs => λ r, Some r
      | _ => λ _, None
      end r
  end.

(** The id of a row delete, and what the backend answered to it. *)
Definition rowDelete (ev : Event Call) : option Z :=
  match ev with
  | Ev e _ =>
      match e with
      | DeleteProof id => Some id
      | _ => None
      end
  end.

Definition rowDeleteAnswer (ev : Event Call) : option (option string) :=
  match ev with
  | Ev e r =>
      match e in Call R return R → option (option string) with
      | DeleteProof _ => λ r, Some r
      | _ => λ _, None
      end r
  end.

(** What the storage answered to a delete. *)
Definition removeAnswer (ev : Event Call) : option (option string) :=
  match ev with
  | Ev e r =>
      match e in Call R return R → option (option string) with
      | StorageRemove _ _ => λ r, Some r
      | _ => λ _, None
      end r
  end.

(** The state after a failed upload. *)
Definition failedUpload (message : string) (st : State) : State :=
  setIsUploading false
    (setError (Some ("Failed to upload proof: " +:+ message))
       (setError None (setIsUploading true st))).

(** The state after a successful upload and the answer [(data, fetchError)]
    to the reload. *)
Definition uploaded (data : option (list Proof)) (fetchError : option string) (st : State) : State :=
  let st := setProofDate EmptyString
              (setSelectedFile None (setError None (setIsUploading true st))) in
  let st := match fileInput st with
            | Some _ => setFileInput (Some EmptyString) st
            | None => st
            end in
  let st := setError None (setIsLoading true (setIsUploading false st)) in
  setIsLoading false
    match fetchError with
    | Some message => setError (Some message) st
    | None => setProofs (default [] data) st
    end.

(** The characters of a string, and the dot that separates a file name
    from its extension. *)
Fixpoint chars (s : string) : list ascii :=
  match s with
  | EmptyString => []
  | String c s' => c :: chars s'
  end.

Definition dot : ascii := ".".

(** An environment whose storage refuses every upload and every delete, and
    whose table refuses to delete rows. *)
Definition refusingStorage (R : Type) (e : Call R) : R :=
  match e with
  | PreventDefault => ()
  | WindowConfirm _ => true
  | Console _ _ => ()
  | DateNow => 1714000000000
  | StorageUpload _ _ _ => Some "quota exceeded"
  | StorageGetPublicUrl bucket path =>
      Some ("https://x.supabase.co" +:+ pathPrefix bucket +:+ path)
  | StorageRemove _ _ => Some "object not found"
  | InsertProof _ _ => None
  | SelectProofs => (Some [], None)
  | DeleteProof _ => Some "violates row-level security"
  end.

(** Two proofs on display, and a state that lists them. *)
Definition proof1 : Proof :=
  mkProof 1 "2025-05-01"
    "https://x.supabase.co/storage/v1/object/public/proof-images/proof-1.png"
    None.

Definition proof2 : Proof :=
  mkProof 2 "2025-05-02" "https://cdn.example.com/pics/proof-2.png"
    (Some "2025-05-02").

Definition listing : State :=
  mkState [proof2; proof1] false None None EmptyString false None.

End ProofObservations.

Module ImageObservations.
Import JS Effects AdminImagesManager.

(** The id of a row delete, and what the backend answered to it. *)
Definition rowDelete (ev : Event Call) : option Z :=
  match ev with
  | Ev e _ =>
      match e with
      | DeleteImageRow id => Some id
      | _ => None
      end
  end.

Definition rowDeleteAnswer (ev : Event Call) : option (option string) :=
  match ev with
  | Ev e r =>
      match e in Call R return R → option (option string) with
      | DeleteImageRow _ => λ r, Some r
      | _ => λ _, None
      end r
  end.

(** The reload of the store, with the error it threw, and the images the
    store then holds for the category. *)
Definition fetchAnswer (ev : Event Call) : option (string * Z * option string) :=
  match ev with
  | Ev e r =>
      match e in Call R return R → option (string * Z * option string) with
      | FetchImages type categoryId => λ r, Some (type, categoryId, r)
      | _ => λ _, None
      end r
  end.

Definition foundImages (ev : Event Call) : option (list Image) :=
  match ev with
  | Ev e r =>
      match e in Call R return R → option (list Image) with
      | GetImagesByCategory _ _ => λ r, Some r
      | _ => λ _, None
      end r
  end.

(** An environment whose storage refuses every delete. *)
Definition refusingStorage (R : Type) (e : Call R) : R :=
  match e with
  | WindowConfirm _ => true
  | ConsoleWarn _ | ConsoleError _ => ()
  | StorageRemove _ _ => Some "object not found"
  | DeleteImageRow _ => None
  | FetchImages _ _ => None
  | GetImagesByCategory _ _ => []
  end.

Definition image1 : Image :=
  mkImage 1 "https://x.supabase.co/storage/v1/object/public/images/proofs/2/a.png"
    None (Some 2) "proofs".

Definition unparsable : Image := mkImage 3 "proofs/2/c.png" None (Some 2) "proofs".

End ImageObservations.

Module ServiceObservations.
Import JS Effects AdminServicesManager.

(** What the storage answered to a delete. *)
Definition removeAnswer (ev : Event Call) : option (option string) :=
  match ev with
  | Ev e r =>
      match e in Call R return R → option (option string) with
      | StorageRemove _ _ => λ r, Some r
      | _ => λ _, None
      end r
  end.

(** The messages [deleteStoredImage] shows. *)
Definition storageFailure (message : string) : string :=
  "Storage deletion failed: " +:+ message +:+ ". Proceeding with DB operation.".

Definition processingFailure : string :=
  "Error occurred while trying to delete the old image.".

(** An environment whose storage refuses every delete. *)
Definition refusingStorage (R : Type) (e : Call R) : R :=
  match e with
  | ConsoleLog _ | ConsoleWarn _ | ConsoleError _ => ()
  | StorageRemove _ _ => Some "object not found"
  end.

Definition logoUrl : string :=
  "https://x.supabase.co/storage/v1/object/public/programminglistbuckets/my%20logo.png".

End ServiceObservations.

(** ** The comment list: loading, deleting, and the admin check *)

Module CommentModeration.
Import JS Effects CommentList.

Definition setIsLoading (v : bool) (s : State) : State :=
  mkState (comments s) v (newComment s) (isSubmitting s) (isAnonymous s)
    (replyingToCommentId s) (isAdmin s) (replyInputs s).
Definition setIsAdmin (v : bool) (s : State) : State :=
  mkState (comments s) (isLoading s) (newComment s) (isSubmitting s)
    (isAnonymous s) (replyingToCommentId s) v (replyInputs s).

(** [s.includes(sub)] *)
Fixpoint includes (s sub : string) : bool :=
  startsWith s sub ||
  match s with
  | String _ s' => includes s' sub
  | EmptyString => false
  end.

(** The [.eq] filter [loadInitialComments] puts on its query. *)
Inductive Filter :=
| ByCategory (categoryId : Z)
| ByItem (itemId : Z)
| Unfiltered.

Definition commentFilter (props : Props) : Filter :=
  if truthy (categoryId props)
  then from_option ByCategory Unfiltered (categoryId props)
  else if truthy (itemId props)
       then from_option ByItem Unfiltered (itemId props)
       else Unfiltered.

(** The error of a table query; [checkAdminStatus] reads its code. *)
Record PostgrestError := mkPostgrestError {
  code : string;
  message : string
}.

(** Calls to the environment.  [GetSession] answers with
    [session?.user?.id] and the error, [SelectRole] with the [role] of the
    profile row and the error, [SelectComments] and [DeleteComment] with
    [{ data, error }], the error by its message. *)
Inductive Call : Type → Type :=
| WindowConfirm (question : string) : Call bool
| Alert (text : string) : Call unit
| ConsoleLog (text : string) : Call unit
| ConsoleWarn (text : string) : Call unit
| ConsoleError (text : string) : Call unit
| GetSession : Call (option string * option string)
| SelectRole (userId : string) : Call (option string * option PostgrestError)
| SelectComments (filter : Filter) (limit : Z) : Call (option (list DbComment) * option string)
| DeleteComment (commentId : Z) : Call (option string).

Definition checkAdminStatus (st : State) : Free Call State :=
  let st := setIsAdmin false st in
  '(userId, sessionError) ← call GetSession;
  match sessionError with
  | Some _ =>
      call (ConsoleError "[Admin Check] Error checking admin status:");;
      mret (setIsAdmin false st)
  | None =>
      match userId with
      | Some userId =>
          if nonEmpty userId then
            call (ConsoleLog ("[Admin Check] Checking role for user ID: " +:+ userId));;
            '(profileData, profileError) ← call (SelectRole userId);
            match profileError with
            | Some profileError =>
                (if String.eqb (code profileError) "PGRST116"
                 then call (ConsoleWarn ("[Admin Check] Profile not found for user ID: " +:+ userId))
                 else call (ConsoleError "[Admin Check] Error fetching profile:"));;
                mret st
            | None =>
                match profileData with
                | Some userRole =>
                    let isAdminUser := String.eqb userRole "admin" in
                    let st := setIsAdmin isAdminUser st in
                    call (ConsoleLog ("[Admin Check] Fetched Role: " +:+ userRole
                                      +:+ ", Is Admin: "
                                      +:+ (if isAdminUser then "true" else "false")));;
                    mret st
                | None =>
                    call (ConsoleLog "[Admin Check] No profile data returned, assuming not admin.");;
                    mret st
                end
            end
          else
            call (ConsoleLog "[Admin Check] No user session found.");;
            mret st
      | None =>
          call (ConsoleLog "[Admin Check] No user session found.");;
          mret st
      end
  end.

Definition loadInitialComments (props : Props) (st : State) : Free Call State :=
  call (ConsoleLog "loadInitialComments called");;
  let st := setIsLoading true st in
  '(data, error) ← call (SelectComments (commentFilter props) 100);
  st ← match error with
       | Some _ =>
           call (ConsoleError "Error loading comments:");;
           mret (setComments ([], ∅) st)
       | None =>
           call (ConsoleLog ("loadInitialComments received "
                             +:+ pretty (length (default [] data))
                             +:+ " comments."));;
           match data with
           | Some data => mret (setComments (buildCommentThreads data) st)
           | None => mret (setComments ([], ∅) st)
           end
       end;
  let st := setIsLoading false st in
  call (ConsoleLog "loadInitialComments finished.");;
  mret st.

Definition handleDeleteComment (props : Props) (commentId : Z) (st : State) : Free Call State :=
  confirmed ← call (WindowConfirm "Are you sure you want to delete this comment and all its replies? This action cannot be undone.");
  if confirmed : bool then
    call (ConsoleLog ("[Delete] Attempting to delete comment ID: " +:+ pretty commentId));;
    let st := setIsLoading true st in
    error ← call (DeleteComment commentId);
    st ← match error with
         | Some message =>
             call (ConsoleError "[Delete] Supabase error:");;
             (if includes message "security policy"
              then call (Alert "Error: You do not have permission to delete this comment.")
              else call (Alert ("Failed to delete comment: " +:+ message)));;
             call (ConsoleError "[Delete] General error:");;
             mret st
         | None =>
             call (ConsoleLog ("[Delete] Successfully deleted comment ID: "
                               +:+ pretty commentId +:+ " from DB."));;
             st ← loadInitialComments props st;
             call (ConsoleLog "[Delete] Reloaded comments after deletion.");;
             mret st
         end;
    mret (setIsLoading false st)
  else mret st.

(** Observations on a trace. *)
Definition confirmAnswer (ev : Event Call) : option bool :=
  match ev with
  | Ev e r =>
      match e in Call R return R → option bool with
      | WindowConfirm _ => λ r, Some r
      | _ => λ _, None
      end r
  end.

Definition confirmed (trace : list (Event Call)) : bool :=
  bool_decide (head trace ≫= confirmAnswer = Some true).

Definition alertText (ev : Event Call) : option string :=
  match ev with
  | Ev e _ =>
      match e with
      | Alert text => Some text
      | _ => None
      end
  end.

Definition sessionAnswer (ev : Event Call) : option (option string * option string) :=
  match ev with
  | Ev e r =>
      match e in Call R return R → option (option string * option string) with
      | GetSession => λ r, Some r
      | _ => λ _, None
      end r
  end.

(** A query for a role, with the role found and the code of the error. *)
Definition roleAnswer (ev : Event Call) : option (string * option string * option string) :=
  match ev with
  | Ev e r =>
      match e in Call R return R → option (string * option string * option string) with
      | SelectRole userId => λ r, Some (userId, r.1, code <$> r.2)
      | _ => λ _, None
      end r
  end.

(** A query for comments, with its filter, its limit and the answer. *)
Definition selectAnswer (ev : Event Call) : option (Filter * Z * option (list DbComment) * option string) :=
  match ev with
  | Ev e r =>
      match e in Call R return R → option (Filter * Z * option (list DbComment) * option string) with
      | SelectComments filter limit => λ r, Some (filter, limit, r.1, r.2)
      | _ => λ _, None
      end r
  end.

(** A row delete, with the answer. *)
Definition deleteAnswer (ev : Event Call) : option (Z * option string) :=
  match ev with
  | Ev e r =>
      match e in Call R return R → option (Z * option string) with
      | DeleteComment commentId => λ r, Some (commentId, r)
      | _ => λ _, None
      end r
  end.

(** What [loadInitialComments] shows for an answer. *)
Definition loaded (data : option (list DbComment)) (error : option string) : list Z * Heap :=
  match error, data with
  | None, Some data => buildCommentThreads data
  | _, _ => ([], ∅)
  end.

(** The alert of [handleDeleteComment] for an error. *)
Definition deleteAlert (message : string) : string :=
  if includes message "security policy"
  then "Error: You do not have permission to delete this comment."
  else "Failed to delete comment: " +:+ message.

(** *** Sample data *)

(** A backend with a logged-in administrator, which deletes what it is
    asked to and then has one comment left. *)
Definition moderating (R : Type) (e : Call R) : R :=
  match e with
  | WindowConfirm _ => true
  | Alert _ | ConsoleLog _ | ConsoleWarn _ | ConsoleError _ => ()
  | GetSession => (Some "user-1", None)
  | SelectRole _ => (Some "admin", None)
  | SelectComments _ _ => (Some [keyed blank 1 None 10], None)
  | DeleteComment _ => None
  end.

(** A backend that refuses to delete. *)
Definition refusing (R : Type) (e : Call R) : R :=
  match e with
  | WindowConfirm _ => true
  | Alert _ | ConsoleLog _ | ConsoleWarn _ | ConsoleError _ => ()
  | GetSession => (Some "user-2", None)
  | SelectRole _ => (Some "user", None)
  | SelectComments _ _ => (None, Some "timeout")
  | DeleteComment _ =>
      Some "new row violates row-level security policy for table comments"
  end.

End CommentModeration.

(** ** Handlers that call the handlers of another module *)

Module Embedding.
Import Effects.

(** A handler over the calls [E], run where the calls are [F]. *)
Fixpoint lift {E F : Type → Type} {A} (f : ∀ R, E R → F R) (p : Free E A) : Free F A :=
  match p with
  | Ret a => Ret a
  | Vis e k => Vis (f _ e) (λ r, lift f (k r))
  end.

Definition liftEvent {E F : Type → Type} (f : ∀ R, E R → F R) (ev : Event E) : Event F :=
  match ev with
  | Ev e r => Ev (f _ e) r
  end.

End Embedding.

(** ** [AdminImagesManager]: uploading *)

Module ImageUpload.
Import JS Effects Embedding.

(** A [File] of the file input; only its name is read. *)
Record File := mkFile { name : string }.

(** The cells of [AdminImagesManager.State], the two cells of the upload,
    and the value of the file input. *)
Record State := mkState {
  manager : AdminImagesManager.State;
  uploading : bool;
  uploadProgress : Z;
  inputValue : string
}.

Definition setManager (v : AdminImagesManager.State) (s : State) : State :=
  mkState v (uploading s) (uploadProgress s) (inputValue s).
Definition setUploading (v : bool) (s : State) : State :=
  mkState (manager s) v (uploadProgress s) (inputValue s).
Definition setUploadProgress (v : Z) (s : State) : State :=
  mkState (manager s) (uploading s) v (inputValue s).
Definition setInputValue (v : string) (s : State) : State :=
  mkState (manager s) (uploading s) (uploadProgress s) v.
Definition setError (v : option string) (s : State) : State :=
  setManager (AdminImagesManager.setError v (manager s)) s.

(** The calls of [AdminImagesManager], and those of the upload.
    [RandomName] is [Math.random().toString(36).substring(2, 15)];
    [StorageGetPublicUrl] answers with [data.publicUrl]. *)
Inductive Call : Type → Type :=
| Manager {R : Type} (c : AdminImagesManager.Call R) : Call R
| RandomName : Call string
| StorageUpload (bucket path : string) (file : File) : Call (option string)
| StorageGetPublicUrl (bucket path : string) : Call string
| InsertImage (url : string) (category_id : Z) (type : string) (item_id : option Z) : Call (option string).

Definition filePathOf (type : string) (categoryId : Z) (fileName : string) (file : File) : string :=
  type +:+ "/" +:+ pretty categoryId +:+ "/" +:+ fileName +:+ "."
    +:+ pop (split "." (name file)).

Section with_round.
(** [Math.round((completedUploads / files.length) * 100)] *)
Context (percent : nat → nat → Z).

(** The [for] loop of [handleFileChange], from the file it has reached. *)
Fixpoint uploadFiles (type : string) (categoryId : Z) (total : nat) (files : list File) (completedUploads : nat) (st : State) : Free Call (Outcome State) :=
  match files with
  | [] => mret (Completed st)
  | file :: files =>
      fileName ← call RandomName;
      let filePath := filePathOf type categoryId fileName file in
      uploadError ← call (StorageUpload "images" filePath file);
      match uploadError with
      | Some message => mret (Threw st message)
      | None =>
          publicUrl ← call (StorageGetPublicUrl "images" filePath);
          insertError ← call (InsertImage publicUrl categoryId type None);
          match insertError with
          | Some message => mret (Threw st message)
          | None =>
              let completedUploads := S completedUploads in
              uploadFiles type categoryId total files completedUploads
                (setUploadProgress (percent completedUploads total) st)
          end
      end
  end.

Definition handleFileChange (files : list File) (st : State) : Free Call State :=
  let selectedCategoryId := AdminImagesManager.selectedCategoryId (manager st) in
  let selectedType := AdminImagesManager.selectedType (manager st) in
  match files, selectedCategoryId with
  | _ :: _, Some categoryId =>
      if truthy selectedCategoryId then
        let st := setError None (setUploadProgress 0 (setUploading true st)) in
        outcome ← uploadFiles selectedType categoryId (length files) files 0 st;
        st ← match outcome with
             | Completed st =>
                 loaded ← lift (@Manager)
                            (AdminImagesManager.loadImages selectedType
                               categoryId (manager st));
                 mret (setManager loaded st)
             | Threw st message =>
                 let st := setError (Some ("Upload failed: " +:+ message)) st in
                 call (Manager (AdminImagesManager.ConsoleError "Upload error:"));;
                 mret st
             end;
        mret (setInputValue EmptyString
                (setUploadProgress 0 (setUploading false st)))
      else mret (setError (Some "Please select a category before uploading.") st)
  | _, _ => mret (setError (Some "Please select a category before uploading.") st)
  end.

End with_round.

(** Observations on a trace: the file of an upload and the row of an
    insert that were answered without an error, the error of one that was
    not, the reload, and whether a call deletes something. *)
Definition uploadedFile (ev : Event Call) : option File :=
  match ev with
  | Ev e r =>
      match e in Call R return R → option File with
      | StorageUpload _ _ file =>
          λ r, match r with None => Some file | Some _ => None end
      | _ => λ _, None
      end r
  end.

Definition insertedRow (ev : Event Call) : option (string * Z * string * option Z) :=
  match ev with
  | Ev e r =>
      match e in Call R return R → option (string * Z * string * option Z) with
      | InsertImage url category_id type item_id =>
          λ r, match r with
               | None => Some (url, category_id, type, item_id)
               | Some _ => None
               end
      | _ => λ _, None
      end r
  end.

Definition failure (ev : Event Call) : option string :=
  match ev with
  | Ev e r =>
      match e in Call R return R → option string with
      | StorageUpload _ _ _ => λ r, r
      | InsertImage _ _ _ _ => λ r, r
      | _ => λ _, None
      end r
  end.

Definition reload (ev : Event Call) : option (string * Z) :=
  match ev with
  | Ev e _ =>
      match e with
      | Manager (AdminImagesManager.FetchImages type categoryId) =>
          Some (type, categoryId)
      | _ => None
      end
  end.

Definition deletes (ev : Event Call) : bool :=
  match ev with
  | Ev e _ =>
      match e with
      | Manager (AdminImagesManager.StorageRemove _ _)
      | Manager (AdminImagesManager.DeleteImageRow _) => true
      | _ => false
      end
  end.

Definition isInsert (ev : Event Call) : bool :=
  match ev with
  | Ev e _ =>
      match e with
      | InsertImage _ _ _ _ => true
      | _ => false
      end
  end.

(** The calls of one passage through the loop that goes well. *)
Definition passage (type : string) (categoryId : Z) (round : File * string * string) : list (Event Call) :=
  let '(file, fileName, publicUrl) := round in
  let filePath := filePathOf type categoryId fileName file in
  [Ev RandomName fileName;
   Ev (StorageUpload "images" filePath file) None;
   Ev (StorageGetPublicUrl "images" filePath) publicUrl;
   Ev (InsertImage publicUrl categoryId type None) None].

(** *** Sample data *)

(** A rounding of the progress, for examples: the integer nearest to the
    percentage, halves upwards. *)
Definition percentOf (completed total : nat) : Z :=
  (200 * Z.of_nat completed + Z.of_nat total) `div` (2 * Z.of_nat total).

(** A storage that takes every file, and a table that refuses rows for
    the object named [refused]. *)
Definition refusingRow (refused : string) (R : Type) (e : Call R) : R :=
  match e with
  | Manager c => AdminImagesManager.accepting _ c
  | RandomName => "k3j9x0"
  | StorageUpload _ _ _ => None
  | StorageGetPublicUrl bucket path =>
      "https://x.supabase.co" +:+ pathPrefix bucket +:+ path
  | InsertImage url _ _ _ =>
      if String.eqb url refused then Some "violates row-level security" else None
  end.

Definition choosing : State :=
  mkState AdminImagesManager.viewing false 0 "C:\fakepath\a.png".

End ImageUpload.

(** ** [AdminServicesManager]: deleting a service *)

Module ServiceDeletion.
Import JS Effects Embedding.

Record Service := mkService {
  id : Z;
  name : string;
  description : string;
  category_id : Z;
  category : option string;
  image_url : option string
}.

(** The cell of [AdminServicesManager.State] and the other cells
    [deleteService] and [loadServices] read or write. *)
Record State := mkState {
  manager : AdminServicesManager.State;
  services : list Service;
  selectedMainCategoryId : option Z;
  isLoading : bool
}.

Definition setManager (v : AdminServicesManager.State) (s : State) : State :=
  mkState v (services s) (selectedMainCategoryId s) (isLoading s).
Definition setServices (v : list Service) (s : State) : State :=
  mkState (manager s) v (selectedMainCategoryId s) (isLoading s).
Definition setIsLoading (v : bool) (s : State) : State :=
  mkState (manager s) (services s) (selectedMainCategoryId s) v.
Definition setError (v : option string) (s : State) : State :=
  setManager (AdminServicesManager.mkState v) s.
Definition error (s : State) : option string :=
  AdminServicesManager.error (manager s).

(** The calls of [deleteStoredImage], and those of [deleteService] and
    [loadServices]; [FetchServices] and [GetServicesByCategory] are the
    store's functions, the first answering with the message of the error it
    throws, if any. *)
Inductive Call : Type → Type :=
| Manager {R : Type} (c : AdminServicesManager.Call R) : Call R
| WindowConfirm (question : string) : Call bool
| DeleteServiceRow (id : Z) : Call (option string)
| FetchServices (categoryId : Z) : Call (option string)
| GetServicesByCategory (categoryId : Z) : Call (list Service).

Definition loadServices (mainCategoryId : Z) (st : State) : Free Call State :=
  let st := setServices [] (setError None (setIsLoading true st)) in
  thrown ← call (FetchServices mainCategoryId);
  st ← match thrown with
       | None =>
           found ← call (GetServicesByCategory mainCategoryId);
           mret (setServices found st)
       | Some message => mret (setServices [] (setError (Some message) st))
       end;
  mret (setIsLoading false st).

(** [services.find(s => s.id === id)?.image_url || null] *)
Definition imageUrlToDelete (id' : Z) (services : list Service) : option string :=
  match List.find (λ s, bool_decide (id s = id')) services ≫= image_url with
  | Some imageUrl => if nonEmpty imageUrl then Some imageUrl else None
  | None => None
  end.

Section with_URL.
Context (URL_pathname decodeURIComponent : string → Try string).

(** The [try] block of [deleteService]. *)
Definition removeService (id' : Z) (st : State) : Free Call (Outcome State) :=
  let imageUrlToDelete := imageUrlToDelete id' (services st) in
  dbError ← call (DeleteServiceRow id');
  match dbError with
  | Some message => mret (Threw st message)
  | None =>
      st ← match imageUrlToDelete with
           | Some imageUrl =>
               after ← lift (@Manager)
                         (AdminServicesManager.deleteStoredImage URL_pathname
                            decodeURIComponent (Some imageUrl) (manager st));
               mret (setManager after st)
           | None => mret st
           end;
      st ← match selectedMainCategoryId st with
           | Some categoryId =>
               if truthy (selectedMainCategoryId st)
               then loadServices categoryId st
               else mret st
           | None => mret st
           end;
      mret (Completed st)
  end.

Definition deleteService (id' : Z) (st : State) : Free Call State :=
  confirmed ← call (WindowConfirm "Are you sure you want to delete this service?");
  if confirmed : bool then
    let st := setError None (setIsLoading true st) in
    outcome ← removeService id' st;
    match outcome with
    | Completed st => mret (setIsLoading false st)
    | Threw st message =>
        let st := setError (Some ("Deletion failed: " +:+ message)) st in
        call (Manager (AdminServicesManager.ConsoleError "Deletion error:"));;
        mret (setIsLoading false st)
    end
  else mret st.

End with_URL.

(** Observations on a trace. *)
Definition confirmAnswer (ev : Event Call) : option bool :=
  match ev with
  | Ev e r =>
      match e in Call R return R → option bool with
      | WindowConfirm _ => λ r, Some r
      | _ => λ _, None
      end r
  end.

Definition confirmed (trace : list (Event Call)) : bool :=
  bool_decide (head trace ≫= confirmAnswer = Some true).

Definition rowDelete (ev : Event Call) : option (Z * option string) :=
  match ev with
  | Ev e r =>
      match e in Call R return R → option (Z * option string) with
      | DeleteServiceRow id => λ r, Some (id, r)
      | _ => λ _, None
      end r
  end.

Definition removeCall (ev : Event Call) : option (string * list string) :=
  match ev with
  | Ev e _ =>
      match e with
      | Manager (AdminServicesManager.StorageRemove bucket paths) =>
          Some (bucket, paths)
      | _ => None
      end
  end.

Definition reload (ev : Event Call) : option Z :=
  match ev with
  | Ev e _ =>
      match e with
      | FetchServices categoryId => Some categoryId
      | _ => None
      end
  end.

(** *** Sample data *)

Definition logoService : Service :=
  mkService 5 "Landing page" "A page" 2 (Some "Frontend & UI/UX")
    (Some "https://x.supabase.co/storage/v1/object/public/programminglistbuckets/my%20logo.png").

Definition plainService : Service :=
  mkService 6 "Audit" "A review" 2 (Some "Other") None.

Definition offering : State :=
  mkState AdminServicesManager.noError [plainService; logoService] (Some 2) false.

(** A backend that agrees to everything, and one that refuses to delete
    rows. *)
Definition accepting (R : Type) (e : Call R) : R :=
  match e with
  | Manager c => AdminServicesManager.accepting _ c
  | WindowConfirm _ => true
  | DeleteServiceRow _ => None
  | FetchServices _ => None
  | GetServicesByCategory _ => [plainService]
  end.

Definition refusingRow (R : Type) (e : Call R) : R :=
  match e with
  | Manager c => AdminServicesManager.accepting _ c
  | WindowConfirm _ => true
  | DeleteServiceRow _ => Some "violates foreign key constraint"
  | FetchServices _ => None
  | GetServicesByCategory _ => [plainService; logoService]
  end.

End ServiceDeletion.

(** * Properties *)

(** ** [Array.prototype.sort] *)

Module SortFacts.
Import JS.

Section sort.
Context {A : Type} (cmp : A → A → Z).

Lemma insert_sorted_Permutation x l : insert_sorted cmp x l ≡ₚ x :: l.
Proof.
  induction l as [|y l IH]; simpl; [done|].
  destruct (cmp x y <=? 0); [done|].
  rewrite IH. apply perm_swap.
Qed.

Lemma Array_sort_Permutation l : Array_sort cmp l ≡ₚ l.
Proof.
  induction l as [|x l IH]; simpl; [done|].
  rewrite insert_sorted_Permutation. by f_equiv.
Qed.

Lemma Array_sort_elem_of x l : x ∈ Array_sort cmp l ↔ x ∈ l.
Proof. by rewrite Array_sort_Permutation. Qed.

Lemma Array_sort_ext (cmp' : A → A → Z) l :
  (∀ a b, cmp a b = cmp' a b) → Array_sort cmp l = Array_sort cmp' l.
Proof.
  intros Hext. induction l as [|x l IH]; simpl; [done|].
  rewrite IH. generalize (Array_sort cmp' l). intros k.
  induction k as [|y k IHk]; simpl; [done|].
  by rewrite Hext, IHk.
Qed.
End sort.

(** A comparator of the shape [key b - key a] sorts by descending key. *)
Section by_key.
Context {A : Type} (key : A → Z).
Let cmp (a b : A) : Z := key b - key a.
Let desc (a b : A) : Prop := key b ≤ key a.

Lemma insert_sorted_HdRel a x l :
  desc a x → HdRel desc a l → HdRel desc a (insert_sorted cmp x l).
Proof.
  intros Hax Hl. destruct l as [|y l]; simpl; [by constructor|].
  destruct (cmp x y <=? 0); constructor; [done|].
  by inversion Hl.
Qed.

Lemma insert_sorted_Sorted x l :
  Sorted desc l → Sorted desc (insert_sorted cmp x l).
Proof.
  induction 1 as [|y l Hl IH Hhd]; simpl; [by repeat constructor|].
  destruct (Z.leb_spec (cmp x y) 0) as [Hle|Hgt].
  - constructor; [by constructor|]. constructor. unfold desc, cmp in *. lia.
  - constructor; [done|]. apply insert_sorted_HdRel; [|done].
    unfold desc, cmp in *. lia.
Qed.

Lemma Array_sort_Sorted l : Sorted desc (Array_sort cmp l).
Proof.
  induction l as [|x l IH]; simpl; [constructor|].
  by apply insert_sorted_Sorted.
Qed.

Lemma Array_sort_StronglySorted l : StronglySorted desc (Array_sort cmp l).
Proof.
  apply Sorted_StronglySorted; [|apply Array_sort_Sorted].
  intros a b c. unfold desc. lia.
Qed.
End by_key.

End SortFacts.

(** ** Thread assembly *)

Module ThreadFacts.
Import JS CommentList SortFacts.

(** *** First pass *)

Lemma indexComments_snoc comments c :
  indexComments (comments ++ [c]) =
  <[id c := mkComment c []]> (indexComments comments).
Proof. unfold indexComments. by rewrite foldl_app. Qed.

(** Every stored object was built from an input comment with that id and
    starts with no reply. *)
Lemma indexComments_lookup_Some comments k nd :
  indexComments comments !! k = Some nd →
  replies nd = [] ∧ id (fields nd) = k ∧ fields nd ∈ comments.
Proof.
  revert nd. induction comments as [|c comments IH] using rev_ind; intros nd.
  - unfold indexComments. simpl. by rewrite lookup_empty.
  - rewrite indexComments_snoc, lookup_insert.
    case_decide as Hk; intros Hnd.
    + simplify_eq. simpl. split_and!; [done..|]. set_solver.
    + destruct (IH _ Hnd) as (?&?&?). split_and!; [done..|]. set_solver.
Qed.

Lemma indexComments_is_Some comments k :
  is_Some (indexComments comments !! k) ↔ k ∈ id <$> comments.
Proof.
  induction comments as [|c comments IH] using rev_ind.
  - unfold indexComments. simpl. rewrite lookup_empty, is_Some_alt. set_solver.
  - rewrite indexComments_snoc, lookup_insert_is_Some, IH, fmap_app.
    destruct (decide (id c = k)); set_solver.
Qed.

Lemma indexComments_lookup_distinct comments c :
  distinctIds comments → c ∈ comments →
  indexComments comments !! id c = Some (mkComment c []).
Proof.
  unfold distinctIds.
  induction comments as [|c' comments IH] using rev_ind; [set_solver|].
  rewrite fmap_app, NoDup_app. simpl. intros (Hnd & Hdisj & _) Hc.
  rewrite indexComments_snoc, lookup_insert. case_decide as Hk.
  - apply elem_of_app in Hc as [Hc|Hc]; [|set_solver].
    exfalso. apply (Hdisj (id c)); [by apply list_elem_of_fmap_2|].
    rewrite Hk. set_solver.
  - apply IH; [done|]. set_solver.
Qed.

(** *** Second pass *)

Lemma resolvedParent_dom (m m' : Heap) c :
  (∀ k, is_Some (m !! k) ↔ is_Some (m' !! k)) →
  resolvedParent m c = resolvedParent m' c.
Proof.
  intros Hdom. unfold resolvedParent.
  destruct (parent_comment_id c) as [p|]; [|done].
  by rewrite (bool_decide_ext _ _ (Hdom p)).
Qed.

Lemma resolvedParent_Some m c p :
  resolvedParent m c = Some p ↔
  parent_comment_id c = Some p ∧ p ≠ 0 ∧ is_Some (m !! p).
Proof.
  unfold resolvedParent, truthy.
  destruct (parent_comment_id c) as [q|]; [|naive_solver].
  destruct (Z.eqb_spec q 0); simpl.
  - naive_solver.
  - case_bool_decide; naive_solver.
Qed.

Lemma resolvedParent_None m c :
  resolvedParent m c = None ↔
  parent_comment_id c = None ∨ parent_comment_id c = Some 0 ∨
  ∃ p, parent_comment_id c = Some p ∧ m !! p = None.
Proof.
  unfold resolvedParent, truthy.
  destruct (parent_comment_id c) as [q|]; [|naive_solver].
  destruct (Z.eqb_spec q 0); simpl; [naive_solver|].
  case_bool_decide as Hq; [|apply eq_None_not_Some in Hq]; split; try naive_solver.
  intros [?|[?|(p&?&Hp)]]; simplify_eq. rewrite Hp in Hq. by destruct Hq.
Qed.

Lemma rootsOf_dom (m m' : Heap) comments :
  (∀ k, is_Some (m !! k) ↔ is_Some (m' !! k)) →
  rootsOf m comments = rootsOf m' comments.
Proof.
  intros Hdom. unfold rootsOf. f_equal. apply list_filter_iff. intros c.
  by rewrite (resolvedParent_dom m m').
Qed.

Lemma childrenOf_dom (m m' : Heap) k comments :
  (∀ k, is_Some (m !! k) ↔ is_Some (m' !! k)) →
  childrenOf m k comments = childrenOf m' k comments.
Proof.
  intros Hdom. unfold childrenOf. f_equal. apply list_filter_iff. intros c.
  by rewrite (resolvedParent_dom m m').
Qed.

Lemma rootsOf_cons m c comments :
  rootsOf m (c :: comments) =
  (if decide (resolvedParent m c = None) then [id c] else []) ++ rootsOf m comments.
Proof. unfold rootsOf. rewrite filter_cons. by case_decide. Qed.

Lemma childrenOf_cons m k c comments :
  childrenOf m k (c :: comments) =
  (if decide (resolvedParent m c = Some k) then [id c] else [])
    ++ childrenOf m k comments.
Proof. unfold childrenOf. rewrite filter_cons. by case_decide. Qed.

Lemma foldl_nest comments (m : Heap) (roots : list Z) :
  (foldl nest (m, roots) comments).2 = roots ++ rootsOf m comments ∧
  ∀ k, (foldl nest (m, roots) comments).1 !! k =
       addReplies (childrenOf m k comments) <$> m !! k.
Proof.
  revert m roots. induction comments as [|c comments IH]; intros m roots.
  - simpl. split; [by rewrite app_nil_r|]. intros k.
    unfold childrenOf, addReplies. simpl.
    destruct (m !! k) as [[]|]; simpl; [|done]. by rewrite app_nil_r.
  - cbn [foldl]. unfold nest at 2 4. cbn beta iota.
    rewrite rootsOf_cons. setoid_rewrite childrenOf_cons.
    destruct (resolvedParent m c) as [p|] eqn:Hp.
    + set (m' := alter _ p m).
      assert (Hdom : ∀ k, is_Some (m' !! k) ↔ is_Some (m !! k)).
      { intros k. unfold m'. rewrite lookup_alter. case_decide; [|done].
        subst. by rewrite fmap_is_Some. }
      destruct (IH m' roots) as [IHr IHm]. split.
      * rewrite IHr, (rootsOf_dom m' m) by done. by rewrite decide_False.
      * intros k. rewrite IHm, (childrenOf_dom m' m) by done. unfold m'.
        rewrite lookup_alter. case_decide as Hk.
        -- subst k. rewrite decide_True by done.
           destruct (m !! p) as [[]|]; simpl; [|done].
           unfold addReplies, push. simpl. by rewrite <-app_assoc.
        -- rewrite decide_False by congruence. done.
    + destruct (IH m (push (id c) roots)) as [IHr IHm]. split.
      * rewrite IHr, decide_True by done. unfold push. by rewrite <-app_assoc.
      * intros k. rewrite IHm. by rewrite decide_False.
Qed.

(** *** The result of [buildCommentThreads] *)

Lemma getTime_foldl_nest comments m roots k :
  getTime (foldl nest (m, roots) comments).1 k = getTime m k.
Proof.
  unfold getTime. rewrite (proj2 (foldl_nest comments m roots) k).
  by destruct (m !! k).
Qed.

Lemma buildCommentThreads_roots comments :
  (buildCommentThreads comments).1 =
  Array_sort (sortByDate (indexComments comments))
    (rootsOf (indexComments comments) comments).
Proof.
  unfold buildCommentThreads.
  pose proof (foldl_nest comments (indexComments comments) []) as [Hr _].
  pose proof (getTime_foldl_nest comments (indexComments comments) []) as Ht.
  destruct (foldl nest _ comments) as [m2 roots]. simpl in *. subst roots.
  apply Array_sort_ext. intros a b. unfold sortByDate. by rewrite !Ht.
Qed.

Lemma buildCommentThreads_lookup comments k :
  (buildCommentThreads comments).2 !! k =
  (λ nd, mkComment (fields nd)
           (Array_sort (sortByDate (indexComments comments))
              (childrenOf (indexComments comments) k comments)))
    <$> indexComments comments !! k.
Proof.
  unfold buildCommentThreads.
  pose proof (foldl_nest comments (indexComments comments) []) as [_ Hm].
  pose proof (getTime_foldl_nest comments (indexComments comments) []) as Ht.
  destruct (foldl nest _ comments) as [m2 roots]. simpl in *.
  rewrite lookup_fmap, Hm.
  destruct (indexComments comments !! k) as [nd|] eqn:Hk; simpl; [|done].
  apply indexComments_lookup_Some in Hk as (Hrs & _ & _).
  rewrite Hrs. simpl. do 2 f_equal.
  apply Array_sort_ext. intros a b. unfold sortByDate. by rewrite !Ht.
Qed.

(** *** Flattening, level by level *)

Lemma flattenAll_app fuel heap ks1 ks2 :
  flattenAll fuel heap (ks1 ++ ks2) =
  flattenAll fuel heap ks1 ++ flattenAll fuel heap ks2.
Proof. unfold flattenAll. apply bind_app. Qed.

Lemma flattenAll_0 heap ks : flattenAll 0 heap ks = [].
Proof. unfold flattenAll. induction ks as [|k ks IH]; csimpl; by rewrite ?IH. Qed.

#[local] Instance flattenAll_Permutation fuel heap :
  Proper ((≡ₚ) ==> (≡ₚ)) (flattenAll fuel heap).
Proof. intros ks1 ks2 Hks. unfold flattenAll. by rewrite Hks. Qed.

(** One round of [flatten] emits the threads themselves and goes on with
    their replies. *)
Lemma flattenAll_S fuel (heap : Heap) ks :
  flattenAll (S fuel) heap ks ≡ₚ
  omap (λ k, fields <$> heap !! k) ks ++
  flattenAll fuel heap (ks ≫= λ k, default [] (replies <$> heap !! k)).
Proof.
  induction ks as [|k ks IH]; [done|].
  change (flattenAll (S fuel) heap (k :: ks))
    with (flatten (S fuel) heap k ++ flattenAll (S fuel) heap ks).
  rewrite bind_cons, flattenAll_app, IH. csimpl.
  destruct (heap !! k) as [nd|]; csimpl; [|done].
  fold (flattenAll fuel heap (replies nd)).
  f_equiv. rewrite !app_assoc. f_equiv. apply Permutation_app_comm.
Qed.

Lemma omap_fmap_Some {A B} (f : B → option A) (g : A → B) (l : list A) :
  (∀ x, x ∈ l → f (g x) = Some x) → omap f (g <$> l) = l.
Proof.
  induction l as [|x l IH]; intros Hf; csimpl; [done|].
  rewrite Hf by set_solver. simpl. rewrite IH; [done|]. set_solver.
Qed.

Lemma bind_Permutation_ext {A B} (f g : A → list B) (l : list A) :
  (∀ x, x ∈ l → f x ≡ₚ g x) → l ≫= f ≡ₚ l ≫= g.
Proof.
  induction l as [|x l IH]; intros Hfg; csimpl; [done|].
  rewrite Hfg by set_solver. f_equiv. apply IH. set_solver.
Qed.

Lemma fmap_bind_list {A B C} (f : B → C) (g : A → list B) (l : list A) :
  f <$> (l ≫= g) = l ≫= (λ x, f <$> g x).
Proof.
  induction l as [|x l IH]; csimpl; [done|]. by rewrite fmap_app, IH.
Qed.

Section levels.
Context (comments : list DbComment).
Context (Hdistinct : distinctIds comments) (Hends : parentLinksEnd comments).

#[local] Abbreviation depthOf := (CommentList.depthOf comments).
#[local] Abbreviation level := (CommentList.level comments).

Lemma comments_NoDup : NoDup comments.
Proof. by apply (NoDup_fmap_1 id). Qed.

Lemma comments_id_inj c1 c2 :
  c1 ∈ comments → c2 ∈ comments → id c1 = id c2 → c1 = c2.
Proof.
  intros H1 H2 Hid.
  pose proof (indexComments_lookup_distinct _ _ Hdistinct H1) as E1.
  pose proof (indexComments_lookup_distinct _ _ Hdistinct H2) as E2.
  rewrite Hid in E1. congruence.
Qed.

Lemma depth_mono fuel fuel' k d :
  depth comments fuel k = Some d → (fuel ≤ fuel')%nat →
  depth comments fuel' k = Some d.
Proof.
  revert fuel' k d. induction fuel as [|fuel IH]; intros fuel' k d; [done|].
  intros Hd Hle. destruct fuel' as [|fuel']; [lia|]. simpl in *.
  destruct (indexComments comments !! k) as [nd|]; simpl in *; [|done].
  destruct (resolvedParent _ (fields nd)) as [p|]; [|done].
  destruct (depth comments fuel p) as [d'|] eqn:Hp; simplify_eq/=.
  by rewrite (IH fuel' p d') by (done || lia).
Qed.

Lemma depthOf_unfold c :
  c ∈ comments →
  depthOf c =
  match resolvedParent (indexComments comments) c with
  | None => Some O
  | Some p => S <$> depth comments (pred (length comments)) p
  end.
Proof.
  intros Hc. unfold depthOf.
  destruct comments as [|c0 cs] eqn:E; [by apply elem_of_nil in Hc|].
  rewrite <-E in *. replace (length comments) with (S (length cs)) by by rewrite E.
  cbn [depth pred]. by rewrite (indexComments_lookup_distinct _ _ Hdistinct Hc).
Qed.

Lemma depthOf_0 c :
  c ∈ comments →
  depthOf c = Some O ↔ resolvedParent (indexComments comments) c = None.
Proof.
  intros Hc. rewrite (depthOf_unfold c Hc).
  destruct (resolvedParent _ c); [|done].
  by destruct (depth comments _ _).
Qed.

Lemma depthOf_S x d :
  x ∈ comments →
  depthOf x = Some (S d) ↔
  ∃ c, c ∈ comments ∧ depthOf c = Some d ∧
       resolvedParent (indexComments comments) x = Some (id c).
Proof.
  intros Hx. rewrite (depthOf_unfold x Hx). split.
  - destruct (resolvedParent _ x) as [p|] eqn:Hp; [|done].
    destruct (depth comments _ p) as [d'|] eqn:Hd'; intros; simplify_eq/=.
    apply resolvedParent_Some in Hp as (_ & _ & [nd Hnd]).
    destruct (indexComments_lookup_Some _ _ _ Hnd) as (_ & Hid & Hin).
    exists (fields nd). split_and!; [done| |by rewrite Hid].
    unfold depthOf. rewrite Hid. eapply depth_mono; [done|lia].
  - intros (c & Hc & Hdc & Hrp). rewrite Hrp.
    destruct (Hends x Hx) as [dx Hdx]. fold (depthOf x) in Hdx.
    rewrite (depthOf_unfold x Hx), Hrp in Hdx.
    destruct (depth comments _ (id c)) as [d'|] eqn:Hd'; simplify_eq/=.
    apply (depth_mono _ (length comments)) in Hd'; [|lia].
    unfold depthOf in Hdc. congruence.
Qed.

Lemma depth_lt fuel k d : depth comments fuel k = Some d → (d < fuel)%nat.
Proof.
  revert k d. induction fuel as [|fuel IH]; intros k d; [done|]. simpl.
  destruct (indexComments comments !! k) as [nd|]; simpl; [|done].
  destruct (resolvedParent _ (fields nd)) as [p|]; [|intros; simplify_eq; lia].
  destruct (depth comments fuel p) as [d'|] eqn:Hp; intros; simplify_eq/=.
  apply IH in Hp. lia.
Qed.

Lemma level_NoDup d : NoDup (level d).
Proof. apply NoDup_filter, comments_NoDup. Qed.

Lemma elem_of_level d c : c ∈ level d ↔ depthOf c = Some d ∧ c ∈ comments.
Proof. unfold level. by rewrite list_elem_of_filter. Qed.

Lemma rootsOf_level :
  rootsOf (indexComments comments) comments ≡ₚ id <$> level 0.
Proof.
  unfold rootsOf. f_equiv.
  apply NoDup_Permutation; [apply NoDup_filter, comments_NoDup|apply level_NoDup|].
  intros c. rewrite elem_of_level, list_elem_of_filter.
  split; intros [? Hc]; (split; [by apply (depthOf_0 c Hc)|done]).
Qed.

Lemma children_level d :
  level d ≫= (λ c, childrenOf (indexComments comments) (id c) comments)
  ≡ₚ id <$> level (S d).
Proof.
  unfold childrenOf. rewrite <-fmap_bind_list. f_equiv.
  apply NoDup_Permutation; [|apply level_NoDup|].
  - apply NoDup_bind; [| |apply level_NoDup].
    + intros c1 c2 y [_ H1]%elem_of_level [_ H2]%elem_of_level.
      rewrite !list_elem_of_filter. intros [E1 _] [E2 _].
      apply comments_id_inj; [done..|congruence].
    + intros c _. apply NoDup_filter, comments_NoDup.
  - intros y. rewrite list_elem_of_bind, elem_of_level. split.
    + intros (c & [Hy Hin]%list_elem_of_filter & [Hc Hcin]%elem_of_level).
      split; [|done]. apply (depthOf_S y d Hin). eauto.
    + intros [Hy Hin]. apply (depthOf_S y d Hin) in Hy as (c & Hc & Hdc & Hrp).
      exists c. rewrite list_elem_of_filter, elem_of_level. eauto.
Qed.

Lemma comments_levels fuel :
  (length comments ≤ fuel)%nat → comments ≡ₚ seq 0 fuel ≫= level.
Proof.
  intros Hfuel. apply NoDup_Permutation; [apply comments_NoDup| |].
  - apply NoDup_bind; [| |apply NoDup_seq].
    + intros d1 d2 y _ _ [H1 _]%elem_of_level [H2 _]%elem_of_level. congruence.
    + intros d _. apply level_NoDup.
  - intros c. rewrite list_elem_of_bind. split.
    + intros Hc. destruct (Hends c Hc) as [d Hd]. exists d.
      rewrite elem_of_level, elem_of_seq. split_and!; [done..|lia|].
      apply depth_lt in Hd. lia.
    + by intros (d & [_ ?]%elem_of_level & _).
Qed.

(** The heap object of an input comment. *)
Lemma heap_lookup c :
  c ∈ comments →
  (buildCommentThreads comments).2 !! id c =
  Some (mkComment c
          (Array_sort (sortByDate (indexComments comments))
             (childrenOf (indexComments comments) (id c) comments))).
Proof.
  intros Hc. rewrite buildCommentThreads_lookup.
  by rewrite (indexComments_lookup_distinct _ _ Hdistinct Hc).
Qed.

Lemma flattenAll_levels fuel d ks :
  ks ≡ₚ id <$> level d →
  flattenAll fuel (buildCommentThreads comments).2 ks ≡ₚ seq d fuel ≫= level.
Proof.
  revert d ks. induction fuel as [|fuel IH]; intros d ks Hks.
  - by rewrite flattenAll_0.
  - rewrite flattenAll_S. cbn [seq]. rewrite bind_cons. f_equiv.
    + rewrite Hks. rewrite omap_fmap_Some; [done|].
      intros c [_ Hc]%elem_of_level. by rewrite (heap_lookup c Hc).
    + apply IH. rewrite Hks, list_fmap_bind, <-children_level.
      apply bind_Permutation_ext. intros c [_ Hc]%elem_of_level. simpl.
      rewrite (heap_lookup c Hc). simpl. apply Array_sort_Permutation.
Qed.

Lemma flattenAll_buildCommentThreads fuel :
  (length comments ≤ fuel)%nat →
  flattenAll fuel (buildCommentThreads comments).2
    (buildCommentThreads comments).1 ≡ₚ comments.
Proof.
  intros Hfuel. rewrite (flattenAll_levels fuel 0).
  - symmetry. by apply comments_levels.
  - rewrite buildCommentThreads_roots, Array_sort_Permutation.
    apply rootsOf_level.
Qed.

End levels.

(** The parent links end at a root whenever every comment comes after the
    comment it replies to, as in a list ordered by creation, or in the
    output of [flatten]. *)
Lemma parents_first_parentLinksEnd comments :
  distinctIds comments →
  (∀ i c p, comments !! i = Some c →
            resolvedParent (indexComments comments) c = Some p →
            ∃ j d, (j < i)%nat ∧ comments !! j = Some d ∧ id d = p) →
  parentLinksEnd comments.
Proof.
  intros Hdistinct Hfirst.
  assert (Hdepth : ∀ i c, comments !! i = Some c →
                          is_Some (depth comments (S i) (id c))).
  { intros i. induction i as [i IH] using lt_wf_ind. intros c Hc.
    cbn [depth].
    rewrite (indexComments_lookup_distinct comments c Hdistinct)
      by (by eapply list_elem_of_lookup_2).
    simpl. destruct (resolvedParent _ c) as [p|] eqn:Hp; [|by eexists].
    destruct (Hfirst i c p Hc Hp) as (j & d & Hj & Hd & <-).
    destruct (IH j Hj d Hd) as [n Hn].
    rewrite (depth_mono comments (S j) i (id d) n) by (done || lia).
    by eexists. }
  intros c [i Hi]%list_elem_of_lookup_1.
  destruct (Hdepth i c Hi) as [n Hn]. exists n.
  apply (depth_mono comments (S i)); [done|].
  apply lookup_lt_Some in Hi. lia.
Qed.

End ThreadFacts.

(** ** Claims about [buildCommentThreads] *)

Module ThreadClaims.
Import JS CommentList SortFacts ThreadFacts.

(** C1, as stated, fails: two comments that name each other as parent are
    both nested, so the returned forest is empty and both are lost; and when
    two comments share an id the later one takes both positions. *)
Lemma buildCommentThreads_loses_cycles_and_duplicates :
  (let comments := [keyed blank 1 (Some 2) 10; keyed blank 2 (Some 1) 20] in
   let '(roots, heap) := buildCommentThreads comments in
   roots = [] ∧ ∀ fuel, flattenAll fuel heap roots = []) ∧
  (let comments := [keyed blank 1 None 10; keyed blank 1 None 20] in
   let '(roots, heap) := buildCommentThreads comments in
   flattenAll 2 heap roots = [keyed blank 1 None 20; keyed blank 1 None 20]).
Proof.
  split.
  - split; [by vm_compute|]. intros fuel. by destruct fuel.
  - by vm_compute.
Qed.

(** C1 (amended): when the ids are pairwise distinct and every chain of
    parent links ends at a root, flattening the returned forest lists every
    input comment exactly once: the flattening is a duplicate-free
    rearrangement of the input, for every fuel that covers the input. *)
Theorem buildCommentThreads_partition comments fuel :
  distinctIds comments → parentLinksEnd comments →
  (length comments ≤ fuel)%nat →
  flattenAll fuel (buildCommentThreads comments).2
    (buildCommentThreads comments).1 ≡ₚ comments ∧
  NoDup (flattenAll fuel (buildCommentThreads comments).2
           (buildCommentThreads comments).1).
Proof.
  intros Hd He Hfuel.
  pose proof (flattenAll_buildCommentThreads comments Hd He fuel Hfuel) as Hp.
  split; [done|]. rewrite Hp. by apply comments_NoDup.
Qed.

Lemma buildCommentThreads_partition_witness :
  let comments :=
    [keyed blank 1 None 10; keyed blank 2 (Some 1) 20; keyed blank 3 None 30] in
  flattenAll 3 (buildCommentThreads comments).2
    (buildCommentThreads comments).1 ≡ₚ comments ∧
  NoDup (flattenAll 3 (buildCommentThreads comments).2
           (buildCommentThreads comments).1).
Proof.
  apply buildCommentThreads_partition.
  - unfold distinctIds. simpl. apply (bool_decide_unpack _). by vm_compute.
  - intros c Hc.
    repeat (apply elem_of_cons in Hc as [->|Hc];
            [apply (bool_decide_unpack _); by vm_compute|]).
    by apply elem_of_nil in Hc.
  - simpl. lia.
Defined.

(** C2, as stated, fails when two comments share an id: the first pass
    keeps one object per id, that of the later comment, so the earlier
    comment, though its parent id is null, is no root: both root references
    lead to the later comment, and the earlier one is nowhere in the
    forest. *)
Lemma duplicate_id_is_no_root :
  let a := keyed blank 1 None 10 in
  let b := keyed blank 1 None 20 in
  let comments := [a; b] in
  let result := buildCommentThreads comments in
  a ∈ comments ∧ parent_comment_id a = None ∧
  result = ([1; 1], {[ 1 := mkComment b [] ]}) ∧
  (∀ k, k ∈ result.1 → fields <$> result.2 !! k ≠ Some a) ∧
  (∀ node, inForest result node → fields node ≠ a) ∧
  ∀ fuel, a ∉ flattenAll fuel result.2 result.1.
Proof.
  intros a b comments result.
  assert (result = ([1; 1], {[ 1 := mkComment b [] ]})) as -> by by vm_compute.
  assert (∀ k (node : Comment),
            ({[ 1 := mkComment b [] ]} : Heap) !! k = Some node →
            fields node ≠ a) as Hheap.
  { intros k node [_ <-]%lookup_singleton_Some. done. }
  split_and!; [set_solver|done|done| | |].
  - intros k _. simpl. destruct (_ !! k) as [node|] eqn:Hk; [|done].
    simpl. intros [= Heq]. by apply (Hheap k node).
  - intros node Hnode. destruct Hnode as [k node _ Hk|parent k node _ _ Hk];
      by apply (Hheap k node).
  - intros fuel Hin. cbn [fst snd] in Hin. unfold flattenAll in Hin.
    apply list_elem_of_bind in Hin as (k & Hin & _).
    destruct fuel as [|fuel]; simpl in Hin; [by apply elem_of_nil in Hin|].
    destruct (_ !! k) as [node|] eqn:Hk; [|by apply elem_of_nil in Hin].
    apply lookup_singleton_Some in Hk as [<- <-]. simpl in Hin.
    by apply list_elem_of_singleton in Hin.
Qed.

(** C2 (amended): when the ids are pairwise distinct, a comment whose
    [parent_comment_id] is null, or is the id of no input comment, is a root
    of the returned forest: the returned array holds a reference to it. *)
Theorem unresolved_parent_is_root comments c :
  distinctIds comments →
  c ∈ comments →
  (parent_comment_id c = None ∨
   ∀ d, d ∈ comments → parent_comment_id c ≠ Some (id d)) →
  id c ∈ (buildCommentThreads comments).1 ∧
  fields <$> (buildCommentThreads comments).2 !! id c = Some c.
Proof.
  intros Hdist Hc Hparent. split.
  - rewrite buildCommentThreads_roots, Array_sort_elem_of. unfold rootsOf.
    apply list_elem_of_fmap_2, list_elem_of_filter. split; [|done].
    apply resolvedParent_None. destruct Hparent as [?|Hno]; [by left|].
    destruct (parent_comment_id c) as [p|]; [|by left]. do 2 right.
    exists p. split; [done|]. apply eq_None_not_Some.
    intros (d & -> & Hd)%indexComments_is_Some%list_elem_of_fmap.
    by apply (Hno d).
  - rewrite buildCommentThreads_lookup.
    by rewrite (indexComments_lookup_distinct _ _ Hdist Hc).
Qed.

Lemma unresolved_parent_is_root_witness :
  let comments := [keyed blank 1 None 10; keyed blank 2 (Some 7) 20] in
  let c := keyed blank 2 (Some 7) 20 in
  id c ∈ (buildCommentThreads comments).1 ∧
  fields <$> (buildCommentThreads comments).2 !! id c = Some c.
Proof.
  intros comments c. apply (unresolved_parent_is_root comments c).
  - apply (bool_decide_unpack _). by vm_compute.
  - set_solver.
  - right. intros d Hd.
    repeat (apply elem_of_cons in Hd as [->|Hd]; [by vm_compute|]).
    by apply elem_of_nil in Hd.
Defined.

(** C3, as stated, fails in three ways.  When the parent's id is 0, the
    guard of the second pass, which tests the parent id for truthiness,
    makes the reply a root.  When two comments share an id, the first pass
    keeps the later one only, so the earlier reply is not in its parent's
    [replies]: both references there lead to the later comment.  And when
    the parent lies on a cycle of parent links, the returned forest is empty
    and has no node for the parent. *)
Lemma reply_misses_parents_replies :
  (let d := keyed blank 0 None 10 in
   let c := keyed blank 5 (Some 0) 20 in
   let comments := [d; c] in
   c ∈ comments ∧ d ∈ comments ∧ c ≠ d ∧ parent_comment_id c = Some (id d) ∧
   (buildCommentThreads comments).1 = [id c; id d] ∧
   replies <$> (buildCommentThreads comments).2 !! id d = Some []) ∧
  (let d := keyed blank 1 None 10 in
   let c := keyed blank 2 (Some 1) 20 in
   let c' := keyed blank 2 (Some 1) 30 in
   let comments := [d; c; c'] in
   c ∈ comments ∧ d ∈ comments ∧ c ≠ d ∧ parent_comment_id c = Some (id d) ∧
   buildCommentThreads comments
   = ([1], {[ 1 := mkComment d [2; 2]; 2 := mkComment c' [] ]}) ∧
   ∀ node, inForest (buildCommentThreads comments) node → fields node ≠ c) ∧
  (let d := keyed blank 1 (Some 2) 10 in
   let c := keyed blank 2 (Some 1) 20 in
   let comments := [d; c] in
   c ∈ comments ∧ d ∈ comments ∧ c ≠ d ∧ parent_comment_id c = Some (id d) ∧
   (buildCommentThreads comments).1 = [] ∧
   ∀ node, ¬ inForest (buildCommentThreads comments) node).
Proof.
  split_and!.
  - split_and!; [set_solver|set_solver|done|done|by vm_compute..].
  - intros d c c' comments.
    assert (buildCommentThreads comments
            = ([1], {[ 1 := mkComment d [2; 2]; 2 := mkComment c' [] ]}))
      as -> by by vm_compute.
    split_and!; [set_solver|set_solver|done|done|done|].
    assert (∀ k (node : Comment),
              ({[ 1 := mkComment d [2; 2]; 2 := mkComment c' [] ]} : Heap) !! k
              = Some node → fields node ≠ c) as Hheap.
    { intros k node Hk.
      apply lookup_insert_Some in Hk as [[_ <-]|[_ Hk]]; [done|].
      apply lookup_singleton_Some in Hk as [_ <-]. done. }
    intros node Hnode. destruct Hnode as [k node _ Hk|parent k node _ _ Hk];
      by apply (Hheap k node).
  - intros d c comments.
    assert ((buildCommentThreads comments).1 = []) as Hroots by by vm_compute.
    split_and!; [set_solver|set_solver|done|done|done|].
    intros node Hnode.
    induction Hnode as [k node Hk _|parent k node _ IH _ _]; [|done].
    rewrite Hroots in Hk. by apply elem_of_nil in Hk.
Qed.

(** With distinct ids, every input comment whose chain of parent links
    reaches a root has its node in the returned forest. *)
Lemma inForest_depth comments fuel c n :
  distinctIds comments → c ∈ comments →
  depth comments fuel (id c) = Some n →
  ∃ node, (buildCommentThreads comments).2 !! id c = Some node ∧
          fields node = c ∧ inForest (buildCommentThreads comments) node.
Proof.
  intros Hdist. revert c n.
  induction fuel as [|fuel IH]; intros c n Hc Hn; [done|].
  assert (∃ node, (buildCommentThreads comments).2 !! id c = Some node ∧
                  fields node = c) as (node & Hnode & Hfields).
  { rewrite buildCommentThreads_lookup.
    rewrite (indexComments_lookup_distinct _ _ Hdist Hc). by eexists. }
  exists node. split_and!; [done..|].
  cbn [depth] in Hn.
  rewrite (indexComments_lookup_distinct _ _ Hdist Hc) in Hn. simpl in Hn.
  destruct (resolvedParent (indexComments comments) c) as [p|] eqn:Hp.
  - destruct (depth comments fuel p) as [n'|] eqn:Hn'; [|done].
    pose proof Hp as (_ & _ & Hsome)%resolvedParent_Some.
    apply indexComments_is_Some, list_elem_of_fmap in Hsome as (d & -> & Hd).
    destruct (IH d n' Hd Hn') as (parent & Hparent & _ & Hin).
    apply (inForest_reply _ parent (id c)); [done| |done].
    rewrite buildCommentThreads_lookup in Hparent.
    destruct (indexComments comments !! id d); simplify_eq/=.
    rewrite Array_sort_elem_of. unfold childrenOf.
    by apply list_elem_of_fmap_2, list_elem_of_filter.
  - apply (inForest_root _ (id c)); [|done].
    rewrite buildCommentThreads_roots, Array_sort_elem_of. unfold rootsOf.
    by apply list_elem_of_fmap_2, list_elem_of_filter.
Qed.

(** C3 (amended): when the ids are pairwise distinct, a comment whose
    [parent_comment_id] is not 0 and is the id of an input comment from
    which the parent links lead up to a root (it is neither on a cycle of
    parent links nor below one) is a direct child of that comment in the
    returned forest: the parent has a node in the forest, and the [replies]
    of that node hold a reference to the comment. *)
Theorem resolved_parent_gets_reply comments c d :
  distinctIds comments → is_Some (depthOf comments d) →
  c ∈ comments → d ∈ comments →
  parent_comment_id c = Some (id d) → id d ≠ 0 →
  ∃ parent,
    inForest (buildCommentThreads comments) parent ∧
    fields parent = d ∧
    id c ∈ replies parent ∧
    fields <$> (buildCommentThreads comments).2 !! id c = Some c.
Proof.
  intros Hdist [n Hn] Hc Hd Hparent Hnz.
  destruct (inForest_depth comments _ d n Hdist Hd Hn)
    as (parent & Hlookup & Hfields & Hin).
  exists parent. split_and!; [done..| |].
  - rewrite buildCommentThreads_lookup in Hlookup.
    destruct (indexComments comments !! id d) as [nd|] eqn:Hnd; [|done].
    injection Hlookup as <-. simpl.
    rewrite Array_sort_elem_of. unfold childrenOf.
    apply list_elem_of_fmap_2, list_elem_of_filter. split; [|done].
    apply resolvedParent_Some. by rewrite Hnd.
  - rewrite buildCommentThreads_lookup.
    by rewrite (indexComments_lookup_distinct _ _ Hdist Hc).
Qed.

Lemma resolved_parent_gets_reply_witness :
  let d := keyed blank 1 None 10 in
  let c := keyed blank 2 (Some 1) 20 in
  let comments := [d; c] in
  ∃ parent,
    inForest (buildCommentThreads comments) parent ∧
    fields parent = d ∧
    id c ∈ replies parent ∧
    fields <$> (buildCommentThreads comments).2 !! id c = Some c.
Proof.
  intros d c comments. apply (resolved_parent_gets_reply comments c d).
  - apply (bool_decide_unpack _). by vm_compute.
  - apply (bool_decide_unpack _). by vm_compute.
  - set_solver.
  - set_solver.
  - done.
  - done.
Defined.

Lemma StronglySorted_iff {A} (R R' : relation A) l :
  (∀ a b, R a b ↔ R' a b) → StronglySorted R l → StronglySorted R' l.
Proof.
  intros HR. induction 1 as [|x l Hl IH Hx]; constructor; [done|].
  eapply Forall_impl; [done|]. intros y. apply HR.
Qed.

Lemma getTime_buildCommentThreads comments k :
  getTime (buildCommentThreads comments).2 k = getTime (indexComments comments) k.
Proof.
  unfold getTime. rewrite buildCommentThreads_lookup.
  by destruct (indexComments comments !! k).
Qed.

Lemma Array_sort_newestFirst comments refs :
  StronglySorted (newestFirst (buildCommentThreads comments).2)
    (Array_sort (sortByDate (indexComments comments)) refs).
Proof.
  eapply StronglySorted_iff;
    [|apply (Array_sort_StronglySorted (getTime (indexComments comments)))].
  intros a b. unfold newestFirst. by rewrite !getTime_buildCommentThreads.
Qed.


(** C5: on [[{1, null, t1}, {2, 1, t2}, {3, null, t3}]] with [t1 < t2 < t3]
    the roots are comment 3 then comment 1, comment 1 has the single reply
    comment 2, and no other object has a reply. *)
Theorem buildCommentThreads_example (b1 b2 b3 : DbComment) (t1 t2 t3 : Z) :
  t1 < t2 → t2 < t3 →
  let c1 := keyed b1 1 None t1 in
  let c2 := keyed b2 2 (Some 1) t2 in
  let c3 := keyed b3 3 None t3 in
  buildCommentThreads [c1; c2; c3] =
  ([3; 1],
   {[ 1 := mkComment c1 [2]; 2 := mkComment c2 []; 3 := mkComment c3 [] ]}).
Proof.
  intros H12 H23 c1 c2 c3. unfold buildCommentThreads.
  set (linked := {[ 1 := mkComment c1 [2]; 2 := mkComment c2 [];
                    3 := mkComment c3 [] ]} : Heap).
  assert (foldl nest (indexComments [c1; c2; c3], []) [c1; c2; c3]
          = (linked, [1; 3])) as -> by by vm_compute.
  assert ((λ c, mkComment (fields c) (Array_sort (sortByDate linked) (replies c)))
            <$> linked = linked) as -> by by vm_compute.
  f_equal.
  assert (sortByDate linked 1 3 = t3 - t1) as Hcmp by by vm_compute.
  unfold Array_sort. cbn [foldr insert_sorted]. rewrite Hcmp.
  destruct (Z.leb_spec (t3 - t1) 0); [lia|done].
Qed.

Lemma buildCommentThreads_example_witness :
  buildCommentThreads
    [keyed blank 1 None 100; keyed blank 2 (Some 1) 200; keyed blank 3 None 300] =
  ([3; 1],
   {[ 1 := mkComment (keyed blank 1 None 100) [2];
      2 := mkComment (keyed blank 2 (Some 1) 200) [];
      3 := mkComment (keyed blank 3 None 300) [] ]}).
Proof. apply (buildCommentThreads_example blank blank blank 100 200 300); lia. Defined.

End ThreadClaims.

(** ** Handlers and their traces *)

Module EffectFacts.
Import Effects.

Lemma runs_bind {E A B} (p : Free E A) (f : A → Free E B) trace b :
  runs (p ≫= f) trace b ↔
  ∃ t1 t2 a, trace = t1 ++ t2 ∧ runs p t1 a ∧ runs (f a) t2 b.
Proof.
  revert trace. induction p as [a|R e k IH]; intros trace; simpl.
  - split.
    + intros Hf. by exists [], trace, a.
    + intros (t1 & t2 & a' & -> & [-> ->] & Hf). done.
  - split.
    + intros (r & t' & -> & Hk). apply IH in Hk as (t1 & t2 & a & -> & Hp & Hf).
      exists (Ev e r :: t1), t2, a. split_and!; [done| |done]. by exists r, t1.
    + intros (t1 & t2 & a & -> & (r & t1' & -> & Hp) & Hf).
      exists r, (t1' ++ t2). split; [done|]. apply IH. by exists t1', t2, a.
Qed.

Lemma exec_runs {E A} (env : ∀ R, E R → R) (p : Free E A) :
  runs p (exec env p).1 (exec env p).2.
Proof.
  induction p as [a|R e k IH]; simpl; [done|].
  specialize (IH (env R e)). destruct (exec env (k (env R e))) as [t a].
  by exists (env R e), t.
Qed.

(** A run of a program with a single call. *)
Lemma runs_call {E R} (e : E R) trace r :
  runs (call e) trace r ↔ trace = [Ev e r].
Proof.
  simpl. split.
  - by intros (r' & t' & -> & -> & ->).
  - intros ->. by exists r, [].
Qed.

End EffectFacts.

(** ** Claims about the comment list component *)

Module CommentListClaims.
Import JS Effects CommentList EffectFacts.

Lemma trimStart_allWhiteSpace s : allWhiteSpace (trimStart s) = allWhiteSpace s.
Proof.
  induction s as [|c s IH]; simpl; [done|].
  destruct (isWhiteSpace c) eqn:Hc; simpl; [done|]. by rewrite Hc.
Qed.

Lemma trimEnd_empty s : trimEnd s = [] ↔ allWhiteSpace s = true.
Proof.
  induction s as [|c s IH]; simpl; [done|].
  destruct (trimEnd s) as [|c' t] eqn:Ht.
  - destruct (isWhiteSpace c); simpl; [|done].
    split; [intros _; by apply IH|done].
  - split; [done|]. intros [_ Hs]%andb_prop. by apply IH in Hs.
Qed.

(** [trim] leaves nothing exactly of the strings made of white space. *)
Lemma trim_empty s : trim s = [] ↔ allWhiteSpace s = true.
Proof. unfold trim. by rewrite trimEnd_empty, trimStart_allWhiteSpace. Qed.

(** The guard [!commentText || !commentText.trim()]. *)
Lemma submit_guard text :
  negb (nonEmptyText text) || negb (nonEmptyText (trim text)) = allWhiteSpace text.
Proof.
  destruct (allWhiteSpace text) eqn:Hws.
  - apply trim_empty in Hws. rewrite Hws. simpl. by rewrite orb_true_r.
  - destruct text as [|c text]; [done|]. simpl negb at 1.
    destruct (trim (c :: text)) eqn:Ht; [|done].
    apply trim_empty in Ht. congruence.
Qed.

(** By contrast, every run of [fetchAndAddComment] queries the backend. *)
Lemma fetchAndAddComment_fetches commentId st trace st' :
  runs (fetchAndAddComment commentId st) trace st' →
  ∃ r, Ev (SelectComment commentId) r ∈ trace.
Proof.
  simpl. intros ([] & t1 & -> & r & t2 & -> & _). exists r. set_solver.
Qed.

(** C8: the callback for [INSERT] notifications only writes to the console:
    every run of it makes its two [console.log] calls, makes no backend call
    (no fetch), and hands back the state it was given. *)
Theorem onRealtimeInsert_noop payload st trace st' :
  runs (onRealtimeInsert payload st) trace st' →
  st' = st ∧
  trace = [Ev (ConsoleLog "Real-time INSERT received:") ();
           Ev (ConsoleLog "[Debug] Real-time insert detected, auto-fetch disabled for now.") ()] ∧
  Forall (λ ev, isBackendCall ev = false) trace.
Proof.
  simpl. intros ([] & t1 & -> & [] & t2 & -> & -> & ->).
  split_and!; [done..|]. by repeat constructor.
Qed.

Lemma onRealtimeInsert_noop_witness :
  idle = idle ∧
  [Ev (ConsoleLog "Real-time INSERT received:") ();
   Ev (ConsoleLog "[Debug] Real-time insert detected, auto-fetch disabled for now.") ()]
  = [Ev (ConsoleLog "Real-time INSERT received:") ();
     Ev (ConsoleLog "[Debug] Real-time insert detected, auto-fetch disabled for now.") ()] ∧
  Forall (λ ev, isBackendCall ev = false)
    [Ev (ConsoleLog "Real-time INSERT received:") ();
     Ev (ConsoleLog "[Debug] Real-time insert detected, auto-fetch disabled for now.") ()].
Proof.
  apply (onRealtimeInsert_noop sampleComment idle). simpl.
  eexists _, _. split; [reflexivity|]. eexists _, _. split; [reflexivity|]. done.
Defined.

(** Every insert a run of [handleSubmitComment] makes carries [commentData]
    for a text that is not blank. *)
Lemma handleSubmitComment_inserts props user parentId st trace st' ev row :
  runs (handleSubmitComment props user parentId st) trace st' →
  ev ∈ trace → insertedRow ev = Some row →
  ∃ text, commentText parentId st = Some text ∧
          allWhiteSpace text = false ∧
          row = commentData props user parentId text st.
Proof.
  unfold handleSubmitComment. simpl.
  intros ([] & t & -> & [] & t0 & -> & Hruns) Hev Hrow.
  apply elem_of_cons in Hev as [->|Hev]; [done|].
  apply elem_of_cons in Hev as [->|Hev]; [done|].
  revert Hruns Hev.
  destruct (commentText parentId st) as [text|]; simpl;
    [|by intros [-> _] ?%elem_of_nil].
  rewrite submit_guard. destruct (allWhiteSpace text) eqn:Hws; simpl;
    [by intros [-> _] ?%elem_of_nil|].
  intros ([] & t1 & -> & [data err] & t2 & -> & Hrest) Hev.
  exists text. split_and!; [done..|].
  apply elem_of_cons in Hev as [->|Hev]; [done|].
  apply elem_of_cons in Hev as [->|Hev]; [by simplify_eq/=|].
  exfalso. destruct err as [msg|], data as [d|]; simpl in Hrest.
  - destruct Hrest as ([] & t3 & -> & -> & _).
    apply list_elem_of_singleton in Hev as ->. done.
  - destruct Hrest as ([] & t3 & -> & -> & _).
    apply list_elem_of_singleton in Hev as ->. done.
  - destruct Hrest as ([] & t3 & -> & Hrest).
    apply elem_of_cons in Hev as [->|Hev]; [done|].
    destruct parentId as [p|]; [destruct (truthy (Some p))|];
      destruct Hrest as [-> _]; by apply elem_of_nil in Hev.
  - destruct Hrest as [-> _]. by apply elem_of_nil in Hev.
Qed.

(** What a run of [handleSubmitComment] does, by the text it finds: with
    no text, or a blank one, it returns at once; otherwise it makes one
    insert, of [commentData]. *)
Lemma handleSubmitComment_runs props user parentId st trace st' :
  runs (handleSubmitComment props user parentId st) trace st' →
  match commentText parentId st with
  | Some text =>
      if allWhiteSpace text
      then trace = [Ev PreventDefault (); Ev StopPropagation ()] ∧ st' = st
      else omap insertedRow trace = [commentData props user parentId text st]
  | None => trace = [Ev PreventDefault (); Ev StopPropagation ()] ∧ st' = st
  end.
Proof.
  unfold handleSubmitComment. simpl.
  intros ([] & t & -> & [] & t0 & -> & Hruns). revert Hruns.
  destruct (commentText parentId st) as [text|]; simpl;
    [|by intros [-> ->]].
  rewrite submit_guard. destruct (allWhiteSpace text) eqn:Hws; simpl;
    [by intros [-> ->]|].
  intros ([] & t1 & -> & [data err] & t2 & -> & Hrest). simpl.
  destruct err as [msg|], data as [d|]; simpl in Hrest.
  - by destruct Hrest as ([] & t3 & -> & -> & _).
  - by destruct Hrest as ([] & t3 & -> & -> & _).
  - destruct Hrest as ([] & t3 & -> & Hrest). simpl.
    destruct parentId as [p|]; [destruct (truthy (Some p))|];
      by destruct Hrest as [-> _].
  - by destruct Hrest as [-> _].
Qed.

(** C9: when the text to submit is empty or all white space, every run of
    [handleSubmitComment] only cancels the form event: it makes no backend
    call and hands back the state unchanged.  An insert is made exactly when
    the text is not blank. *)
Theorem blank_comment_not_submitted props user parentId st text trace st' :
  commentText parentId st = Some text →
  runs (handleSubmitComment props user parentId st) trace st' →
  if allWhiteSpace text
  then trace = [Ev PreventDefault (); Ev StopPropagation ()] ∧
       Forall (λ ev, isBackendCall ev = false) trace ∧
       st' = st
  else omap insertedRow trace = [commentData props user parentId text st].
Proof.
  intros Htext Hruns. apply handleSubmitComment_runs in Hruns.
  rewrite Htext in Hruns. destruct (allWhiteSpace text); [|done].
  destruct Hruns as [-> ->]. split_and!; [done| |done]. by repeat constructor.
Qed.

Lemma blank_comment_not_submitted_witness :
  let st := setNewComment [0x3000; 0x20; 0xFEFF] idle in
  [Ev PreventDefault (); Ev StopPropagation ()]
  = [Ev PreventDefault (); Ev StopPropagation ()] ∧
  Forall (λ ev, isBackendCall ev = false)
    [Ev PreventDefault (); Ev StopPropagation ()] ∧
  st = st.
Proof.
  intros st.
  apply (blank_comment_not_submitted (mkProps (Some 1) None) None None st
           [0x3000; 0x20; 0xFEFF]
           [Ev PreventDefault (); Ev StopPropagation ()] st).
  - reflexivity.
  - simpl. do 2 (eexists _, _; split; [reflexivity|]). by vm_compute.
Defined.

(** C10, as stated, fails for the parent id 0, which is not null but falsy:
    the submission is then treated like a top-level one, reads [newComment]
    and obeys the anonymous checkbox. *)
Lemma reply_to_id_zero_obeys_anonymous :
  let props := mkProps (Some 1) None in
  let st := setNewComment (codeUnits "hi") idle in
  omap insertedRow
    (exec rejecting
       (handleSubmitComment props (Some alice) (Some 0)
          (setIsAnonymous true st))).1
  = [mkCommentInsert (codeUnits "hi") None (Some 0) (Some 1) None] ∧
  omap insertedRow
    (exec rejecting
       (handleSubmitComment props (Some alice) (Some 0)
          (setIsAnonymous false st))).1
  = [mkCommentInsert (codeUnits "hi") (Some (uid alice)) (Some 0) (Some 1) None].
Proof. by vm_compute. Qed.

Lemma commentText_setIsAnonymous parentId anon st :
  commentText parentId (setIsAnonymous anon st) = commentText parentId st.
Proof. done. Qed.

Lemma commentData_user_id props user parentId text st :
  user = None ∨ truthy parentId = true →
  new_user_id (commentData props user parentId text st) = uid <$> user.
Proof.
  unfold commentData, postAnonymously. simpl.
  intros [->|Hp]; [done|]. rewrite Hp. by destruct user.
Qed.

Lemma commentData_setIsAnonymous props user parentId text anon st :
  user = None ∨ truthy parentId = true →
  commentData props user parentId text (setIsAnonymous anon st)
  = commentData props user parentId text st.
Proof.
  unfold commentData, postAnonymously. intros [->|Hp]; [done|].
  rewrite Hp. by destruct user.
Qed.

(** C10 (amended): for a reply whose parent id is neither null nor 0, and
    for any submission without a logged-in user, the anonymous checkbox has
    no influence: two runs that differ in the flag alone insert the same row,
    whose [user_id] is the user's id, or null without a user. *)
Theorem reply_identity_ignores_anonymous
    props user parentId st anon1 anon2 t1 s1 t2 s2 ev1 ev2 row1 row2 :
  user = None ∨ truthy parentId = true →
  runs (handleSubmitComment props user parentId (setIsAnonymous anon1 st)) t1 s1 →
  runs (handleSubmitComment props user parentId (setIsAnonymous anon2 st)) t2 s2 →
  ev1 ∈ t1 → insertedRow ev1 = Some row1 →
  ev2 ∈ t2 → insertedRow ev2 = Some row2 →
  new_user_id row1 = uid <$> user ∧ new_user_id row2 = uid <$> user ∧
  row1 = row2.
Proof.
  intros Hcase Hr1 Hr2 Hev1 Hrow1 Hev2 Hrow2.
  destruct (handleSubmitComment_inserts _ _ _ _ _ _ _ _ Hr1 Hev1 Hrow1)
    as (text1 & Ht1 & _ & ->).
  destruct (handleSubmitComment_inserts _ _ _ _ _ _ _ _ Hr2 Hev2 Hrow2)
    as (text2 & Ht2 & _ & ->).
  rewrite commentText_setIsAnonymous in Ht1, Ht2.
  assert (text1 = text2) as -> by congruence.
  rewrite !commentData_setIsAnonymous by done.
  by rewrite commentData_user_id.
Qed.

Lemma reply_identity_ignores_anonymous_witness :
  let row := mkCommentInsert (codeUnits "hi") (Some "user-1") (Some 5) (Some 1) None in
  new_user_id row = uid <$> Some alice ∧
  new_user_id row = uid <$> Some alice ∧
  row = row.
Proof.
  pose (props := mkProps (Some 1) None).
  pose (st := setReplyInputs {[ 5 := codeUnits "hi" ]} idle).
  pose (run anon := exec rejecting
          (handleSubmitComment props (Some alice) (Some 5)
             (setIsAnonymous anon st))).
  apply (reply_identity_ignores_anonymous props (Some alice) (Some 5) st
           true false (run true).1 (run true).2 (run false).1 (run false).2
           (Ev (InsertComment
                  (mkCommentInsert (codeUnits "hi") (Some "user-1") (Some 5) (Some 1) None))
               (None, Some "rejected"))
           (Ev (InsertComment
                  (mkCommentInsert (codeUnits "hi") (Some "user-1") (Some 5) (Some 1) None))
               (None, Some "rejected"))).
  - by right.
  - apply exec_runs.
  - apply exec_runs.
  - vm_compute. do 3 right. left.
  - reflexivity.
  - vm_compute. do 3 right. left.
  - reflexivity.
Defined.

End CommentListClaims.

(** ** Claims about the admin managers *)

Module AdminProofsClaims.
Import JS Effects AdminProofsManager EffectFacts.

(** No event of a trace written out in full meets an observation. *)
Ltac no_event H :=
  let ev := fresh "ev" in
  let Hin := fresh "Hin" in
  let Hobs := fresh "Hobs" in
  destruct H as (ev & Hin & Hobs);
  repeat (apply elem_of_cons in Hin as [->|Hin]; [by simplify_eq/=|]);
  by apply elem_of_nil in Hin.

(** C6: in every run of [handleUploadProof] in which the upload succeeded
    and the insert of the proof row failed, the insert is followed by a
    storage delete of the uploaded path in the same bucket, then by the
    error report; the final state carries the insert error whatever the
    delete answered, and the run is possible with any answer of the
    delete. *)
Theorem handleUploadProof_rolls_back st trace st' bucket path message :
  runs (handleUploadProof st) trace st' →
  (∃ ev, ev ∈ trace ∧ uploadSucceeded ev = Some (bucket, path)) →
  (∃ ev, ev ∈ trace ∧ insertFailed ev = Some message) →
  ∃ before url date r,
    let rollback r :=
      before ++ [Ev (InsertProof url date) (Some message);
                 Ev (StorageRemove bucket [path]) r;
                 Ev (Console Error "Error during proof upload:") ()] in
    trace = rollback r ∧
    Forall (λ ev, removeCall ev = None) before ∧
    st' = setIsUploading false
            (setError (Some ("Failed to upload proof: DB Insert Error: " +:+ message))
               (setError None (setIsUploading true st))) ∧
    ∀ r', runs (handleUploadProof st) (rollback r') st'.
Proof.
  unfold handleUploadProof.
  destruct (selectedFile st) as [file|] eqn:Hfile; simpl.
  2:{ intros ([] & t0 & -> & -> & _) Hup. by no_event Hup. }
  intros ([] & t0 & -> & now & t1 & -> & uploadError & t2 & -> & Hrest) Hup Hins.
  destruct uploadError as [uploadMessage|]; simpl in Hrest.
  { destruct Hrest as ([] & t3 & -> & -> & _). by no_event Hup. }
  destruct Hrest as (urlData & t3 & -> & Hrest).
  destruct urlData as [publicUrl|]; simpl in Hrest.
  2:{ destruct Hrest as ([] & t4 & -> & -> & _). by no_event Hins. }
  destruct (nonEmpty publicUrl) eqn:Hurl; simpl in Hrest.
  2:{ destruct Hrest as ([] & t4 & -> & -> & _). by no_event Hins. }
  destruct Hrest as (insertError & t4 & -> & Hrest).
  destruct insertError as [insertMessage|]; simpl in Hrest.
  - destruct Hrest as (r & t5 & -> & [] & t6 & -> & -> & ->).
    set (filePath := "proof-" +:+ pretty now +:+ "." +:+ pop (split "." (name file))) in *.
    assert (bucket = PROOF_IMAGE_BUCKET ∧ path = filePath) as [-> ->].
    { destruct Hup as (ev & Hin & Hobs).
      repeat (apply elem_of_cons in Hin as [->|Hin]; [by simplify_eq/=|]).
      by apply elem_of_nil in Hin. }
    assert (message = insertMessage) as ->.
    { destruct Hins as (ev & Hin & Hobs).
      repeat (apply elem_of_cons in Hin as [->|Hin]; [by simplify_eq/=|]).
      by apply elem_of_nil in Hin. }
    exists [Ev PreventDefault ();
            Ev DateNow now;
            Ev (StorageUpload PROOF_IMAGE_BUCKET filePath file) None;
            Ev (StorageGetPublicUrl PROOF_IMAGE_BUCKET filePath) (Some publicUrl)].
    eexists publicUrl, _, r. simpl. split_and!; [done| |done|].
    + by repeat constructor.
    + intros r'. eexists (), _. split; [done|].
      eexists now, _. split; [done|]. eexists None, _. split; [done|].
      simpl. eexists (Some publicUrl), _. split; [done|]. simpl. rewrite Hurl. simpl.
      eexists (Some insertMessage), _. split; [done|]. simpl.
      eexists r', _. split; [done|]. eexists (), _. done.
  - destruct Hrest as ([] & t5 & -> & [data fetchError] & t6 & -> & Hrest).
    destruct fetchError as [fetchMessage|]; simpl in Hrest.
    + destruct Hrest as ([] & t7 & -> & -> & _). by no_event Hins.
    + destruct Hrest as [-> _]. by no_event Hins.
Qed.

Lemma handleUploadProof_rolls_back_witness :
  let trace := (exec refusingInsert (handleUploadProof withFile)).1 in
  let st' := (exec refusingInsert (handleUploadProof withFile)).2 in
  ∃ before url date r,
    let rollback r :=
      before ++ [Ev (InsertProof url date) (Some "violates row-level security");
                 Ev (StorageRemove PROOF_IMAGE_BUCKET ["proof-1714000000000.png"]) r;
                 Ev (Console Error "Error during proof upload:") ()] in
    trace = rollback r ∧
    Forall (λ ev, removeCall ev = None) before ∧
    st' = setIsUploading false
            (setError (Some ("Failed to upload proof: DB Insert Error: " +:+
                             "violates row-level security"))
               (setError None (setIsUploading true withFile))) ∧
    ∀ r', runs (handleUploadProof withFile) (rollback r') st'.
Proof.
  apply (handleUploadProof_rolls_back withFile).
  - apply exec_runs.
  - eexists. split; [vm_compute; do 2 right; left|reflexivity].
  - eexists. split; [vm_compute; do 4 right; left|reflexivity].
Defined.

End AdminProofsClaims.

(** ** Strings *)

Module StringFacts.
Import JS.

Lemma append_nil_l s : EmptyString +:+ s = s.
Proof. done. Qed.

Lemma append_cons c a b : String c a +:+ b = String c (a +:+ b).
Proof. done. Qed.

Lemma prefix_nil s : String.prefix EmptyString s = true.
Proof. by destruct s. Qed.

Lemma startsWith_app p rest : startsWith (p +:+ rest) p = true.
Proof.
  unfold startsWith. induction p as [|c p IH].
  - by rewrite append_nil_l, prefix_nil.
  - rewrite append_cons. simpl. by destruct (ascii_dec c c).
Qed.

Lemma substring_app p rest : substring (String.length p) (p +:+ rest) = rest.
Proof.
  induction p as [|c p IH]; [by destruct rest|].
  by rewrite append_cons.
Qed.

Lemma startsWith_inv s p :
  startsWith s p = true → s = p +:+ substring (String.length p) s.
Proof.
  unfold startsWith. revert s. induction p as [|c p IH]; intros s.
  - by destruct s.
  - destruct s as [|c' s]; [done|]. simpl. destruct (ascii_dec c c'); [|done].
    intros Hp. subst c'. rewrite append_cons. f_equal. by apply IH.
Qed.

Lemma startsWith_false s p rest : startsWith s p = false → s ≠ p +:+ rest.
Proof. intros Hs ->. by rewrite startsWith_app in Hs. Qed.

(** [s.startsWith(p)] holds exactly of the strings that are [p] followed by
    a remainder. *)
Lemma startsWith_spec s p : startsWith s p = true ↔ ∃ rest, s = p +:+ rest.
Proof.
  split.
  - intros Hs. eexists. by apply startsWith_inv.
  - intros [rest ->]. apply startsWith_app.
Qed.

Lemma split_nonempty sep s : split sep s ≠ [].
Proof.
  destruct s as [|c s]; simpl; [done|].
  destruct (decide (c = sep)); [done|]. by destruct (split sep s).
Qed.

(** Splitting at a separator splits what is on either side of it. *)
Lemma split_app_sep sep a b :
  split sep (a +:+ String sep b) = split sep a ++ split sep b.
Proof.
  induction a as [|c a IH].
  - rewrite append_nil_l. simpl. by rewrite decide_True.
  - rewrite append_cons. simpl. destruct (decide (c = sep)); [by rewrite IH|].
    rewrite IH. pose proof (split_nonempty sep a).
    by destruct (split sep a).
Qed.

Lemma join_cons sep x y l :
  join sep (x :: y :: l) = x +:+ sep +:+ join sep (y :: l).
Proof. done. Qed.

Lemma join_split sep s : join (String sep EmptyString) (split sep s) = s.
Proof.
  induction s as [|c s IH]; simpl; [done|].
  pose proof (split_nonempty sep s) as Hne.
  destruct (decide (c = sep)) as [->|].
  - destruct (split sep s) as [|part parts]; [done|].
    by rewrite join_cons, IH.
  - destruct (split sep s) as [|part parts]; [done|].
    rewrite <-IH. destruct parts; [done|]. by rewrite !join_cons.
Qed.

Lemma indexOf_app_first x l1 l2 :
  x ∉ l1 → indexOf x (l1 ++ x :: l2) = Z.of_nat (length l1).
Proof.
  induction l1 as [|y l1 IH]; intros Hx; simpl.
  - by rewrite decide_True.
  - rewrite decide_False by set_solver. rewrite IH by set_solver.
    destruct (Z.ltb_spec (Z.of_nat (length l1)) 0); lia.
Qed.

Lemma slice_after l1 (x : string) l2 :
  slice (Z.of_nat (length l1) + 1) (l1 ++ x :: l2) = l2.
Proof.
  unfold slice.
  replace (Z.to_nat (Z.of_nat (length l1) + 1)) with (length (l1 ++ [x])).
  - change (l1 ++ x :: l2) with (l1 ++ [x] ++ l2).
    rewrite app_assoc. apply drop_app_length.
  - rewrite length_app. simpl. lia.
Qed.

End StringFacts.

(** ** Claims about image deletion *)

Module ImageDeletionClaims.
Import JS Effects EffectFacts StringFacts.

(** Take a run apart, one call at a time. *)
Ltac run_step H :=
  simpl in H;
  lazymatch type of H with
  | ∃ _ _, _ = _ :: _ ∧ _ =>
      let r := fresh "r" in let t := fresh "t" in
      destruct H as (r & t & -> & H)
  | _ = [] ∧ _ = _ => destruct H as [-> ->]
  end.

Ltac run_case H :=
  match type of H with
  | context [if ?b then _ else _] => destruct b eqn:?
  | context [match ?x with _ => _ end] => destruct x eqn:?
  end.

Ltac run_all H := repeat (first [run_step H | run_case H; simpl in H]).

Section deleteImage.
Import AdminImagesManager.
Context (URL_pathname : string → Try string).

#[local] Arguments startsWith : simpl never.
#[local] Arguments JS.substring : simpl never.
#[local] Arguments pathPrefix : simpl never.
#[local] Arguments String.length : simpl never.

(** The storage deletes of a run of [loadImages]: none. *)
Lemma loadImages_removeCalls type categoryId st trace st' :
  runs (loadImages type categoryId st) trace st' →
  omap removeCall trace = [].
Proof.
  intros H. unfold loadImages in H. run_step H.
  destruct r; repeat run_step H; done.
Qed.

Lemma deleteImage_removeCalls image st trace st' :
  runs (deleteImage URL_pathname image st) trace st' →
  omap removeCall trace =
  match URL_pathname (url image) with
  | Returned pathname =>
      if confirmed trace && nonEmpty (imageFilePath pathname)
      then [(bucketName, [imageFilePath pathname])] else []
  | Thrown _ => []
  end.
Proof.
  intros H. unfold deleteImage, removeImage in H. run_step H. unfold confirmed.
  destruct r; [|run_step H; by destruct (URL_pathname (url image))].
  destruct (URL_pathname (url image)) as [pathname|message];
    [|by repeat run_step H].
  unfold imageFilePath. simpl in H. run_all H; simpl; done.
Qed.

End deleteImage.

Section deleteStoredImage.
Import AdminServicesManager.
Context (URL_pathname decodeURIComponent : string → Try string).

#[local] Arguments startsWith : simpl never.
#[local] Arguments JS.substring : simpl never.
#[local] Arguments pathPrefix : simpl never.
#[local] Arguments String.length : simpl never.
#[local] Arguments split : simpl never.
#[local] Arguments join : simpl never.
#[local] Arguments slice : simpl never.
#[local] Arguments indexOf : simpl never.

Lemma deleteStoredImage_removeCalls imageUrl pathname st trace st' :
  nonEmpty imageUrl = true →
  URL_pathname imageUrl = Returned pathname →
  runs (deleteStoredImage URL_pathname decodeURIComponent (Some imageUrl) st)
    trace st' →
  omap removeCall trace =
  if startsWith pathname (pathPrefix bucketName)
  then removalOf (decodeURIComponent
                    (JS.substring (String.length (pathPrefix bucketName)) pathname))
  else
    if nonEmpty (fallbackPath pathname)
    then removalOf (decodeURIComponent (fallbackPath pathname)) else [].
Proof.
  intros Hne Hurl H. unfold deleteStoredImage, storedFilePath in H.
  rewrite Hne, Hurl in H. unfold removalOf, fallbackPath. simpl in H.
  run_all H; simpl; done.
Qed.

End deleteStoredImage.

Section handleDeleteProof.
Import AdminProofsManager.

#[local] Arguments proofFilePath : simpl never.

Lemma handleDeleteProof_removeCalls proof st trace st' :
  runs (handleDeleteProof proof st) trace st' →
  omap removeCall trace =
  if confirmed trace && nonEmpty (proofFilePath (image_url proof))
  then [(PROOF_IMAGE_BUCKET, [proofFilePath (image_url proof)])] else [].
Proof.
  intros H. unfold handleDeleteProof, deleteProof in H. run_step H.
  unfold confirmed. destruct r; [|by run_step H].
  simpl in H. run_all H; simpl; done.
Qed.

(** On a URL made of an origin, the public prefix of the bucket and a
    remainder, the segment search of [handleDeleteProof] finds the remainder,
    provided no segment of the origin is the bucket name. *)
Lemma proofFilePath_public_url origin rest :
  PROOF_IMAGE_BUCKET ∉ split "/" origin →
  proofFilePath (origin +:+ pathPrefix PROOF_IMAGE_BUCKET +:+ rest) = rest.
Proof.
  intros Horigin. unfold proofFilePath.
  assert (pathPrefix PROOF_IMAGE_BUCKET +:+ rest =
          String "/" ("storage" +:+ String "/" ("v1" +:+ String "/"
            ("object" +:+ String "/" ("public" +:+ String "/"
              ("proof-images" +:+ String "/" rest)))))) as -> by done.
  rewrite !split_app_sep.
  change (split "/" "storage") with ["storage"].
  change (split "/" "v1") with ["v1"].
  change (split "/" "object") with ["object"].
  change (split "/" "public") with ["public"].
  change (split "/" "proof-images") with [PROOF_IMAGE_BUCKET].
  set (before := split "/" origin ++ ["storage"; "v1"; "object"; "public"]).
  assert (split "/" origin ++ ["storage"] ++ ["v1"] ++ ["object"] ++ ["public"]
            ++ [PROOF_IMAGE_BUCKET] ++ split "/" rest
          = before ++ PROOF_IMAGE_BUCKET :: split "/" rest) as ->.
  { unfold before. by rewrite <-app_assoc. }
  rewrite indexOf_app_first, slice_after; [apply join_split|].
  unfold before. rewrite elem_of_app. intros [?|Hin]; [done|].
  revert Hin. by apply (bool_decide_unpack _).
Qed.

End handleDeleteProof.

(** C7, as stated, fails on each of the three operations:
    [deleteStoredImage] hands the storage delete the percent-decoded
    remainder; [handleDeleteProof] searches the segments of the whole URL, so
    a query string stays in the path; and [deleteImage] makes no storage
    delete when the remainder is empty. *)
Lemma storage_delete_is_not_the_remainder :
  (let imageUrl := "https://x.supabase.co/storage/v1/object/public/programminglistbuckets/my%20logo.png" in
   simple_URL_pathname imageUrl
   = Returned (pathPrefix AdminServicesManager.bucketName +:+ "my%20logo.png") ∧
   omap AdminServicesManager.removeCall
     (exec AdminServicesManager.accepting
        (AdminServicesManager.deleteStoredImage simple_URL_pathname
           percent_decode (Some imageUrl)
           AdminServicesManager.noError)).1
   = [("programminglistbuckets", ["my logo.png"])]) ∧
  (let image_url := "https://x.supabase.co/storage/v1/object/public/proof-images/proof-1.png?download=1" in
   simple_URL_pathname image_url
   = Returned (pathPrefix AdminProofsManager.PROOF_IMAGE_BUCKET +:+ "proof-1.png") ∧
   omap AdminProofsManager.removeCall
     (exec AdminProofsManager.accepting
        (AdminProofsManager.handleDeleteProof
           (AdminProofsManager.mkProof 1 "2025-05-01" image_url None)
           AdminProofsManager.withFile)).1
   = [("proof-images", ["proof-1.png?download=1"])]) ∧
  (let url := "https://x.supabase.co/storage/v1/object/public/images/" in
   simple_URL_pathname url
   = Returned (pathPrefix AdminImagesManager.bucketName +:+ "") ∧
   omap AdminImagesManager.removeCall
     (exec AdminImagesManager.accepting
        (AdminImagesManager.deleteImage simple_URL_pathname
           (AdminImagesManager.mkImage 1 url None (Some 2) "proofs")
           AdminImagesManager.viewing)).1
   = []).
Proof. by vm_compute. Qed.

(** C7 (amended): let the path of the image URL be the public prefix of the
    operation's bucket followed by [rest].  Then [deleteImage] makes one
    storage delete, of exactly [rest], when the user confirms and [rest] is
    not empty, and none otherwise; [deleteStoredImage] makes the delete of
    [decodeURIComponent rest] when that is not empty; [handleDeleteProof],
    which reads the URL string itself, makes the delete of [rest] when the
    URL is an origin without a segment named like the bucket, the prefix and
    [rest], the user confirms and [rest] is not empty.  When the path does
    not begin with the prefix, [deleteImage] derives no path and makes no
    storage delete, and [deleteStoredImage] falls back on the segments of
    the path. *)
Theorem storage_delete_from_public_url
    (URL_pathname decodeURIComponent : string → Try string) (rest : string) :
  (∀ image st trace st',
     URL_pathname (AdminImagesManager.url image)
     = Returned (pathPrefix AdminImagesManager.bucketName +:+ rest) →
     runs (AdminImagesManager.deleteImage URL_pathname image st) trace st' →
     omap AdminImagesManager.removeCall trace =
     if AdminImagesManager.confirmed trace && nonEmpty rest
     then [(AdminImagesManager.bucketName, [rest])] else []) ∧
  (∀ imageUrl st trace st',
     nonEmpty imageUrl = true →
     URL_pathname imageUrl
     = Returned (pathPrefix AdminServicesManager.bucketName +:+ rest) →
     runs (AdminServicesManager.deleteStoredImage URL_pathname
             decodeURIComponent (Some imageUrl) st) trace st' →
     omap AdminServicesManager.removeCall trace =
     AdminServicesManager.removalOf (decodeURIComponent rest)) ∧
  (∀ proof origin st trace st',
     AdminProofsManager.image_url proof
     = origin +:+ pathPrefix AdminProofsManager.PROOF_IMAGE_BUCKET +:+ rest →
     AdminProofsManager.PROOF_IMAGE_BUCKET ∉ split "/" origin →
     runs (AdminProofsManager.handleDeleteProof proof st) trace st' →
     omap AdminProofsManager.removeCall trace =
     if AdminProofsManager.confirmed trace && nonEmpty rest
     then [(AdminProofsManager.PROOF_IMAGE_BUCKET, [rest])] else []) ∧
  (∀ image pathname st trace st',
     URL_pathname (AdminImagesManager.url image) = Returned pathname →
     startsWith pathname (pathPrefix AdminImagesManager.bucketName) = false →
     runs (AdminImagesManager.deleteImage URL_pathname image st) trace st' →
     AdminImagesManager.imageFilePath pathname = EmptyString ∧
     omap AdminImagesManager.removeCall trace = []) ∧
  (∀ imageUrl pathname st trace st',
     nonEmpty imageUrl = true →
     URL_pathname imageUrl = Returned pathname →
     startsWith pathname (pathPrefix AdminServicesManager.bucketName) = false →
     runs (AdminServicesManager.deleteStoredImage URL_pathname
             decodeURIComponent (Some imageUrl) st) trace st' →
     omap AdminServicesManager.removeCall trace =
     if nonEmpty (AdminServicesManager.fallbackPath pathname)
     then AdminServicesManager.removalOf
            (decodeURIComponent (AdminServicesManager.fallbackPath pathname))
     else []).
Proof.
  split_and!.
  - intros image st trace st' Hurl Hruns.
    rewrite (deleteImage_removeCalls _ _ _ _ _ Hruns), Hurl.
    unfold AdminImagesManager.imageFilePath.
    by rewrite startsWith_app, substring_app.
  - intros imageUrl st trace st' Hne Hurl Hruns.
    rewrite (deleteStoredImage_removeCalls _ _ _ _ _ _ _ Hne Hurl Hruns).
    by rewrite startsWith_app, substring_app.
  - intros proof origin st trace st' Hurl Horigin Hruns.
    rewrite (handleDeleteProof_removeCalls _ _ _ _ Hruns), Hurl.
    by rewrite proofFilePath_public_url.
  - intros image pathname st trace st' Hurl Hprefix Hruns.
    rewrite (deleteImage_removeCalls _ _ _ _ _ Hruns), Hurl.
    unfold AdminImagesManager.imageFilePath. rewrite Hprefix.
    by rewrite andb_false_r.
  - intros imageUrl pathname st trace st' Hne Hurl Hprefix Hruns.
    rewrite (deleteStoredImage_removeCalls _ _ _ _ _ _ _ Hne Hurl Hruns).
    by rewrite Hprefix.
Qed.

Lemma storage_delete_from_public_url_witness :
  (let image :=
     AdminImagesManager.mkImage 1
       "https://x.supabase.co/storage/v1/object/public/images/proofs/2/a.png"
       None (Some 2) "proofs" in
   let run :=
     exec AdminImagesManager.accepting
       (AdminImagesManager.deleteImage simple_URL_pathname image
          AdminImagesManager.viewing) in
   omap AdminImagesManager.removeCall run.1 =
   if AdminImagesManager.confirmed run.1 && nonEmpty "proofs/2/a.png"
   then [(AdminImagesManager.bucketName, ["proofs/2/a.png"])] else []) ∧
  (let imageUrl :=
     "https://x.supabase.co/storage/v1/object/public/programminglistbuckets/my%20logo.png" in
   let run :=
     exec AdminServicesManager.accepting
       (AdminServicesManager.deleteStoredImage simple_URL_pathname
          percent_decode (Some imageUrl) AdminServicesManager.noError) in
   omap AdminServicesManager.removeCall run.1 =
   AdminServicesManager.removalOf (percent_decode "my%20logo.png")) ∧
  (let proof :=
     AdminProofsManager.mkProof 1 "2025-05-01"
       "https://x.supabase.co/storage/v1/object/public/proof-images/proof-1.png"
       None in
   let run :=
     exec AdminProofsManager.accepting
       (AdminProofsManager.handleDeleteProof proof AdminProofsManager.withFile) in
   omap AdminProofsManager.removeCall run.1 =
   if AdminProofsManager.confirmed run.1 && nonEmpty "proof-1.png"
   then [(AdminProofsManager.PROOF_IMAGE_BUCKET, ["proof-1.png"])] else []) ∧
  (let image :=
     AdminImagesManager.mkImage 1 "https://cdn.example.com/pics/a.png"
       None (Some 2) "proofs" in
   let run :=
     exec AdminImagesManager.accepting
       (AdminImagesManager.deleteImage simple_URL_pathname image
          AdminImagesManager.viewing) in
   AdminImagesManager.imageFilePath "/pics/a.png" = EmptyString ∧
   omap AdminImagesManager.removeCall run.1 = []) ∧
  (let imageUrl := "https://cdn.example.com/programminglistbuckets/a%2Bb.png" in
   let run :=
     exec AdminServicesManager.accepting
       (AdminServicesManager.deleteStoredImage simple_URL_pathname
          percent_decode (Some imageUrl) AdminServicesManager.noError) in
   omap AdminServicesManager.removeCall run.1 =
   if nonEmpty (AdminServicesManager.fallbackPath "/programminglistbuckets/a%2Bb.png")
   then AdminServicesManager.removalOf
          (percent_decode
             (AdminServicesManager.fallbackPath "/programminglistbuckets/a%2Bb.png"))
   else []).
Proof.
  pose proof (storage_delete_from_public_url simple_URL_pathname percent_decode)
    as Hclaim.
  split_and!.
  - intros image run.
    apply (proj1 (Hclaim "proofs/2/a.png")
             image AdminImagesManager.viewing run.1 run.2);
      [by vm_compute|apply exec_runs].
  - intros imageUrl run.
    apply (proj1 (proj2 (Hclaim "my%20logo.png"))
             imageUrl AdminServicesManager.noError run.1 run.2);
      [by vm_compute|by vm_compute|apply exec_runs].
  - intros proof run.
    apply (proj1 (proj2 (proj2 (Hclaim "proof-1.png")))
             proof "https://x.supabase.co" AdminProofsManager.withFile
             run.1 run.2);
      [by vm_compute|apply (bool_decide_unpack _); by vm_compute
      |apply exec_runs].
  - intros image run.
    apply (proj1 (proj2 (proj2 (proj2 (Hclaim EmptyString))))
             image "/pics/a.png" AdminImagesManager.viewing run.1 run.2);
      [by vm_compute|by vm_compute|apply exec_runs].
  - intros imageUrl run.
    apply (proj2 (proj2 (proj2 (proj2 (Hclaim EmptyString))))
             imageUrl "/programminglistbuckets/a%2Bb.png"
             AdminServicesManager.noError run.1 run.2);
      [by vm_compute|by vm_compute|by vm_compute|apply exec_runs].
Defined.

End ImageDeletionClaims.

(** * Further properties *)

(** ** Observations on traces *)

Module TraceFacts.

Lemma omap_cons_None {A B} (f : A → option B) x l :
  f x = None → omap f (x :: l) = omap f l.
Proof. intros Hx. simpl. by rewrite Hx. Qed.

Lemma omap_cons_Some {A B} (f : A → option B) x y l :
  f x = Some y → omap f (x :: l) = y :: omap f l.
Proof. intros Hx. simpl. by rewrite Hx. Qed.

Lemma omap_nil_Forall {A B} (f : A → option B) l :
  omap f l = [] ↔ Forall (λ x, f x = None) l.
Proof.
  induction l as [|x l IH]; simpl; [by split|].
  destruct (f x) eqn:Hx.
  - split; [done|]. intros [? _]%Forall_cons. congruence.
  - rewrite IH. split; [by constructor|]. by intros [_ ?]%Forall_cons.
Qed.

(** Take a run apart, leaving the handlers it calls folded. *)
Ltac run_step_folded H :=
  cbn in H;
  lazymatch type of H with
  | ∃ _ _, _ = _ :: _ ∧ _ =>
      let r := fresh "r" in let t := fresh "t" in
      destruct H as (r & t & -> & H)
  | _ = [] ∧ _ = _ => destruct H as [-> ->]
  end.

End TraceFacts.

(** ** Thread assembly *)

Module ThreadExtras.
Import JS CommentList ThreadObservations SortFacts ThreadFacts.

(** X1: nesting is sound.  Every root reference is the id of an input
    comment whose parent id is null, 0, or the id of no input comment; every
    reference in the [replies] of the object stored under [p] is the id of
    an input comment whose parent id is [p], and [p] is not 0. *)
Theorem buildCommentThreads_sound comments :
  let '(roots, heap) := buildCommentThreads comments in
  Forall (λ k, ∃ c, c ∈ comments ∧ id c = k ∧
                    (parent_comment_id c = None ∨
                     parent_comment_id c = Some 0 ∨
                     ∀ d, d ∈ comments → parent_comment_id c ≠ Some (id d)))
    roots ∧
  map_Forall (λ p nd,
    Forall (λ k, ∃ c, c ∈ comments ∧ id c = k ∧
                      parent_comment_id c = Some p ∧ p ≠ 0)
      (replies nd)) heap.
Proof.
  pose proof (buildCommentThreads_roots comments) as Hr.
  pose proof (buildCommentThreads_lookup comments) as Hm.
  destruct (buildCommentThreads comments) as [roots heap]. simpl in *. split.
  - rewrite Hr. apply Forall_forall. intros k.
    rewrite Array_sort_elem_of. unfold rootsOf.
    intros (c & -> & [Hc Hin]%list_elem_of_filter)%list_elem_of_fmap.
    exists c. split_and!; [done..|].
    apply resolvedParent_None in Hc as [?|[?|(p & Hp & Hnone)]]; [eauto..|].
    do 2 right. intros d Hd Heq. rewrite Hp in Heq. simplify_eq.
    apply eq_None_not_Some in Hnone. apply Hnone, indexComments_is_Some.
    by apply list_elem_of_fmap_2.
  - intros p nd. rewrite Hm.
    destruct (indexComments comments !! p) as [nd0|]; intros; simplify_eq/=.
    apply Forall_forall. intros k. rewrite Array_sort_elem_of. unfold childrenOf.
    intros (c & -> & [Hc Hin]%list_elem_of_filter)%list_elem_of_fmap.
    apply resolvedParent_Some in Hc as (? & ? & _). eauto 10.
Qed.

Lemma bind_app_Permutation {A B} (f g : A → list B) (l : list A) :
  l ≫= (λ x, f x ++ g x) ≡ₚ (l ≫= f) ++ (l ≫= g).
Proof.
  induction l as [|x l IH]; csimpl; [done|]. rewrite IH.
  rewrite <-!app_assoc. f_equiv. rewrite !app_assoc. f_equiv.
  apply Permutation_app_comm.
Qed.

(** Among distinct keys at most one is the resolved parent. *)
Lemma bind_resolved (K : list Z) (o : option Z) (x : Z) :
  NoDup K →
  K ≫= (λ k, if decide (o = Some k) then [x] else [])
  = match o with
    | Some p => if decide (p ∈ K) then [x] else []
    | None => []
    end.
Proof.
  induction 1 as [|k K Hk HK IH]; [by destruct o|csimpl].
  rewrite IH. destruct o as [p|]; [|done].
  {
    destruct (decide (p = k)) as [->|Hne].
    + rewrite decide_True by done. rewrite decide_False by done.
      by rewrite decide_True by set_solver.
    + rewrite decide_False by congruence. simpl. apply decide_ext. set_solver.
  }
Qed.

Lemma children_total (K : list Z) (m : Heap) comments :
  NoDup K → (∀ p, is_Some (m !! p) → p ∈ K) →
  K ≫= (λ k, childrenOf m k comments)
  ≡ₚ id <$> filter (λ c, resolvedParent m c ≠ None) comments.
Proof.
  intros HK Hdom. induction comments as [|c comments IH].
  - unfold childrenOf. simpl. clear. induction K; csimpl; by rewrite ?IHK.
  - rewrite (bind_Permutation_ext _
               (λ k, (if decide (resolvedParent m c = Some k) then [id c] else [])
                       ++ childrenOf m k comments))
      by (intros k _; by rewrite childrenOf_cons).
    rewrite bind_app_Permutation, IH, bind_resolved by done.
    rewrite filter_cons. destruct (resolvedParent m c) as [p|] eqn:Hp.
    + rewrite (decide_True (P := Some p ≠ None)) by done.
      rewrite (decide_True (P := p ∈ K)); [done|].
      apply Hdom. by apply resolvedParent_Some in Hp as (_ & _ & ?).
    + by rewrite (decide_False (P := None ≠ None)) by naive_solver.
Qed.

(** X2: nothing is dropped by the two passes.  Whatever the input (ids
    repeated, parent links in a cycle), the references held by the roots and
    by all [replies] arrays are, taken together, the ids of the input, each
    as often as it occurs there. *)
Theorem buildCommentThreads_references comments :
  allReferences (buildCommentThreads comments) ≡ₚ id <$> comments.
Proof.
  unfold allReferences. rewrite buildCommentThreads_roots, Array_sort_Permutation.
  pose proof (buildCommentThreads_lookup comments) as Hm.
  set (heap := (buildCommentThreads comments).2) in *.
  set (m := indexComments comments) in *.
  rewrite (bind_Permutation_ext _ (λ entry, childrenOf m entry.1 comments)).
  2:{ intros [k nd] Hk%elem_of_map_to_list. rewrite Hm in Hk. simpl.
      destruct (m !! k); simplify_eq/=. apply Array_sort_Permutation. }
  replace (map_to_list heap ≫= λ entry, childrenOf m entry.1 comments)
    with ((map_to_list heap).*1 ≫= λ k, childrenOf m k comments)
    by apply list_fmap_bind.
  rewrite children_total; [|apply NoDup_fst_map_to_list|].
  2:{ intros k Hk. apply list_elem_of_fmap.
      assert (is_Some (heap !! k)) as [nd Hnd] by (by rewrite Hm, fmap_is_Some).
      exists (k, nd). split; [done|]. by apply elem_of_map_to_list. }
  unfold rootsOf. rewrite <-fmap_app. f_equiv.
  rewrite <-(filter_app_complement (λ c, resolvedParent m c = None) comments) at 3.
  done.
Qed.

(** [Array.prototype.sort] is stable: elements with the same key stay in
    the order they had. *)
Lemma insert_sorted_stable {A} (key : A → Z) (t : Z) x l :
  filter (λ y, key y = t) (insert_sorted (λ a b, key b - key a) x l)
  = filter (λ y, key y = t) (x :: l).
Proof.
  induction l as [|y l IH]; simpl; [done|].
  destruct (Z.leb_spec (key y - key x) 0) as [Hle|Hgt]; [done|].
  rewrite (filter_cons _ y), IH, !filter_cons.
  repeat case_decide; (done || lia).
Qed.

Lemma Array_sort_stable {A} (key : A → Z) (t : Z) l :
  filter (λ y, key y = t) (Array_sort (λ a b, key b - key a) l)
  = filter (λ y, key y = t) l.
Proof.
  induction l as [|x l IH]; simpl; [done|].
  by rewrite insert_sorted_stable, !filter_cons, IH.
Qed.

Lemma createdAt_sorted comments t refs :
  createdAt (buildCommentThreads comments).2 t
    (Array_sort (sortByDate (indexComments comments)) refs)
  = createdAt (buildCommentThreads comments).2 t refs.
Proof.
  unfold createdAt.
  rewrite !(list_filter_iff (λ k, getTime (buildCommentThreads comments).2 k = t)
              (λ k, getTime (indexComments comments) k = t))
    by (intros k; by rewrite ThreadClaims.getTime_buildCommentThreads).
  apply (Array_sort_stable (getTime (indexComments comments))).
Qed.

(** X3: ties keep the input order.  Among the roots, and among the replies
    of one comment, the comments created at the same instant appear in the
    order in which the input lists them. *)
Theorem buildCommentThreads_stable comments t :
  let '(roots, heap) := buildCommentThreads comments in
  createdAt heap t roots
  = createdAt heap t (rootsOf (indexComments comments) comments) ∧
  map_Forall (λ p nd,
    createdAt heap t (replies nd)
    = createdAt heap t (childrenOf (indexComments comments) p comments)) heap.
Proof.
  pose proof (buildCommentThreads_roots comments) as Hr.
  pose proof (buildCommentThreads_lookup comments) as Hm.
  pose proof (createdAt_sorted comments t) as Hs.
  destruct (buildCommentThreads comments) as [roots heap]. simpl in *. split.
  - by rewrite Hr, Hs.
  - intros p nd. rewrite Hm.
    destruct (indexComments comments !! p); intros; simplify_eq/=. apply Hs.
Qed.

(** *** The forest does not depend on the order of the input *)

Lemma indexComments_Permutation comments comments' :
  distinctIds comments → comments ≡ₚ comments' →
  indexComments comments = indexComments comments'.
Proof.
  intros Hd Hp. assert (Hd' : distinctIds comments').
  { unfold distinctIds in *. by rewrite <-Hp. }
  apply map_eq. intros k.
  destruct (decide (k ∈ id <$> comments)) as [Hk|Hk].
  - apply list_elem_of_fmap in Hk as (c & -> & Hc).
    rewrite (indexComments_lookup_distinct _ _ Hd Hc).
    rewrite (indexComments_lookup_distinct _ _ Hd'); [done|]. by rewrite <-Hp.
  - assert (indexComments comments !! k = None) as ->.
    { apply eq_None_not_Some. by rewrite indexComments_is_Some. }
    symmetry. apply eq_None_not_Some. rewrite indexComments_is_Some.
    by rewrite <-Hp.
Qed.

Lemma getTime_indexComments comments c :
  distinctIds comments → c ∈ comments →
  getTime (indexComments comments) (id c) = created_at c.
Proof.
  intros Hd Hc. unfold getTime.
  by rewrite (indexComments_lookup_distinct _ _ Hd Hc).
Qed.

(** Two sorted arrangements of the same references of input comments are
    equal when no two comments share a creation time. *)
Lemma sorted_refs_unique comments (refs refs' : list Z) :
  distinctIds comments → distinctTimes comments →
  (∀ k, k ∈ refs → k ∈ id <$> comments) → refs ≡ₚ refs' →
  Array_sort (sortByDate (indexComments comments)) refs
  = Array_sort (sortByDate (indexComments comments)) refs'.
Proof.
  intros Hd Ht Hin Hp.
  eapply (StronglySorted_unique_strong
            (λ a b, getTime (indexComments comments) b
                    ≤ getTime (indexComments comments) a)).
  - intros a b Ha%Array_sort_elem_of Hb%Array_sort_elem_of Hab Hba.
    rewrite <-Hp in Hb.
    apply Hin, list_elem_of_fmap in Ha as (ca & -> & Hca).
    apply Hin, list_elem_of_fmap in Hb as (cb & -> & Hcb).
    rewrite !getTime_indexComments in Hab, Hba by done.
    f_equal. apply (NoDup_fmap_1 created_at) in Ht as Hnd.
    assert (created_at ca = created_at cb) as Heq by lia.
    revert Ht Hca Hcb Heq. clear. unfold distinctTimes.
    induction comments as [|x l IH]; [set_solver|].
    rewrite fmap_cons, NoDup_cons, !elem_of_cons, list_elem_of_fmap.
    intros [Hx Hl] [->|Ha] [->|Hb] Heq; [done| | |by apply IH].
    + destruct Hx. exists cb. by rewrite Heq.
    + destruct Hx. exists ca. by rewrite Heq.
  - apply (Array_sort_StronglySorted (getTime (indexComments comments))).
  - apply (Array_sort_StronglySorted (getTime (indexComments comments))).
  - by rewrite !Array_sort_Permutation.
Qed.

Lemma buildCommentThreads_Permutation comments comments' :
  distinctIds comments → distinctTimes comments → comments ≡ₚ comments' →
  buildCommentThreads comments = buildCommentThreads comments'.
Proof.
  intros Hd Ht Hp.
  pose proof (indexComments_Permutation _ _ Hd Hp) as Hm.
  rewrite (surjective_pairing (buildCommentThreads comments)).
  rewrite (surjective_pairing (buildCommentThreads comments')).
  f_equal.
  - rewrite !buildCommentThreads_roots, <-Hm.
    apply sorted_refs_unique; [done..| |].
    + unfold rootsOf. intros k (c & -> & [_ ?]%list_elem_of_filter)%list_elem_of_fmap.
      by apply list_elem_of_fmap_2.
    + unfold rootsOf. by rewrite Hp.
  - apply map_eq. intros k. rewrite !buildCommentThreads_lookup, <-Hm.
    destruct (indexComments comments !! k) as [nd|]; simpl; [|done].
    do 2 f_equal. apply sorted_refs_unique; [done..| |].
    + unfold childrenOf.
      intros k' (c & -> & [_ ?]%list_elem_of_filter)%list_elem_of_fmap.
      by apply list_elem_of_fmap_2.
    + unfold childrenOf. by rewrite Hp.
Qed.

(** X4: the forest does not depend on the order of the input.  When ids are
    pairwise distinct and no two comments share a creation time, two inputs
    that list the same comments in different orders give the same roots and
    the same heap. *)
Theorem buildCommentThreads_order_independent comments comments' :
  distinctIds comments → distinctTimes comments → comments ≡ₚ comments' →
  buildCommentThreads comments = buildCommentThreads comments'.
Proof. apply buildCommentThreads_Permutation. Qed.

Lemma buildCommentThreads_order_independent_witness :
  let c1 := keyed blank 1 None 10 in
  let c2 := keyed blank 2 (Some 1) 20 in
  let c3 := keyed blank 3 None 30 in
  buildCommentThreads [c1; c2; c3] = buildCommentThreads [c3; c1; c2].
Proof.
  intros c1 c2 c3. apply buildCommentThreads_order_independent.
  - apply (bool_decide_unpack _). by vm_compute.
  - apply (bool_decide_unpack _). by vm_compute.
  - symmetry. apply (Permutation_cons_append [c1; c2] c3).
Defined.

(** X5: flattening and rebuilding is a round trip.  For a list with
    pairwise distinct ids and creation times and no parent cycle,
    [buildCommentThreads] applied to the flattening of its own result gives
    that result again. *)
Theorem rebuild_after_flatten comments fuel :
  distinctIds comments → parentLinksEnd comments → distinctTimes comments →
  (length comments ≤ fuel)%nat →
  buildCommentThreads
    (flattenAll fuel (buildCommentThreads comments).2
       (buildCommentThreads comments).1)
  = buildCommentThreads comments.
Proof.
  intros Hd He Ht Hfuel. symmetry.
  apply buildCommentThreads_Permutation; [done..|]. symmetry.
  by apply flattenAll_buildCommentThreads.
Qed.

Lemma rebuild_after_flatten_witness :
  let comments :=
    [keyed blank 1 None 10; keyed blank 2 (Some 1) 20; keyed blank 3 None 30] in
  buildCommentThreads
    (flattenAll 3 (buildCommentThreads comments).2
       (buildCommentThreads comments).1)
  = buildCommentThreads comments.
Proof.
  intros comments. apply rebuild_after_flatten.
  - apply (bool_decide_unpack _). by vm_compute.
  - intros c Hc.
    repeat (apply elem_of_cons in Hc as [->|Hc];
            [apply (bool_decide_unpack _); by vm_compute|]).
    by apply elem_of_nil in Hc.
  - apply (bool_decide_unpack _). by vm_compute.
  - simpl. lia.
Defined.

End ThreadExtras.

(** ** Adding a fetched comment *)

Module FetchExtras.
Import JS Effects CommentList ThreadObservations SortFacts ThreadFacts EffectFacts.

Lemma depth_ext comments comments' fuel k :
  indexComments comments = indexComments comments' →
  depth comments fuel k = depth comments' fuel k.
Proof.
  intros Hm. revert k. induction fuel as [|fuel IH]; intros k; simpl; [done|].
  rewrite <-Hm. destruct (indexComments comments !! k) as [nd|]; simpl; [|done].
  destruct (resolvedParent _ (fields nd)); [|done]. by rewrite IH.
Qed.

Lemma parentLinksEnd_Permutation comments comments' :
  distinctIds comments → comments ≡ₚ comments' →
  parentLinksEnd comments → parentLinksEnd comments'.
Proof.
  intros Hd Hp He c Hc. rewrite <-Hp in Hc.
  rewrite <-(depth_ext comments comments')
    by by apply ThreadExtras.indexComments_Permutation.
  rewrite <-Hp. by apply He.
Qed.

(** A new comment that nobody names as parent leaves the depths as they
    are. *)
Lemma depth_snoc comments c fuel k n :
  id c ∉ id <$> comments →
  (∀ d, d ∈ comments → parent_comment_id d ≠ Some (id c)) →
  depth comments fuel k = Some n →
  depth (comments ++ [c]) fuel k = Some n.
Proof.
  intros Hfresh Hleaf. revert k n.
  induction fuel as [|fuel IH]; intros k n; simpl; [done|].
  destruct (indexComments comments !! k) as [nd|] eqn:Hk; simpl; [|done].
  destruct (indexComments_lookup_Some _ _ _ Hk) as (_ & Hid & Hin).
  assert (k ≠ id c) as Hne.
  { intros ->. apply Hfresh. rewrite <-Hid. by apply list_elem_of_fmap_2. }
  rewrite indexComments_snoc, lookup_insert_ne, Hk by done. simpl.
  assert (resolvedParent (<[id c:=mkComment c []]> (indexComments comments))
            (fields nd)
          = resolvedParent (indexComments comments) (fields nd)) as ->.
  { unfold resolvedParent.
    destruct (parent_comment_id (fields nd)) as [p|] eqn:Hp; [|done].
    rewrite lookup_insert_ne; [done|]. intros <-. by apply (Hleaf (fields nd)). }
  destruct (resolvedParent _ (fields nd)) as [p|] eqn:Hp; [|done].
  destruct (depth comments fuel p) as [n'|] eqn:Hn'; intros; simplify_eq/=.
  by rewrite (IH p n').
Qed.

Lemma parentLinksEnd_snoc comments c :
  id c ∉ id <$> comments →
  (∀ d, d ∈ comments ++ [c] → parent_comment_id d ≠ Some (id c)) →
  parentLinksEnd comments → parentLinksEnd (comments ++ [c]).
Proof.
  intros Hfresh Hleaf He.
  assert (Hold : ∀ d, d ∈ comments →
            is_Some (depth (comments ++ [c]) (length comments) (id d))).
  { intros d Hd. destruct (He d Hd) as [n Hn]. exists n.
    apply depth_snoc; [done| |done]. intros d' Hd'. apply Hleaf. set_solver. }
  intros d Hd. rewrite length_app. simpl.
  apply elem_of_app in Hd as [Hd|Hd].
  - destruct (Hold d Hd) as [n Hn]. exists n.
    apply (depth_mono _ (length comments)); [done|lia].
  - apply list_elem_of_singleton in Hd as ->.
    replace (length comments + 1)%nat with (S (length comments)) by lia.
    cbn [depth]. rewrite indexComments_snoc, lookup_insert_eq. simpl.
    destruct (resolvedParent _ c) as [p|] eqn:Hp; [|by eexists].
    apply resolvedParent_Some in Hp as (Hparent & _ & Hsome).
    rewrite lookup_insert_ne in Hsome
      by (intros <-; apply (Hleaf c); [set_solver|done]).
    destruct Hsome as [nd Hnd].
    destruct (indexComments_lookup_Some _ _ _ Hnd) as (_ & <- & Hin).
    destruct (Hold _ Hin) as [n ->]. by eexists.
Qed.

(** The heap has an object for each of the distinct ids. *)
Lemma length_le_size_heap comments :
  distinctIds comments →
  (length comments ≤ size (buildCommentThreads comments).2)%nat.
Proof.
  intros Hd. rewrite <-length_map_to_list, <-(length_fmap id comments).
  rewrite <-(length_fmap fst (map_to_list _)).
  apply submseteq_length, NoDup_submseteq; [done|].
  intros k Hk. apply list_elem_of_fmap.
  assert (is_Some ((buildCommentThreads comments).2 !! k)) as [nd Hnd].
  { rewrite buildCommentThreads_lookup, fmap_is_Some.
    by apply indexComments_is_Some. }
  exists (k, nd). split; [done|]. by apply elem_of_map_to_list.
Qed.

(** The state [fetchAndAddComment] leaves, by the answer of its query. *)
Lemma fetchAndAddComment_runs commentId st trace st' :
  runs (fetchAndAddComment commentId st) trace st' →
  ∃ ev data error,
    ev ∈ trace ∧ fetchAnswer ev = Some (data, error) ∧
    (∀ ev', ev' ∈ trace → is_Some (fetchAnswer ev') → ev' = ev) ∧
    st' = match error, data with
          | None, Some c =>
              let flat :=
                flattenAll (S (size (comments st).2)) (comments st).2
                  (comments st).1 in
              if bool_decide (Exists (λ d, id d = id c) flat) then st
              else setComments (buildCommentThreads (flat ++ [c])) st
          | _, _ => st
          end.
Proof.
  assert (Heta : setComments (comments st) st = st) by by destruct st.
  simpl. intros ([] & t1 & -> & [data error] & t2 & -> & Hrest).
  exists (Ev (SelectComment commentId) (data, error)), data, error.
  destruct error as [message|]; simpl in Hrest.
  { destruct Hrest as ([] & t3 & -> & -> & ->).
    split_and!; [set_solver|done| |done].
    intros ev' Hev' [? Hans].
    repeat (apply elem_of_cons in Hev' as [->|Hev']; [done|]).
    by apply elem_of_nil in Hev'. }
  destruct (comments st) as [threads heap] eqn:Hc. simpl in *.
  destruct data as [c|]; simpl in Hrest.
  - destruct (bool_decide _); simpl in Hrest;
      destruct Hrest as ([] & t3 & -> & -> & ->).
    all: split_and!; [set_solver|done| |done].
    all: intros ev' Hev' [? Hans].
    all: repeat (apply elem_of_cons in Hev' as [->|Hev']; [done|]).
    all: by apply elem_of_nil in Hev'.
  - destruct Hrest as ([] & t3 & -> & -> & ->).
    split_and!; [set_solver|done| |done].
    intros ev' Hev' [? Hans].
    repeat (apply elem_of_cons in Hev' as [->|Hev']; [done|]).
    by apply elem_of_nil in Hev'.
Qed.

Lemma flat_shown st comments :
  shows st comments →
  flattenAll (S (size (CommentList.comments st).2)) (CommentList.comments st).2
    (CommentList.comments st).1 ≡ₚ comments.
Proof.
  intros (-> & Hd & He). apply flattenAll_buildCommentThreads; [done..|].
  pose proof (length_le_size_heap comments Hd). lia.
Qed.

(** X6: a fetch that brings nothing new changes nothing.  From a state that
    shows a well-formed list, a run of [fetchAndAddComment] whose query
    fails, finds no row, or returns a comment whose id is already shown
    hands back the state unchanged: no comment is shown twice. *)
Theorem fetchAndAddComment_nothing_new
    commentId st comments trace st' ev data error :
  shows st comments →
  runs (fetchAndAddComment commentId st) trace st' →
  ev ∈ trace → fetchAnswer ev = Some (data, error) →
  is_Some error ∨ data = None ∨
    (∃ c, data = Some c ∧ id c ∈ id <$> comments) →
  st' = st.
Proof.
  intros Hshows Hruns Hev Hans Hcase.
  destruct (fetchAndAddComment_runs _ _ _ _ Hruns)
    as (ev0 & data0 & error0 & _ & Hans0 & Huniq & ->).
  rewrite (Huniq ev Hev) in Hans by by rewrite Hans. simplify_eq.
  destruct error as [message|]; [done|]. destruct data as [c|]; [|done].
  destruct Hcase as [[? ?]|[?|(c' & ? & Hin)]]; [done..|]. simplify_eq.
  simpl. rewrite bool_decide_true; [done|].
  apply Exists_exists. apply list_elem_of_fmap in Hin as (d & Hid & Hd).
  exists d. split; [|done]. by rewrite (flat_shown st comments).
Qed.

Lemma fetchAndAddComment_nothing_new_witness :
  let known := keyed blank 2 (Some 1) 20 in
  (exec (fetching (Some known, None)) (fetchAndAddComment 2 showingTwo)).2
  = showingTwo.
Proof.
  intros known.
  pose (run := exec (fetching (Some known, None))
                 (fetchAndAddComment 2 showingTwo)).
  apply (fetchAndAddComment_nothing_new 2 showingTwo
           [keyed blank 1 None 10; known] run.1 run.2
           (Ev (SelectComment 2) (Some known, None)) (Some known) None).
  - split_and!; [done|apply (bool_decide_unpack _); by vm_compute|].
    intros c Hc.
    repeat (apply elem_of_cons in Hc as [->|Hc];
            [apply (bool_decide_unpack _); by vm_compute|]).
    by apply elem_of_nil in Hc.
  - apply exec_runs.
  - right. left.
  - reflexivity.
  - do 2 right. exists known. split; [done|]. set_solver.
Defined.

(** X7: a fetched comment is added without loss.  From a state that shows a
    well-formed list, when the query returns a comment whose id is new and
    which no comment (itself included) names as parent, the new state shows
    a well-formed list made of the old comments and the new one. *)
Theorem fetchAndAddComment_adds commentId st comments trace st' ev c :
  shows st comments →
  runs (fetchAndAddComment commentId st) trace st' →
  ev ∈ trace → fetchAnswer ev = Some (Some c, None) →
  id c ∉ id <$> comments →
  (∀ d, d ∈ comments ++ [c] → parent_comment_id d ≠ Some (id c)) →
  ∃ comments', comments' ≡ₚ comments ++ [c] ∧ shows st' comments'.
Proof.
  intros Hshows Hruns Hev Hans Hfresh Hleaf.
  destruct (fetchAndAddComment_runs _ _ _ _ Hruns)
    as (ev0 & data0 & error0 & _ & Hans0 & Huniq & ->).
  rewrite (Huniq ev Hev) in Hans by by rewrite Hans. simplify_eq.
  pose proof (flat_shown st comments Hshows) as Hflat.
  destruct Hshows as (_ & Hd & He). simpl.
  set (flat := flattenAll _ _ _) in *.
  rewrite bool_decide_false.
  2:{ intros (d & Hin & Hid)%Exists_exists. apply Hfresh. rewrite <-Hid.
      apply list_elem_of_fmap_2. by rewrite <-Hflat. }
  exists (flat ++ [c]). split; [by rewrite Hflat|].
  assert (Hdflat : distinctIds flat) by (unfold distinctIds; by rewrite Hflat).
  split_and!; [by destruct st| |].
  - unfold distinctIds in *. rewrite fmap_app. apply NoDup_app.
    split_and!; [done| |apply NoDup_singleton].
    intros k Hk ->%list_elem_of_singleton. apply Hfresh. by rewrite <-Hflat.
  - apply parentLinksEnd_snoc.
    + by rewrite Hflat.
    + intros d Hd'. apply Hleaf. by rewrite <-Hflat.
    + by apply (parentLinksEnd_Permutation comments).
Qed.

Lemma fetchAndAddComment_adds_witness :
  let fresh := keyed blank 3 (Some 2) 30 in
  ∃ comments',
    comments' ≡ₚ [keyed blank 1 None 10; keyed blank 2 (Some 1) 20] ++ [fresh] ∧
    shows (exec (fetching (Some fresh, None))
             (fetchAndAddComment 3 showingTwo)).2 comments'.
Proof.
  intros fresh.
  pose (run := exec (fetching (Some fresh, None))
                 (fetchAndAddComment 3 showingTwo)).
  apply (fetchAndAddComment_adds 3 showingTwo
           [keyed blank 1 None 10; keyed blank 2 (Some 1) 20] run.1 run.2
           (Ev (SelectComment 3) (Some fresh, None)) fresh).
  - split_and!; [done|apply (bool_decide_unpack _); by vm_compute|].
    intros c Hc.
    repeat (apply elem_of_cons in Hc as [->|Hc];
            [apply (bool_decide_unpack _); by vm_compute|]).
    by apply elem_of_nil in Hc.
  - apply exec_runs.
  - right. left.
  - reflexivity.
  - apply (bool_decide_unpack _). by vm_compute.
  - intros d Hd.
    repeat (apply elem_of_cons in Hd as [->|Hd]; [done|]).
    by apply elem_of_nil in Hd.
Defined.

End FetchExtras.

(** ** Submitting a comment *)

Module SubmitExtras.
Import JS Effects CommentList ThreadObservations EffectFacts CommentListClaims.

(** Every run of [handleSubmitComment], written out: the state it leaves
    and the calls it makes, by the answer of the insert. *)
Lemma handleSubmitComment_cases props user parentId st trace st' :
  runs (handleSubmitComment props user parentId st) trace st' →
  (trace = [Ev PreventDefault (); Ev StopPropagation ()] ∧ st' = st ∧
   (∀ text, commentText parentId st = Some text → allWhiteSpace text = true)) ∨
  ∃ text data error rest,
    commentText parentId st = Some text ∧ allWhiteSpace text = false ∧
    trace = Ev PreventDefault () :: Ev StopPropagation ()
            :: Ev (ConsoleLog "Submitting comment data:") ()
            :: Ev (InsertComment (commentData props user parentId text st))
                  (data, error)
            :: rest ∧
    Forall (λ ev, insertAnswer ev = None ∧ insertedRow ev = None) rest ∧
    st' = match error, data with
          | None, Some _ =>
              match parentId with
              | Some p =>
                  if truthy parentId then
                    setReplyingToCommentId None
                      (setReplyInputs
                         (match replyInputs st !! p with
                          | Some _ => <[p := []]> (replyInputs st)
                          | None => replyInputs st
                          end)
                         (setIsSubmitting false st))
                  else setIsAnonymous false
                         (setNewComment [] (setIsSubmitting false st))
              | None => setIsAnonymous false
                          (setNewComment [] (setIsSubmitting false st))
              end
          | _, _ => setIsSubmitting false st
          end.
Proof.
  unfold handleSubmitComment. simpl.
  intros ([] & t & -> & [] & t0 & -> & Hruns). revert Hruns.
  destruct (commentText parentId st) as [text|] eqn:Htext; simpl;
    [|intros [-> ->]; by left].
  rewrite submit_guard. destruct (allWhiteSpace text) eqn:Hws; simpl.
  { intros [-> ->]. left. split_and!; [done..|]. by intros ? [= <-]. }
  intros ([] & t1 & -> & [data error] & t2 & -> & Hrest). right.
  exists text, data, error, t2. split_and!; [done..| |].
  - destruct error as [msg|], data as [d|]; simpl in Hrest.
    + destruct Hrest as ([] & t3 & -> & -> & _). by repeat constructor.
    + destruct Hrest as ([] & t3 & -> & -> & _). by repeat constructor.
    + destruct Hrest as ([] & t3 & -> & Hrest).
      destruct parentId as [p|]; [destruct (truthy (Some p))|];
        destruct Hrest as [-> _]; by repeat constructor.
    + destruct Hrest as [-> _]. constructor.
  - destruct error as [msg|], data as [d|]; simpl in Hrest.
    + by destruct Hrest as ([] & t3 & -> & -> & ->).
    + by destruct Hrest as ([] & t3 & -> & -> & ->).
    + destruct Hrest as ([] & t3 & -> & Hrest).
      destruct parentId as [p|]; [destruct (truthy (Some p))|];
        by destruct Hrest as [-> ->].
    + by destruct Hrest as [-> ->].
Qed.

(** X8: submitting never touches what is shown.  Every run of
    [handleSubmitComment] leaves the comment threads, the loading flag and
    the admin flag as they were (there is no optimistic update), and a run
    that made an insert ends with the submitting flag off. *)
Theorem handleSubmitComment_frame props user parentId st trace st' :
  runs (handleSubmitComment props user parentId st) trace st' →
  comments st' = comments st ∧ isLoading st' = isLoading st ∧
  isAdmin st' = isAdmin st ∧
  isSubmitting st' = match omap insertedRow trace with
                     | [] => isSubmitting st
                     | _ => false
                     end.
Proof.
  intros [(-> & -> & _)|(text & data & error & rest & _ & _ & -> & _ & ->)]
    %handleSubmitComment_cases; [done|].
  destruct error as [msg|], data as [d|]; [done..| |done].
  destruct parentId as [p|]; [destruct (truthy (Some p))|]; done.
Qed.

Lemma handleSubmitComment_frame_witness :
  let st := setNewComment (codeUnits "hi") idle in
  let run := exec (inserting sampleComment)
               (handleSubmitComment (mkProps (Some 1) None) None None st) in
  comments run.2 = comments st ∧ isLoading run.2 = isLoading st ∧
  isAdmin run.2 = isAdmin st ∧
  isSubmitting run.2 = match omap insertedRow run.1 with
                       | [] => isSubmitting st
                       | _ => false
                       end.
Proof.
  intros st run.
  apply (handleSubmitComment_frame (mkProps (Some 1) None) None None st).
  apply exec_runs.
Defined.

Lemma trimStart_idem s : trimStart (trimStart s) = trimStart s.
Proof.
  induction s as [|c s IH]; simpl; [done|].
  destruct (isWhiteSpace c) eqn:Hc; [done|]. simpl. by rewrite Hc.
Qed.

Lemma trimEnd_idem s : trimEnd (trimEnd s) = trimEnd s.
Proof.
  induction s as [|c s IH]; simpl; [done|].
  destruct (trimEnd s) as [|c' t] eqn:Ht.
  - destruct (isWhiteSpace c) eqn:Hc; [done|]. simpl. by rewrite Hc.
  - change (trimEnd (c :: c' :: t))
      with (match trimEnd (c' :: t) with
            | [] => if isWhiteSpace c then [] else [c]
            | t' => c :: t'
            end).
    by rewrite IH.
Qed.

Lemma trimStart_length s : (length (trimStart s) ≤ length s)%nat.
Proof.
  induction s as [|c s IH]; simpl; [done|].
  destruct (isWhiteSpace c); simpl; lia.
Qed.

Lemma trimStart_trimEnd s :
  trimStart s = s → trimStart (trimEnd s) = trimEnd s.
Proof.
  destruct s as [|c s]; [done|]. simpl.
  destruct (isWhiteSpace c) eqn:Hc.
  - intros Hs. pose proof (trimStart_length s) as Hle.
    rewrite Hs in Hle. simpl in Hle. lia.
  - intros _. destruct (trimEnd s); simpl; by rewrite Hc.
Qed.

(** X9: what is stored is trimmed.  The content of every row that
    [handleSubmitComment] inserts is not empty and has no white space at
    either end. *)
Theorem inserted_content_trimmed props user parentId st trace st' ev row :
  runs (handleSubmitComment props user parentId st) trace st' →
  ev ∈ trace → insertedRow ev = Some row →
  new_content row ≠ [] ∧
  trimStart (new_content row) = new_content row ∧
  trimEnd (new_content row) = new_content row.
Proof.
  intros Hruns Hev Hrow.
  destruct (handleSubmitComment_inserts _ _ _ _ _ _ _ _ Hruns Hev Hrow)
    as (text & _ & Hws & ->).
  simpl. unfold trim. split_and!.
  - intros Hempty. apply trim_empty in Hempty. congruence.
  - apply trimStart_trimEnd, trimStart_idem.
  - apply trimEnd_idem.
Qed.

Lemma inserted_content_trimmed_witness :
  let row := mkCommentInsert (codeUnits "hi  there") None None (Some 1) None in
  new_content row ≠ [] ∧
  trimStart (new_content row) = new_content row ∧
  trimEnd (new_content row) = new_content row.
Proof.
  intros row.
  pose (st := setNewComment
                (0x3000 :: 0x2003 :: codeUnits " hi  there" ++ [0xA; 0xFEFF])
                idle).
  pose (run := exec (inserting sampleComment)
                 (handleSubmitComment (mkProps (Some 1) None) None None st)).
  apply (inserted_content_trimmed (mkProps (Some 1) None) None None st
           run.1 run.2 (Ev (InsertComment row) (Some sampleComment, None))).
  - apply exec_runs.
  - do 3 right. left.
  - reflexivity.
Defined.

(** Where the answer of the insert is found in a run. *)
Lemma insertAnswer_cases props user parentId st trace st' ev data error :
  runs (handleSubmitComment props user parentId st) trace st' →
  ev ∈ trace → insertAnswer ev = Some (data, error) →
  ∃ text,
    commentText parentId st = Some text ∧
    st' = match error, data with
          | None, Some _ =>
              match parentId with
              | Some p =>
                  if truthy parentId then
                    setReplyingToCommentId None
                      (setReplyInputs
                         (match replyInputs st !! p with
                          | Some _ => <[p := []]> (replyInputs st)
                          | None => replyInputs st
                          end)
                         (setIsSubmitting false st))
                  else setIsAnonymous false
                         (setNewComment [] (setIsSubmitting false st))
              | None => setIsAnonymous false
                          (setNewComment [] (setIsSubmitting false st))
              end
          | _, _ => setIsSubmitting false st
          end.
Proof.
  intros [(-> & -> & _)|(text & data0 & error0 & rest & Htext & _ & -> & Hrest & ->)]
    %handleSubmitComment_cases Hev Hans.
  - repeat (apply elem_of_cons in Hev as [->|Hev]; [done|]).
    by apply elem_of_nil in Hev.
  - exists text. split; [done|].
    do 3 (apply elem_of_cons in Hev as [->|Hev]; [done|]).
    apply elem_of_cons in Hev as [->|Hev]; [by simplify_eq/=|].
    rewrite Forall_forall in Hrest. destruct (Hrest ev Hev). congruence.
Qed.





(** X12: a top-level comment obeys the anonymous checkbox.  For a logged-in
    user and a parent id that is null or 0, the inserted row carries no user
    id when the checkbox is set and the user's id when it is not; the
    category and item of the page are attached when they are not 0. *)
Theorem top_level_identity props u parentId st trace st' ev row :
  truthy parentId = false →
  runs (handleSubmitComment props (Some u) parentId st) trace st' →
  ev ∈ trace → insertedRow ev = Some row →
  new_user_id row = (if isAnonymous st then None else Some (uid u)) ∧
  new_parent_comment_id row = parentId ∧
  new_category_id row
  = (if truthy (categoryId props) then categoryId props else None) ∧
  new_item_id row = (if truthy (itemId props) then itemId props else None).
Proof.
  intros Hp Hruns Hev Hrow.
  destruct (handleSubmitComment_inserts _ _ _ _ _ _ _ _ Hruns Hev Hrow)
    as (text & _ & _ & ->).
  unfold commentData, postAnonymously. simpl. rewrite Hp.
  by destruct (isAnonymous st).
Qed.

Lemma top_level_identity_witness :
  let row := mkCommentInsert (codeUnits "hi") None None (Some 1) None in
  let st := setIsAnonymous true (setNewComment (codeUnits "hi") idle) in
  new_user_id row = (if isAnonymous st then None else Some (uid alice)) ∧
  new_parent_comment_id row = None ∧
  new_category_id row = Some 1 ∧
  new_item_id row = None.
Proof.
  intros row st.
  pose (run := exec rejecting
                 (handleSubmitComment (mkProps (Some 1) (Some 0)) (Some alice)
                    None st)).
  apply (top_level_identity (mkProps (Some 1) (Some 0)) alice None st
           run.1 run.2 (Ev (InsertComment row) (None, Some "rejected"))).
  - reflexivity.
  - apply exec_runs.
  - do 3 right. left.
  - reflexivity.
Defined.

End SubmitExtras.

(** ** [AdminProofsManager] *)

Module ProofExtras.
Import JS Effects AdminProofsManager ProofObservations EffectFacts StringFacts.

#[local] Arguments uploadPath : simpl never.
#[local] Arguments proofFilePath : simpl never.

(** Every run of [handleUploadProof], by the place where it ends. *)
Lemma handleUploadProof_cases st trace st' :
  runs (handleUploadProof st) trace st' →
  (selectedFile st = None ∧ trace = [Ev PreventDefault ()] ∧
   st' = setError (Some "Please select an image file to upload.") st) ∨
  ∃ file now,
    selectedFile st = Some file ∧
    let path := uploadPath now file in
    let start := [Ev PreventDefault (); Ev DateNow now] in
    let report := [Ev (Console Error "Error during proof upload:") ()] in
    (∃ message,
       trace = start ++ Ev (StorageUpload PROOF_IMAGE_BUCKET path file) (Some message)
                 :: report ∧
       st' = failedUpload ("Image Upload Error: " +:+ message) st) ∨
    (∃ urlData,
       (urlData = None ∨ urlData = Some EmptyString) ∧
       trace = start ++ Ev (StorageUpload PROOF_IMAGE_BUCKET path file) None
                 :: Ev (StorageGetPublicUrl PROOF_IMAGE_BUCKET path) urlData
                 :: report ∧
       st' = failedUpload "Could not get public URL for uploaded image." st) ∨
    (∃ publicUrl message r,
       publicUrl ≠ EmptyString ∧
       trace = start ++ Ev (StorageUpload PROOF_IMAGE_BUCKET path file) None
                 :: Ev (StorageGetPublicUrl PROOF_IMAGE_BUCKET path) (Some publicUrl)
                 :: Ev (InsertProof publicUrl (dateToStore st)) (Some message)
                 :: Ev (StorageRemove PROOF_IMAGE_BUCKET [path]) r
                 :: report ∧
       st' = failedUpload ("DB Insert Error: " +:+ message) st) ∨
    (∃ publicUrl data fetchError,
       publicUrl ≠ EmptyString ∧
       trace = start ++ Ev (StorageUpload PROOF_IMAGE_BUCKET path file) None
                 :: Ev (StorageGetPublicUrl PROOF_IMAGE_BUCKET path) (Some publicUrl)
                 :: Ev (InsertProof publicUrl (dateToStore st)) None
                 :: Ev (Console Log "Proof uploaded and linked successfully:") ()
                 :: Ev SelectProofs (data, fetchError)
                 :: match fetchError with
                    | Some _ => [Ev (Console Error "Error loading proofs:") ()]
                    | None => []
                    end ∧
       st' = uploaded data fetchError st).
Proof.
  unfold handleUploadProof.
  destruct (selectedFile st) as [file|] eqn:Hfile; simpl.
  2:{ intros ([] & t0 & -> & -> & ->). by left. }
  intros ([] & t0 & -> & now & t1 & -> & uploadError & t2 & -> & Hrest).
  right. exists file, now. split; [done|]. simpl.
  fold (uploadPath now file) in *.
  destruct uploadError as [uploadMessage|]; simpl in Hrest.
  { destruct Hrest as ([] & t3 & -> & -> & ->). left. by exists uploadMessage. }
  destruct Hrest as (urlData & t3 & -> & Hrest). right.
  destruct urlData as [publicUrl|]; simpl in Hrest.
  2:{ destruct Hrest as ([] & t4 & -> & -> & ->). left. exists None. auto. }
  destruct (nonEmpty publicUrl) eqn:Hurl; simpl in Hrest.
  2:{ destruct Hrest as ([] & t4 & -> & -> & ->). left. exists (Some publicUrl).
      destruct publicUrl; [auto|done]. }
  assert (publicUrl ≠ EmptyString) by (by destruct publicUrl).
  right. destruct Hrest as (insertError & t4 & -> & Hrest).
  destruct insertError as [insertMessage|]; simpl in Hrest.
  - destruct Hrest as (r & t5 & -> & [] & t6 & -> & -> & ->).
    left. by exists publicUrl, insertMessage, r.
  - destruct Hrest as ([] & t5 & -> & [data fetchError] & t6 & -> & Hrest).
    right. exists publicUrl, data, fetchError. split; [done|].
    unfold uploaded.
    destruct fetchError as [fetchMessage|]; simpl in Hrest.
    + destruct Hrest as ([] & t7 & -> & -> & ->). simpl.
      by destruct (fileInput st).
    + destruct Hrest as [-> ->]. simpl. by destruct (fileInput st).
Qed.

(** X13: a failed upload keeps the form.  In a run of [handleUploadProof] in
    which no insert was answered without an error (no file chosen, upload
    refused, no public URL, insert refused), the proofs listed, the file
    chosen, the date typed and the loading flag are as before, the list is
    not fetched again, and an error message is shown. *)
Theorem failed_upload_keeps_form st trace st' :
  runs (handleUploadProof st) trace st' →
  (None ∉ omap insertAnswer trace) →
  proofs st' = proofs st ∧ selectedFile st' = selectedFile st ∧
  proofDate st' = proofDate st ∧ fileInput st' = fileInput st ∧
  isLoading st' = isLoading st ∧
  is_Some (error st') ∧ omap selectAnswer trace = [].
Proof.
  intros [(_ & -> & ->)|(file & now & _ & Hcases)]%handleUploadProof_cases Hfail.
  { by split_and!. }
  simpl in Hcases.
  destruct Hcases as [(message & -> & ->)|[(urlData & _ & -> & ->)|
    [(publicUrl & message & r & _ & -> & ->)|
     (publicUrl & data & fetchError & _ & -> & _)]]]; [by split_and!..|].
  exfalso. apply Hfail. simpl. set_solver.
Qed.

Lemma failed_upload_keeps_form_witness :
  let st' := (exec refusingStorage (handleUploadProof withFile)).2 in
  proofs st' = proofs withFile ∧ selectedFile st' = selectedFile withFile ∧
  proofDate st' = proofDate withFile ∧ fileInput st' = fileInput withFile ∧
  isLoading st' = isLoading withFile ∧
  is_Some (error st') ∧
  omap selectAnswer (exec refusingStorage (handleUploadProof withFile)).1 = [].
Proof.
  apply (failed_upload_keeps_form withFile).
  - apply exec_runs.
  - apply (bool_decide_unpack _). by vm_compute.
Defined.

(** X14: a successful upload resets the form and reloads the list.  In a run
    of [handleUploadProof] whose insert was answered without an error, no
    storage delete is made, the list is fetched exactly once after the
    insert, and at the end the file chosen and the date are cleared, the
    uploading and loading flags are off, and the proofs listed are those the
    fetch returned (the former list if the fetch failed). *)
Theorem successful_upload_reloads st trace st' :
  runs (handleUploadProof st) trace st' →
  None ∈ omap insertAnswer trace →
  omap removeCall trace = [] ∧
  selectedFile st' = None ∧ proofDate st' = EmptyString ∧
  isUploading st' = false ∧ isLoading st' = false ∧
  ∃ data fetchError,
    omap selectAnswer trace = [(data, fetchError)] ∧
    proofs st' = match fetchError with
                 | Some _ => proofs st
                 | None => default [] data
                 end ∧
    error st' = fetchError.
Proof.
  intros [(_ & -> & ->)|(file & now & _ & Hcases)]%handleUploadProof_cases Hok.
  { simpl in Hok. set_solver. }
  simpl in Hcases.
  destruct Hcases as [(message & -> & ->)|[(urlData & _ & -> & ->)|
    [(publicUrl & message & r & _ & -> & ->)|
     (publicUrl & data & fetchError & _ & -> & ->)]]];
    [simpl in Hok; set_solver..|].
  unfold uploaded.
  destruct fetchError as [fetchMessage|]; simpl;
    (split_and!; [by destruct (fileInput st)..|]);
    eexists _, _; (split_and!; [done|by destruct (fileInput st)..]).
Qed.

Lemma successful_upload_reloads_witness :
  let run := exec accepting (handleUploadProof withFile) in
  omap removeCall run.1 = [] ∧
  selectedFile run.2 = None ∧ proofDate run.2 = EmptyString ∧
  isUploading run.2 = false ∧ isLoading run.2 = false ∧
  ∃ data fetchError,
    omap selectAnswer run.1 = [(data, fetchError)] ∧
    proofs run.2 = match fetchError with
                   | Some _ => proofs withFile
                   | None => default [] data
                   end ∧
    error run.2 = fetchError.
Proof.
  apply (successful_upload_reloads withFile).
  - apply exec_runs.
  - apply (bool_decide_unpack _). by vm_compute.
Defined.

(** X15: the row points at the uploaded object.  Every insert made by
    [handleUploadProof] comes after an upload of the chosen file that was
    answered without an error, to the path [proof-<now>.<ext>] in the bucket
    of proofs; its [image_url] is the non-empty public URL the storage gave
    for that same path, and its [proof_date] is the date typed, or null when
    none was typed. *)
Theorem insert_follows_upload st trace st' ev image_url proof_date :
  runs (handleUploadProof st) trace st' →
  ev ∈ trace → insertCall ev = Some (image_url, proof_date) →
  ∃ file now before after,
    selectedFile st = Some file ∧
    trace = before ++ [Ev (StorageUpload PROOF_IMAGE_BUCKET (uploadPath now file) file) None;
                       Ev (StorageGetPublicUrl PROOF_IMAGE_BUCKET (uploadPath now file))
                          (Some image_url);
                       ev] ++ after ∧
    Ev DateNow now ∈ before ∧
    image_url ≠ EmptyString ∧
    proof_date = dateToStore st.
Proof.
  intros [(_ & -> & ->)|(file & now & Hfile & Hcases)]%handleUploadProof_cases
    Hev Hins.
  { apply list_elem_of_singleton in Hev as ->. done. }
  simpl in Hcases.
  destruct Hcases as [(message & -> & ->)|[(urlData & _ & -> & ->)|
    [(publicUrl & message & r & Hurl & -> & ->)|
     (publicUrl & data & fetchError & Hurl & -> & ->)]]].
  - repeat (apply elem_of_cons in Hev as [->|Hev]; [done|]).
    by apply elem_of_nil in Hev.
  - repeat (apply elem_of_cons in Hev as [->|Hev]; [done|]).
    by apply elem_of_nil in Hev.
  - exists file, now, [Ev PreventDefault (); Ev DateNow now].
    do 4 (apply elem_of_cons in Hev as [->|Hev]; [done|]).
    apply elem_of_cons in Hev as [->|Hev].
    + simplify_eq/=. eexists. split_and!; [done..|set_solver|done|done].
    + repeat (apply elem_of_cons in Hev as [->|Hev]; [done|]).
      by apply elem_of_nil in Hev.
  - exists file, now, [Ev PreventDefault (); Ev DateNow now].
    do 4 (apply elem_of_cons in Hev as [->|Hev]; [done|]).
    apply elem_of_cons in Hev as [->|Hev].
    + simplify_eq/=. eexists. split_and!; [done..|set_solver|done|done].
    + do 2 (apply elem_of_cons in Hev as [->|Hev]; [done|]).
      destruct fetchError;
        repeat (apply elem_of_cons in Hev as [->|Hev]; [done|]);
        by apply elem_of_nil in Hev.
Qed.

Lemma insert_follows_upload_witness :
  let trace := (exec accepting (handleUploadProof withFile)).1 in
  let url := "https://x.supabase.co/storage/v1/object/public/proof-images/proof-1714000000000.png" in
  let ev := Ev (InsertProof url (Some "2025-05-01")) None in
  ∃ file now before after,
    selectedFile withFile = Some file ∧
    trace = before ++ [Ev (StorageUpload PROOF_IMAGE_BUCKET (uploadPath now file) file) None;
                       Ev (StorageGetPublicUrl PROOF_IMAGE_BUCKET (uploadPath now file))
                          (Some url);
                       ev] ++ after ∧
    Ev DateNow now ∈ before ∧
    url ≠ EmptyString ∧
    Some "2025-05-01" = dateToStore withFile.
Proof.
  intros trace url ev.
  apply (insert_follows_upload withFile trace
           (exec accepting (handleUploadProof withFile)).2 ev).
  - apply exec_runs.
  - vm_compute. do 4 right. left.
  - reflexivity.
Defined.

(** *** The extension of the uploaded file *)

Lemma split_no_sep sep s : sep ∉ chars s → split sep s = [s].
Proof.
  induction s as [|c s IH]; simpl; [done|]. intros Hs.
  rewrite decide_False by set_solver. rewrite IH by set_solver. done.
Qed.

Lemma split_singleton sep s part : split sep s = [part] → sep ∉ chars s.
Proof.
  revert part. induction s as [|c s IH]; intros part; simpl; [set_solver|].
  pose proof (split_nonempty sep s) as Hne.
  destruct (decide (c = sep)) as [->|Hc].
  - intros [= _ Hs]. done.
  - destruct (split sep s) as [|part' parts] eqn:Hs; [done|].
    intros [= _ ->]. specialize (IH _ eq_refl). set_solver.
Qed.

Lemma pop_cons part parts :
  parts ≠ [] → pop (part :: parts) = pop parts.
Proof. unfold pop. by destruct parts. Qed.

Lemma pop_split_no_sep sep s : sep ∉ chars (pop (split sep s)).
Proof.
  induction s as [|c s IH]; simpl; [set_solver|].
  pose proof (split_nonempty sep s) as Hne.
  destruct (decide (c = sep)) as [->|Hc]; [by rewrite pop_cons|].
  destruct (split sep s) as [|part parts] eqn:Hs; [done|].
  destruct parts as [|part' parts].
  - unfold pop in *. simpl in *. set_solver.
  - by rewrite !pop_cons in * by done.
Qed.

Lemma pop_split_after_sep sep s :
  sep ∈ chars s → ∃ stem, s = stem +:+ String sep (pop (split sep s)).
Proof.
  induction s as [|c s IH]; simpl; [set_solver|].
  pose proof (split_nonempty sep s) as Hne.
  destruct (decide (c = sep)) as [->|Hc].
  - intros _. rewrite pop_cons by done.
    destruct (decide (sep ∈ chars s)) as [Hin|Hout].
    + destruct (IH Hin) as [stem Hstem]. exists (String sep stem).
      by rewrite append_cons, <-Hstem.
    + exists EmptyString. by rewrite split_no_sep.
  - intros Hin. assert (sep ∈ chars s) as Hs by set_solver.
    destruct (IH Hs) as [stem Hstem]. exists (String c stem).
    rewrite append_cons.
    destruct (split sep s) as [|part parts] eqn:Hsplit; [done|].
    destruct parts as [|part' parts].
    + by apply split_singleton in Hsplit.
    + rewrite !pop_cons in * by done. by rewrite <-Hstem.
Qed.

Lemma uploadPath_extension now file :
  ∃ ext,
    uploadPath now file = "proof-" +:+ pretty now +:+ "." +:+ ext ∧
    (dot ∉ chars ext) ∧
    if decide (dot ∈ chars (name file))
    then ∃ stem, name file = stem +:+ "." +:+ ext
    else ext = name file.
Proof.
  exists (pop (split "." (name file))). split_and!; [done|apply pop_split_no_sep|].
  destruct (decide _) as [Hin|Hout].
  - by apply pop_split_after_sep.
  - by rewrite split_no_sep.
Qed.

(** X16: the extension of the uploaded object.  Every upload a run of
    [handleUploadProof] makes is of the chosen file, into the bucket of
    proofs, and to a path made of [proof-], the answer of the [Date.now()]
    of that run, a dot, and an extension that has no dot in it: what follows
    the last dot of the file name or, for a file name without a dot, the
    whole file name. *)
Theorem upload_extension st trace st' ev bucket path file :
  runs (handleUploadProof st) trace st' →
  ev ∈ trace → uploadCall ev = Some (bucket, path, file) →
  bucket = PROOF_IMAGE_BUCKET ∧ selectedFile st = Some file ∧
  ∃ now ext,
    Ev DateNow now ∈ trace ∧
    path = "proof-" +:+ pretty now +:+ "." +:+ ext ∧
    (dot ∉ chars ext) ∧
    if decide (dot ∈ chars (name file))
    then ∃ stem, name file = stem +:+ "." +:+ ext
    else ext = name file.
Proof.
  intros [(_ & -> & ->)|(file' & now & Hfile & Hcases)]%handleUploadProof_cases
    Hev Hup.
  { apply list_elem_of_singleton in Hev as ->. done. }
  simpl in Hcases.
  assert (Ev (DateNow) now ∈ trace ∧
          ev ∈ trace ∧
          ∀ ev', ev' ∈ trace → is_Some (uploadCall ev') →
                 uploadCall ev'
                 = Some (PROOF_IMAGE_BUCKET, uploadPath now file', file'))
    as (Hnow & _ & Huniq).
  { split_and!; [|done|].
    - destruct Hcases as [(message & -> & _)|[(urlData & _ & -> & _)|
        [(publicUrl & message & r & _ & -> & _)|
         (publicUrl & data & fetchError & _ & -> & _)]]]; set_solver.
    - intros ev' Hev' [call Hcall].
      destruct Hcases as [(message & -> & _)|[(urlData & _ & -> & _)|
        [(publicUrl & message & r & _ & -> & _)|
         (publicUrl & data & fetchError & _ & -> & _)]]];
        try destruct fetchError;
        repeat (apply elem_of_cons in Hev' as [->|Hev']; [by simplify_eq/=|]);
        by apply elem_of_nil in Hev'. }
  rewrite (Huniq ev Hev) in Hup by by rewrite Hup. simplify_eq.
  split_and!; [done..|].
  destruct (uploadPath_extension now file) as (ext & Hpath & Hext).
  exists now, ext. by rewrite <-Hpath.
Qed.

Lemma upload_extension_witness :
  let trace := (exec accepting (handleUploadProof withFile)).1 in
  let file := mkFile "receipt.png" in
  let path := "proof-1714000000000.png" in
  PROOF_IMAGE_BUCKET = PROOF_IMAGE_BUCKET ∧ selectedFile withFile = Some file ∧
  ∃ now ext,
    Ev DateNow now ∈ trace ∧
    path = "proof-" +:+ pretty now +:+ "." +:+ ext ∧
    (dot ∉ chars ext) ∧
    if decide (dot ∈ chars (name file))
    then ∃ stem, name file = stem +:+ "." +:+ ext
    else ext = name file.
Proof.
  intros trace file path.
  apply (upload_extension withFile trace
           (exec accepting (handleUploadProof withFile)).2
           (Ev (StorageUpload PROOF_IMAGE_BUCKET path file) None)).
  - apply exec_runs.
  - vm_compute. do 2 right. left.
  - reflexivity.
Defined.

(** *** [handleDeleteProof] *)

Import ImageDeletionClaims.

(** X17: the row is deleted whatever the storage says.  A run of
    [handleDeleteProof] in which the user confirms makes exactly one row
    delete, of the proof's id, after any storage delete and whatever that
    one answered, and ends with the loading flag off; a run in which the
    user declines makes no call besides the question and changes nothing. *)
Theorem handleDeleteProof_row_delete proof st trace st' :
  runs (handleDeleteProof proof st) trace st' →
  if confirmed trace
  then omap rowDelete trace = [id proof] ∧
       (∃ before answer after,
          trace = before ++ Ev (DeleteProof (id proof)) answer :: after ∧
          omap removeCall after = []) ∧
       isLoading st' = false
  else length trace = 1%nat ∧ st' = st.
Proof.
  intros H. unfold handleDeleteProof, deleteProof in H. run_step H.
  unfold confirmed. destruct r; [|by run_step H].
  simpl in H. run_all H; simpl; (split_and!; [done| |done]).
  all: match goal with
       | |- ∃ _ _ _, ?pre :: ?a :: ?b :: ?c :: Ev (DeleteProof _) ?r :: ?post = _ ∧ _ =>
           by exists [pre; a; b; c], r, post
       | |- ∃ _ _ _, ?pre :: ?a :: Ev (DeleteProof _) ?r :: ?post = _ ∧ _ =>
           by exists [pre; a], r, post
       end.
Qed.

Lemma handleDeleteProof_row_delete_witness :
  let run := exec ProofObservations.refusingStorage
               (handleDeleteProof proof1 listing) in
  if confirmed run.1
  then omap rowDelete run.1 = [id proof1] ∧
       (∃ before answer after,
          run.1 = before ++ Ev (DeleteProof (id proof1)) answer :: after ∧
          omap removeCall after = []) ∧
       isLoading run.2 = false
  else length run.1 = 1%nat ∧ run.2 = listing.
Proof.
  intros run. apply (handleDeleteProof_row_delete proof1 listing run.1 run.2).
  apply exec_runs.
Defined.

(** X18: what is listed after a delete.  When the row delete is answered
    without an error, the proofs listed afterwards are the former ones
    without those of the deleted id, in the same order; when it is answered
    with an error, the list is as before and the error shown is that of the
    row delete, whatever the storage delete had reported. *)
Theorem handleDeleteProof_listing proof st trace st' ev answer :
  runs (handleDeleteProof proof st) trace st' →
  ev ∈ trace → rowDeleteAnswer ev = Some answer →
  match answer with
  | None => proofs st' = filter (λ p, id p ≠ id proof) (proofs st)
  | Some message =>
      proofs st' = proofs st ∧
      error st' = Some ("Failed to delete proof: " +:+ message)
  end.
Proof.
  intros H Hev Hans. unfold handleDeleteProof, deleteProof in H. run_step H.
  destruct r.
  2:{ run_step H. apply list_elem_of_singleton in Hev as ->. done. }
  simpl in H. run_all H;
    repeat (apply elem_of_cons in Hev as [->|Hev]; [by simplify_eq/=|]);
    by apply elem_of_nil in Hev.
Qed.

Lemma handleDeleteProof_listing_witness :
  proofs (exec accepting (handleDeleteProof proof1 listing)).2
  = filter (λ p, id p ≠ id proof1) (proofs listing).
Proof.
  pose (run := exec accepting (handleDeleteProof proof1 listing)).
  apply (handleDeleteProof_listing proof1 listing run.1 run.2
           (Ev (DeleteProof 1) None) None).
  - apply exec_runs.
  - vm_compute. do 4 right. left.
  - reflexivity.
Defined.

Lemma indexOf_absent x parts : x ∉ parts → indexOf x parts = -1.
Proof.
  induction parts as [|part parts IH]; simpl; [done|]. intros Hx.
  rewrite decide_False by set_solver. by rewrite IH by set_solver.
Qed.

(** X19: a URL from elsewhere is handed over whole.  When no segment of the
    image URL is the name of the bucket, the path [handleDeleteProof]
    derives is the URL itself, and a confirmed run asks the storage to
    delete an object of that name. *)
Theorem foreign_url_removed_whole proof st trace st' :
  PROOF_IMAGE_BUCKET ∉ split "/" (image_url proof) →
  runs (handleDeleteProof proof st) trace st' →
  proofFilePath (image_url proof) = image_url proof ∧
  omap removeCall trace =
  if confirmed trace && nonEmpty (image_url proof)
  then [(PROOF_IMAGE_BUCKET, [image_url proof])] else [].
Proof.
  intros Hurl Hruns.
  assert (proofFilePath (image_url proof) = image_url proof) as Hpath.
  { unfold proofFilePath. rewrite indexOf_absent by done. apply join_split. }
  split; [done|].
  by rewrite (handleDeleteProof_removeCalls _ _ _ _ Hruns), Hpath.
Qed.

Lemma foreign_url_removed_whole_witness :
  let run := exec accepting (handleDeleteProof proof2 listing) in
  proofFilePath (image_url proof2) = image_url proof2 ∧
  omap removeCall run.1 =
  if confirmed run.1 && nonEmpty (image_url proof2)
  then [(PROOF_IMAGE_BUCKET, [image_url proof2])] else [].
Proof.
  intros run. apply (foreign_url_removed_whole proof2 listing run.1 run.2).
  - apply (bool_decide_unpack _). by vm_compute.
  - apply exec_runs.
Defined.

End ProofExtras.

(** ** [AdminImagesManager] and [AdminServicesManager] *)

Module ImageExtras.
Import JS Effects EffectFacts StringFacts ImageDeletionClaims TraceFacts.

Section deleteImage.
Import AdminImagesManager ImageObservations.

#[local] Arguments startsWith : simpl never.
#[local] Arguments JS.substring : simpl never.
#[local] Arguments pathPrefix : simpl never.
#[local] Arguments String.length : simpl never.

(** X20: an image whose URL does not parse cannot be deleted.  When
    [new URL(image.url)] throws, a confirmed run of [deleteImage] deletes
    neither the stored object nor the row: it makes no call after the
    question but the error report, and ends showing the error, with the
    images listed as before. *)
Theorem unparsable_url_blocks_deletion URL_pathname image message st trace st' :
  URL_pathname (url image) = Thrown message →
  runs (deleteImage URL_pathname image st) trace st' →
  confirmed trace = true →
  omap removeCall trace = [] ∧ omap rowDelete trace = [] ∧
  length trace = 2%nat ∧
  st' = setIsLoading false
          (setError (Some ("Deletion failed: " +:+ message))
             (setError None (setIsLoading true st))).
Proof.
  intros Hurl H. unfold deleteImage, removeImage in H. run_step H.
  unfold confirmed. destruct r; [|by run_step H].
  rewrite Hurl in H. by repeat run_step H.
Qed.

Lemma unparsable_url_blocks_deletion_witness :
  let run := exec accepting (deleteImage simple_URL_pathname unparsable viewing) in
  omap removeCall run.1 = [] ∧ omap rowDelete run.1 = [] ∧
  length run.1 = 2%nat ∧
  run.2 = setIsLoading false
            (setError (Some ("Deletion failed: " +:+ "Invalid URL"))
               (setError None (setIsLoading true viewing))).
Proof.
  intros run.
  apply (unparsable_url_blocks_deletion simple_URL_pathname unparsable
           "Invalid URL" viewing run.1 run.2).
  - reflexivity.
  - apply exec_runs.
  - reflexivity.
Defined.

(** The reload at the end of [removeImage] leaves the error of the fetch. *)
Lemma loadImages_result type categoryId st trace st' :
  runs (loadImages type categoryId st) trace st' →
  ∃ thrown,
    omap fetchAnswer trace = [(type, categoryId, thrown)] ∧
    omap rowDelete trace = [] ∧
    error st' = thrown ∧ isLoading st' = false ∧
    images st' = match thrown with
                 | Some _ => []
                 | None => concat (omap foundImages trace)
                 end.
Proof.
  intros H. unfold loadImages in H. run_step H.
  exists r. destruct r; repeat run_step H; simpl; by rewrite ?app_nil_r.
Qed.

(** X21: the row goes even when the object stays.  When the URL parses, a
    confirmed run of [deleteImage] makes exactly one row delete, of the
    image's id, whether or not a path was found and whatever the storage
    delete answered, and ends with the loading flag off. *)
Theorem deleteImage_row_delete URL_pathname image pathname st trace st' :
  URL_pathname (url image) = Returned pathname →
  runs (deleteImage URL_pathname image st) trace st' →
  confirmed trace = true →
  omap rowDelete trace = [id image] ∧ isLoading st' = false.
Proof.
  intros Hurl H. unfold deleteImage, removeImage in H. run_step H.
  unfold confirmed. destruct r; [|by run_step H]. intros _.
  rewrite Hurl in H. simpl in H.
  apply runs_bind in H as (t1 & t2 & outcome & -> & H1 & H2).
  apply runs_bind in H1 as (t3 & t4 & filePath & -> & H3 & H1).
  apply runs_bind in H1 as (t5 & t6 & st1 & -> & H5 & H1).
  assert (omap rowDelete t3 = []) as Ht3 by (run_all H3; done).
  assert (omap rowDelete t5 = []) as Ht5 by (run_all H5; done).
  run_step H1. rename r into dbError.
  destruct dbError as [dbMessage|]; simpl in H1.
  { run_step H1. repeat run_step H2. simpl.
    by rewrite ?app_nil_r, !omap_app, Ht3, Ht5. }
  destruct (selectedCategoryId st1) as [categoryId|] eqn:Hcat; simpl in H1.
  2:{ run_step H1. run_step H2. simpl. by rewrite ?app_nil_r, !omap_app, Ht3, Ht5. }
  destruct (negb (categoryId =? 0) && nonEmpty (selectedType st1)).
  2:{ run_step H1. run_step H2. simpl. by rewrite ?app_nil_r, !omap_app, Ht3, Ht5. }
  change (runs (loadImages (selectedType st1) categoryId st1 ≫=
                  λ st, mret (Completed st)) t outcome) in H1.
  apply runs_bind in H1 as (t7 & t8 & st2 & -> & H7 & H1).
  apply loadImages_result in H7 as (thrown & _ & Ht7 & _).
  run_step H1. run_step H2. simpl.
  rewrite ?app_nil_r, !omap_app, Ht3, Ht5.
  change (omap rowDelete (Ev (DeleteImageRow (id image)) None :: t7))
    with (id image :: omap rowDelete t7). by rewrite Ht7.
Qed.

Lemma deleteImage_row_delete_witness :
  let run := exec ImageObservations.refusingStorage
               (deleteImage simple_URL_pathname image1 viewing) in
  omap rowDelete run.1 = [id image1] ∧ isLoading run.2 = false.
Proof.
  intros run.
  apply (deleteImage_row_delete simple_URL_pathname image1
           "/storage/v1/object/public/images/proofs/2/a.png" viewing
           run.1 run.2).
  - reflexivity.
  - apply exec_runs.
  - reflexivity.
Defined.

(** X22: the reload has the last word.  When the row delete of a confirmed
    run of [deleteImage] is answered without an error and a category and a
    type are selected, the images are fetched again for that type and
    category, and the error shown at the end is that of the fetch alone: a
    failure the storage delete had reported is no longer shown. *)
Theorem reload_has_last_word URL_pathname image categoryId st trace st' ev :
  selectedCategoryId st = Some categoryId →
  truthy (Some categoryId) && nonEmpty (selectedType st) = true →
  runs (deleteImage URL_pathname image st) trace st' →
  ev ∈ trace → rowDeleteAnswer ev = Some None →
  ∃ thrown,
    omap fetchAnswer trace = [(selectedType st, categoryId, thrown)] ∧
    error st' = thrown ∧ isLoading st' = false ∧
    images st' = match thrown with
                 | Some _ => []
                 | None => concat (omap foundImages trace)
                 end.
Proof.
  intros Hcat Hsel H Hev Hans. unfold deleteImage, removeImage in H. run_step H.
  destruct r.
  2:{ run_step H. apply list_elem_of_singleton in Hev as ->. done. }
  apply elem_of_cons in Hev as [->|Hev]; [done|].
  destruct (URL_pathname (url image)) as [pathname|message]; simpl in H.
  2:{ repeat run_step H. apply list_elem_of_singleton in Hev as ->. done. }
  apply runs_bind in H as (t1 & t2 & outcome & -> & H1 & H2).
  apply runs_bind in H1 as (t3 & t4 & filePath & -> & H3 & H1).
  apply runs_bind in H1 as (t5 & t6 & st1 & -> & H5 & H1).
  assert (omap fetchAnswer t3 = [] ∧ omap foundImages t3 = [] ∧
          Forall (λ ev, rowDeleteAnswer ev = None) t3) as (Hf3 & Hg3 & Hr3).
  { run_all H3; by repeat constructor. }
  assert (omap fetchAnswer t5 = [] ∧ omap foundImages t5 = [] ∧
          Forall (λ ev, rowDeleteAnswer ev = None) t5 ∧
          selectedCategoryId st1 = selectedCategoryId st ∧
          selectedType st1 = selectedType st) as (Hf5 & Hg5 & Hr5 & Hc1 & Hs1).
  { run_all H5; by repeat constructor. }
  rewrite Forall_forall in Hr3, Hr5.
  run_step H1. rename r into dbError.
  destruct dbError as [dbMessage|]; simpl in H1.
  { run_step H1. repeat run_step H2. exfalso.
    rewrite !elem_of_app, elem_of_cons, elem_of_nil, list_elem_of_singleton in Hev.
    destruct Hev as [[Hev|[Hev|[->|[]]]]| ->];
      [apply Hr3 in Hev; congruence|apply Hr5 in Hev; congruence|done..]. }
  rewrite Hc1, Hcat in H1. simpl in H1, Hsel. rewrite Hs1, Hsel in H1.
  change (runs (loadImages (selectedType st) categoryId st1 ≫=
                  λ st, mret (Completed st)) t outcome) in H1.
  apply runs_bind in H1 as (t7 & t8 & st2 & -> & H7 & H1).
  apply loadImages_result in H7 as (thrown & Ht7 & _ & Herr & Hload & Himg).
  run_step H1. run_step H2. exists thrown. simpl setIsLoading.
  rewrite !app_nil_r.
  rewrite (omap_cons_None fetchAnswer), (omap_cons_None foundImages) by done.
  rewrite !omap_app, Hf3, Hf5, Hg3, Hg5.
  rewrite (omap_cons_None fetchAnswer), (omap_cons_None foundImages) by done.
  rewrite Ht7. by destruct thrown.
Qed.

Lemma reload_has_last_word_witness :
  let run := exec ImageObservations.refusingStorage
               (deleteImage simple_URL_pathname image1 viewing) in
  ∃ thrown,
    omap fetchAnswer run.1 = [(selectedType viewing, 2, thrown)] ∧
    error run.2 = thrown ∧ isLoading run.2 = false ∧
    images run.2 = match thrown with
                   | Some _ => []
                   | None => concat (omap foundImages run.1)
                   end.
Proof.
  intros run.
  apply (reload_has_last_word simple_URL_pathname image1 2 viewing run.1 run.2
           (Ev (DeleteImageRow 1) None)).
  - reflexivity.
  - reflexivity.
  - apply exec_runs.
  - vm_compute. do 3 right. left.
  - reflexivity.
Defined.

End deleteImage.

Section deleteStoredImage.
Import AdminServicesManager ServiceObservations.

#[local] Arguments startsWith : simpl never.
#[local] Arguments JS.substring : simpl never.
#[local] Arguments pathPrefix : simpl never.
#[local] Arguments String.length : simpl never.
#[local] Arguments split : simpl never.
#[local] Arguments join : simpl never.
#[local] Arguments slice : simpl never.
#[local] Arguments indexOf : simpl never.
#[local] Arguments String.append : simpl never.

(** X23: [deleteStoredImage] is careful.  Whatever the URL parser and the
    decoder do, a run makes at most one storage delete, in the bucket of the
    services and never of an empty path.  The state is left as it was unless
    that delete was refused, in which case the refusal is shown, or the URL
    could not be processed, in which case no delete was made and a fixed
    message is shown.  Without a URL, nothing is called. *)
Theorem deleteStoredImage_careful
    URL_pathname decodeURIComponent imageUrl st trace st' :
  runs (deleteStoredImage URL_pathname decodeURIComponent imageUrl st)
    trace st' →
  (omap removeCall trace = [] ∨
   ∃ filePath, filePath ≠ EmptyString ∧
               omap removeCall trace = [(bucketName, [filePath])]) ∧
  (st' = st ∧ omap removeAnswer trace ⊆ [None] ∨
   (∃ message, omap removeAnswer trace = [Some message] ∧
               error st' = Some (storageFailure message)) ∨
   (omap removeCall trace = [] ∧ error st' = Some processingFailure)) ∧
  match imageUrl with
  | Some (String _ _) => True
  | _ => trace = [] ∧ st' = st
  end.
Proof.
  intros H. unfold deleteStoredImage, storedFilePath in H.
  assert (∀ filePath, nonEmpty filePath = true → filePath ≠ EmptyString)
    as Hne by (by intros []).
  destruct imageUrl as [[|c imageUrl]|].
  1,3: run_step H; split_and!; [by left|left; split; [done|set_solver]|done..].
  simpl in H.
  run_all H; simpl; (split; [|split; [|done]]);
    try (left; split; [done|set_solver]); eauto 10.
Qed.

Lemma deleteStoredImage_careful_witness :
  let run := exec ServiceObservations.refusingStorage
               (deleteStoredImage simple_URL_pathname percent_decode
                  (Some logoUrl) noError) in
  (omap removeCall run.1 = [] ∨
   ∃ filePath, filePath ≠ EmptyString ∧
               omap removeCall run.1 = [(bucketName, [filePath])]) ∧
  (run.2 = noError ∧ omap removeAnswer run.1 ⊆ [None] ∨
   (∃ message, omap removeAnswer run.1 = [Some message] ∧
               error run.2 = Some (storageFailure message)) ∨
   (omap removeCall run.1 = [] ∧ error run.2 = Some processingFailure)) ∧
  True.
Proof.
  intros run.
  apply (deleteStoredImage_careful simple_URL_pathname percent_decode
           (Some logoUrl) noError run.1 run.2).
  apply exec_runs.
Defined.

End deleteStoredImage.

End ImageExtras.

(** ** Loading, deleting, and the admin check *)

Module ModerationExtras.
Import JS Effects CommentList ThreadObservations CommentModeration.
Import EffectFacts TraceFacts ThreadFacts ImageDeletionClaims.

#[local] Arguments commentFilter : simpl never.
#[local] Arguments buildCommentThreads : simpl never.
#[local] Arguments includes : simpl never.
#[local] Arguments String.append : simpl never.
#[local] Arguments pretty : simpl never.

Lemma loadInitialComments_runs props st trace st' :
  runs (loadInitialComments props st) trace st' →
  ∃ data error,
    omap selectAnswer trace = [(commentFilter props, 100, data, error)] ∧
    omap deleteAnswer trace = [] ∧ omap alertText trace = [] ∧
    st' = setIsLoading false (setComments (loaded data error) st).
Proof.
  intros H. unfold loadInitialComments in H. do 2 run_step H.
  destruct r0 as [data error]. exists data, error.
  destruct error as [message|]; [|destruct data as [data|]];
    repeat run_step H; done.
Qed.

#[local] Arguments loadInitialComments : simpl never.



Lemma handleDeleteComment_runs props commentId st trace st' :
  runs (handleDeleteComment props commentId st) trace st' →
  if confirmed trace
  then ∃ answer,
         omap deleteAnswer trace = [(commentId, answer)] ∧
         match answer with
         | Some message =>
             omap selectAnswer trace = [] ∧
             omap alertText trace = [deleteAlert message] ∧
             st' = setIsLoading false st
         | None =>
             ∃ data error,
               omap selectAnswer trace
               = [(commentFilter props, 100, data, error)] ∧
               omap alertText trace = [] ∧
               st' = setIsLoading false (setComments (loaded data error) st)
         end
  else omap deleteAnswer trace = [] ∧ length trace = 1%nat ∧ st' = st.
Proof.
  intros H. unfold handleDeleteComment in H. run_step_folded H.
  unfold confirmed. destruct r; [|by run_step_folded H].
  do 2 run_step_folded H. rename r0 into answer. exists answer.
  destruct answer as [message|]; cbn in H.
  - unfold deleteAlert. run_all H; done.
  - run_step_folded H. simpl.
    apply runs_bind in H as (t1 & t2 & st1 & -> & H1 & H2).
    apply runs_bind in H1 as (t3 & t4 & st2 & -> & H3 & H4).
    apply loadInitialComments_runs in H3
      as (data & error & Hsel & Hdel & Halert & ->).
    repeat run_step H4. repeat run_step H2.
    rewrite !app_nil_r, !omap_app, Hsel, Hdel, Halert.
    split; [done|]. by exists data, error.
Qed.

(** X25: the list is reloaded only after a delete that went through.  A
    confirmed run of [handleDeleteComment] makes one row delete, of the
    comment's id, and ends with the loading flag off.  If the delete is
    refused there is one alert (a permission message when the error
    mentions a security policy), no query, and the comments shown stay; if
    it goes through there is no alert and the comments are loaded again.  A
    declined run only asks the question. *)
Theorem handleDeleteComment_outcome props commentId st trace st' :
  runs (handleDeleteComment props commentId st) trace st' →
  if confirmed trace
  then isLoading st' = false ∧
       ∃ answer,
         omap deleteAnswer trace = [(commentId, answer)] ∧
         match answer with
         | Some message =>
             omap selectAnswer trace = [] ∧
             omap alertText trace
             = [if includes message "security policy"
                then "Error: You do not have permission to delete this comment."
                else "Failed to delete comment: " +:+ message] ∧
             comments st' = comments st
         | None =>
             omap alertText trace = [] ∧
             ∃ data error,
               omap selectAnswer trace
               = [(commentFilter props, 100, data, error)] ∧
               comments st' = loaded data error
         end
  else length trace = 1%nat ∧ st' = st.
Proof.
  intros H%handleDeleteComment_runs. destruct (confirmed trace); [|by destruct H as (_ & ? & ?)].
  destruct H as (answer & Hdel & H).
  destruct answer as [message|].
  - destruct H as (Hsel & Halert & ->). split; [done|]. by exists (Some message).
  - destruct H as (data & error & Hsel & Halert & ->). split; [done|].
    exists None. split_and!; [done..|]. by exists data, error.
Qed.

Lemma handleDeleteComment_outcome_witness :
  let run := exec refusing
               (handleDeleteComment (mkProps (Some 1) None) 2 showingTwo) in
  isLoading run.2 = false ∧
  ∃ answer,
    omap deleteAnswer run.1 = [(2, answer)] ∧
    match answer with
    | Some message =>
        omap selectAnswer run.1 = [] ∧
        omap alertText run.1
        = [if includes message "security policy"
           then "Error: You do not have permission to delete this comment."
           else "Failed to delete comment: " +:+ message] ∧
        comments run.2 = comments showingTwo
    | None =>
        omap alertText run.1 = [] ∧
        ∃ data error,
          omap selectAnswer run.1
          = [(commentFilter (mkProps (Some 1) None), 100, data, error)] ∧
          comments run.2 = loaded data error
    end.
Proof.
  intros run.
  apply (handleDeleteComment_outcome (mkProps (Some 1) None) 2 showingTwo
           run.1 run.2).
  apply exec_runs.
Defined.

Lemma allReferences_ids comments k :
  k ∈ allReferences (buildCommentThreads comments) → k ∈ id <$> comments.
Proof.
  unfold allReferences. rewrite elem_of_app, buildCommentThreads_roots.
  intros [Hk|Hk].
  - apply SortFacts.Array_sort_elem_of in Hk. unfold rootsOf in Hk.
    apply list_elem_of_fmap in Hk as (c & -> & [_ Hin]%list_elem_of_filter).
    by apply list_elem_of_fmap_2.
  - apply list_elem_of_bind in Hk as ([p nd] & Hk & Hnd%elem_of_map_to_list).
    rewrite buildCommentThreads_lookup in Hnd.
    destruct (indexComments comments !! p) as [nd0|]; simplify_eq/=.
    apply SortFacts.Array_sort_elem_of in Hk. unfold childrenOf in Hk.
    apply list_elem_of_fmap in Hk as (c & -> & [_ Hin]%list_elem_of_filter).
    by apply list_elem_of_fmap_2.
Qed.

(** X26: a deleted comment is gone from the page.  After a run of
    [handleDeleteComment] whose row delete went through and whose reload
    returned rows among which the comment no longer is, no root and no
    [replies] array refers to the comment, and no object is kept for it. *)
Theorem deleted_comment_not_shown
    props commentId st trace st' ev filter limit data :
  runs (handleDeleteComment props commentId st) trace st' →
  ((commentId, None) ∈ omap deleteAnswer trace) →
  ev ∈ trace → selectAnswer ev = Some (filter, limit, Some data, None) →
  commentId ∉ id <$> data →
  comments st' = buildCommentThreads data ∧
  (commentId ∉ allReferences (comments st')) ∧
  (comments st').2 !! commentId = None.
Proof.
  intros H%handleDeleteComment_runs Hdel Hev Hsel Habsent.
  destruct (confirmed trace).
  2:{ destruct H as (Hnone & _). rewrite Hnone in Hdel.
      by apply elem_of_nil in Hdel. }
  destruct H as (answer & Hdel' & H). rewrite Hdel' in Hdel.
  apply list_elem_of_singleton in Hdel. simplify_eq.
  destruct H as (data' & error' & Hsel' & _ & ->).
  assert ((filter, limit, Some data, None : option string)
            ∈ omap selectAnswer trace) as Hin'.
  { apply list_elem_of_omap. by exists ev. }
  rewrite Hsel' in Hin'. apply list_elem_of_singleton in Hin'. simplify_eq.
  simpl. split_and!; [done| |].
  - intros Hin. by apply Habsent, allReferences_ids.
  - rewrite buildCommentThreads_lookup.
    destruct (indexComments data !! commentId) as [nd|] eqn:Hnd; [|done].
    apply indexComments_lookup_Some in Hnd as (_ & Hid & Hin'').
    exfalso. apply Habsent. rewrite <-Hid. by apply list_elem_of_fmap_2.
Qed.

Lemma deleted_comment_not_shown_witness :
  let run := exec moderating
               (handleDeleteComment (mkProps (Some 1) None) 2 showingTwo) in
  comments run.2 = buildCommentThreads [keyed blank 1 None 10] ∧
  (2 ∉ allReferences (comments run.2)) ∧
  (comments run.2).2 !! 2 = None.
Proof.
  intros run.
  apply (deleted_comment_not_shown (mkProps (Some 1) None) 2 showingTwo
           run.1 run.2
           (Ev (SelectComments (ByCategory 1) 100)
              (Some [keyed blank 1 None 10], None))
           (ByCategory 1) 100).
  - apply exec_runs.
  - apply (bool_decide_unpack _). by vm_compute.
  - vm_compute. do 5 right. left.
  - reflexivity.
  - apply (bool_decide_unpack _). by vm_compute.
Defined.

(** X27: who is an administrator.  A run of [checkAdminStatus] changes
    nothing but the admin flag, and the flag is on at the end exactly when
    the session has a user id, the query for the role of that id came back
    without an error, and the role is [admin]: the flag it started with,
    a missing session and every error leave it off. *)
Theorem checkAdminStatus_admin_only st trace st' :
  runs (checkAdminStatus st) trace st' →
  st' = setIsAdmin (isAdmin st') st ∧
  (isAdmin st' = true ↔
   ∃ userId, userId ≠ EmptyString ∧
             omap sessionAnswer trace = [(Some userId, None)] ∧
             omap roleAnswer trace = [(userId, Some "admin", None)]).
Proof.
  intros H. unfold checkAdminStatus in H. run_step H.
  destruct r as [userId sessionError].
  destruct sessionError as [sessionMessage|]; simpl in H.
  { repeat run_step H. split; [done|]. split; [done|].
    by intros (? & _ & ? & _). }
  destruct userId as [userId|]; simpl in H.
  2:{ repeat run_step H. split; [done|]. split; [done|].
      by intros (? & _ & ? & _). }
  destruct (nonEmpty userId) eqn:Hne; simpl in H.
  2:{ repeat run_step H. split; [done|]. split; [done|].
      intros (u & Hu & [= ->] & _). by destruct u. }
  do 2 run_step H. destruct r0 as [profileData profileError].
  destruct profileError as [profileError|]; simpl in H.
  { destruct (String.eqb (code profileError) "PGRST116");
      repeat run_step H; (split; [done|]); (split; [done|]);
      by intros (? & _ & _ & ?). }
  destruct profileData as [userRole|]; simpl in H.
  2:{ repeat run_step H. split; [done|]. split; [done|].
      by intros (? & _ & _ & ?). }
  repeat run_step H. split; [done|]. simpl.
  rewrite String.eqb_eq. split.
  - intros ->. exists userId. split_and!; [by destruct userId|done..].
  - intros (? & _ & _ & ?). by simplify_eq.
Qed.

Lemma checkAdminStatus_admin_only_witness :
  let run := exec moderating (checkAdminStatus idle) in
  run.2 = setIsAdmin (isAdmin run.2) idle ∧
  (isAdmin run.2 = true ↔
   ∃ userId, userId ≠ EmptyString ∧
             omap sessionAnswer run.1 = [(Some userId, None)] ∧
             omap roleAnswer run.1 = [(userId, Some "admin", None)]).
Proof.
  intros run. apply (checkAdminStatus_admin_only idle run.1 run.2).
  apply exec_runs.
Defined.

End ModerationExtras.

(** ** Uploading images, deleting services *)

Module EmbeddingFacts.
Import Effects Embedding.

Lemma runs_lift {E F : Type → Type} {A} (f : ∀ R, E R → F R) (p : Free E A) trace a :
  runs (lift f p) trace a ↔ ∃ t, trace = liftEvent f <$> t ∧ runs p t a.
Proof.
  revert trace. induction p as [x|R e k IH]; intros trace; simpl.
  - split.
    + intros [-> ->]. by exists [].
    + intros (t & -> & -> & ->). done.
  - split.
    + intros (r & trace' & -> & (t & -> & Hk)%IH).
      exists (Ev e r :: t). split; [done|]. by exists r, t.
    + intros (t & -> & r & t' & -> & Hk).
      exists r, (liftEvent f <$> t'). split; [done|]. apply IH. by exists t'.
Qed.

End EmbeddingFacts.

Module UploadExtras.
Import JS Effects Embedding ImageUpload.
Import EffectFacts EmbeddingFacts TraceFacts ImageDeletionClaims.

#[local] Arguments filePathOf : simpl never.
#[local] Arguments String.append : simpl never.

(** Every run of the loop: some passages that went well, then the end of
    the files or a passage cut short by a refusal. *)
Lemma uploadFiles_runs percent type categoryId total files completed st trace outcome :
  runs (uploadFiles percent type categoryId total files completed st)
    trace outcome →
  ∃ (rounds : list (File * string * string)) rest tail st1,
    files = rounds.*1.*1 ++ rest ∧
    trace = (rounds ≫= passage type categoryId) ++ tail ∧
    manager st1 = manager st ∧ uploading st1 = uploading st ∧
    inputValue st1 = inputValue st ∧
    ((rest = [] ∧ tail = [] ∧ outcome = Completed st1) ∨
     (∃ file rest' fileName message,
        rest = file :: rest' ∧
        tail = [Ev RandomName fileName;
                Ev (StorageUpload "images"
                      (filePathOf type categoryId fileName file) file)
                   (Some message)] ∧
        outcome = Threw st1 message) ∨
     (∃ file rest' fileName publicUrl message,
        rest = file :: rest' ∧
        tail = [Ev RandomName fileName;
                Ev (StorageUpload "images"
                      (filePathOf type categoryId fileName file) file) None;
                Ev (StorageGetPublicUrl "images"
                      (filePathOf type categoryId fileName file)) publicUrl;
                Ev (InsertImage publicUrl categoryId type None)
                   (Some message)] ∧
        outcome = Threw st1 message)).
Proof.
  revert completed st trace outcome.
  induction files as [|file files IH]; intros completed st trace outcome H.
  { run_step H. exists [], [], [], st. split_and!; [done..|]. by left. }
  do 2 run_step H. rename r into fileName, r0 into uploadError.
  destruct uploadError as [message|]; simpl in H.
  { run_step H. exists [], (file :: files). eexists _, st.
    split_and!; [done..|].
    right. left. by exists file, files, fileName, message. }
  do 2 run_step H. rename r into publicUrl, r0 into insertError.
  destruct insertError as [message|]; simpl in H.
  { run_step H. exists [], (file :: files). eexists _, st.
    split_and!; [done..|].
    right. right. by exists file, files, fileName, publicUrl, message. }
  apply IH in H
    as (rounds & rest & tail & st1 & -> & -> & Hm & Hu & Hi & Hcases).
  exists ((file, fileName, publicUrl) :: rounds), rest, tail, st1.
  split_and!; done.
Qed.

Lemma passages_observed type categoryId (rounds : list (File * string * string)) :
  omap uploadedFile (rounds ≫= passage type categoryId) = rounds.*1.*1 ∧
  omap insertedRow (rounds ≫= passage type categoryId)
  = (λ round, (round.2, categoryId, type, None)) <$> rounds ∧
  omap failure (rounds ≫= passage type categoryId) = [] ∧
  omap reload (rounds ≫= passage type categoryId) = [] ∧
  Forall (λ ev, deletes ev = false) (rounds ≫= passage type categoryId).
Proof.
  induction rounds as [|[[file fileName] publicUrl] rounds
                         (IH1 & IH2 & IH3 & IH4 & IH5)]; [done|].
  change (((file, fileName, publicUrl) :: rounds) ≫= passage type categoryId)
    with (passage type categoryId (file, fileName, publicUrl)
            ++ (rounds ≫= passage type categoryId)).
  rewrite !omap_app, IH1, IH2, IH3, IH4, Forall_app.
  split_and!; [done..| |done]. by repeat constructor.
Qed.

(** X28: nothing is taken back.  In a run of [handleFileChange] in which the
    storage refuses a file or the table refuses a row, the refusal is the
    last call before the error report: no later file is tried, the images
    are not loaded again, and nothing is deleted.  The files stored are the
    first of those chosen, in order, and when it is a row that was refused
    there is one stored file more than there are rows.  At the end the
    refusal is shown, the upload flag is off, the progress is 0 and the file
    input is empty. *)
Theorem refused_upload_is_not_undone percent files st trace st' ev message :
  runs (handleFileChange percent files st) trace st' →
  ev ∈ trace → failure ev = Some message →
  ∃ before,
    trace = before ++ [ev; Ev (Manager (AdminImagesManager.ConsoleError "Upload error:")) ()] ∧
    omap failure before = [] ∧
    omap reload trace = [] ∧
    Forall (λ ev, deletes ev = false) trace ∧
    omap uploadedFile trace `prefix_of` files ∧
    length (omap uploadedFile trace)
    = (length (omap insertedRow trace) + if isInsert ev then 1 else 0)%nat ∧
    st' = setInputValue EmptyString
            (setUploadProgress 0
               (setUploading false
                  (setError (Some ("Upload failed: " +:+ message)) st))).
Proof.
  intros H Hev Hfail. unfold handleFileChange in H.
  destruct files as [|file0 files0] eqn:Hfiles.
  { run_step H. by apply elem_of_nil in Hev. }
  rewrite <-Hfiles in *.
  destruct (AdminImagesManager.selectedCategoryId (manager st))
    as [categoryId|] eqn:Hcat.
  2:{ run_step H. by apply elem_of_nil in Hev. }
  destruct (truthy (Some categoryId)).
  2:{ run_step H. by apply elem_of_nil in Hev. }
  apply runs_bind in H as (t1 & t2 & outcome & -> & H1 & H2).
  apply uploadFiles_runs in H1
    as (rounds & rest & tail & st1 & Hsplit & -> & Hm & Hu & Hi & Hcases).
  destruct (passages_observed (AdminImagesManager.selectedType (manager st))
              categoryId rounds) as (Hup & Hins & Hnofail & Hnoreload & Hnodel).
  set (passages := rounds ≫= _) in *.
  assert (ev ∉ passages) as Hnotin.
  { intros Hin. apply omap_nil_Forall in Hnofail.
    rewrite Forall_forall in Hnofail. apply Hnofail in Hin. congruence. }
  destruct Hcases as [(-> & -> & ->)|[(file & rest' & fileName & message' & -> & -> & ->)
    |(file & rest' & fileName & publicUrl & message' & -> & -> & ->)]].
  - exfalso. rewrite app_nil_r in Hev.
    run_step H2. destruct r; repeat run_step H2;
      (apply elem_of_app in Hev as [Hev|Hev]; [done|]);
      repeat (apply elem_of_cons in Hev as [->|Hev]; [done|]);
      by apply elem_of_nil in Hev.
  - simpl in H2. repeat run_step H2. destruct r.
    apply elem_of_app in Hev as [Hev|Hev].
    { apply elem_of_app in Hev as [Hev|Hev]; [done|].
      do 1 (apply elem_of_cons in Hev as [->|Hev]; [done|]).
      apply elem_of_cons in Hev as [->|Hev].
      2:{ by apply elem_of_nil in Hev. }
      simpl in Hfail. simplify_eq.
      exists (passages ++ [Ev RandomName fileName]).
      rewrite <-!app_assoc. split; [done|].
      rewrite !omap_app, Hnofail, Hnoreload, Hup, Hins, !Forall_app.
      simpl. rewrite ?app_nil_r, ?length_app, !length_fmap. simpl in Hm.
      split_and!; [done..|by repeat constructor|by repeat constructor| | |].
      - rewrite Hsplit. by apply prefix_app_r.
      - simpl. lia.
      - unfold setError at 1. by rewrite Hm. }
    repeat (apply elem_of_cons in Hev as [->|Hev]; [done|]).
    by apply elem_of_nil in Hev.
  - simpl in H2. repeat run_step H2. destruct r.
    apply elem_of_app in Hev as [Hev|Hev].
    { apply elem_of_app in Hev as [Hev|Hev]; [done|].
      do 3 (apply elem_of_cons in Hev as [->|Hev]; [done|]).
      apply elem_of_cons in Hev as [->|Hev].
      2:{ by apply elem_of_nil in Hev. }
      simpl in Hfail. simplify_eq.
      exists (passages ++ [Ev RandomName fileName;
                           Ev (StorageUpload "images"
                                 (filePathOf (AdminImagesManager.selectedType (manager st))
                                    categoryId fileName file) file) None;
                           Ev (StorageGetPublicUrl "images"
                                 (filePathOf (AdminImagesManager.selectedType (manager st))
                                    categoryId fileName file)) publicUrl]).
      rewrite <-!app_assoc. split; [done|].
      rewrite !omap_app, Hnofail, Hnoreload, Hup, Hins, !Forall_app.
      simpl. rewrite ?app_nil_r, ?length_app, !length_fmap. simpl in Hm.
      split_and!; [done..|by repeat constructor|by repeat constructor| | |].
      - rewrite Hsplit. apply prefix_app, prefix_cons, prefix_nil.
      - simpl. lia.
      - unfold setError at 1. by rewrite Hm. }
    repeat (apply elem_of_cons in Hev as [->|Hev]; [done|]).
    by apply elem_of_nil in Hev.
Qed.

Lemma refused_upload_is_not_undone_witness :
  let files := [mkFile "a.png"; mkFile "b.jpg"] in
  let url := "https://x.supabase.co/storage/v1/object/public/images/proofs/2/k3j9x0.jpg" in
  let run := exec (refusingRow url) (handleFileChange percentOf files choosing) in
  let ev := Ev (InsertImage url 2 "proofs" None) (Some "violates row-level security") in
  ∃ before,
    run.1 = before ++ [ev; Ev (Manager (AdminImagesManager.ConsoleError "Upload error:")) ()] ∧
    omap failure before = [] ∧
    omap reload run.1 = [] ∧
    Forall (λ ev, deletes ev = false) run.1 ∧
    omap uploadedFile run.1 `prefix_of` files ∧
    length (omap uploadedFile run.1)
    = (length (omap insertedRow run.1) + if isInsert ev then 1 else 0)%nat ∧
    run.2 = setInputValue EmptyString
              (setUploadProgress 0
                 (setUploading false
                    (setError (Some ("Upload failed: " +:+ "violates row-level security"))
                       choosing))).
Proof.
  intros files url run ev.
  apply (refused_upload_is_not_undone percentOf files choosing run.1 run.2 ev).
  - apply exec_runs.
  - vm_compute. do 7 right. left.
  - reflexivity.
Defined.

(** X29: when nothing is refused, every file gets its row.  In a run of
    [handleFileChange] with files chosen and a category selected, in which
    neither the storage nor the table refuses anything, the files are
    stored one after the other in the order chosen, one row is inserted for
    each, with the selected category and type and no item, the images of
    that type and category are then loaded again, once, and nothing is
    deleted.  At the end the upload flag and the loading flag are off, the
    progress is 0 and the file input is empty. *)
Theorem all_files_uploaded percent files categoryId st trace st' :
  runs (handleFileChange percent files st) trace st' →
  files ≠ [] →
  AdminImagesManager.selectedCategoryId (manager st) = Some categoryId →
  categoryId ≠ 0 →
  omap failure trace = [] →
  let type := AdminImagesManager.selectedType (manager st) in
  omap uploadedFile trace = files ∧
  (∃ urls, length urls = length files ∧
           omap insertedRow trace
           = (λ url, (url, categoryId, type, None)) <$> urls) ∧
  omap reload trace = [(type, categoryId)] ∧
  Forall (λ ev, deletes ev = false) trace ∧
  uploading st' = false ∧ uploadProgress st' = 0 ∧
  inputValue st' = EmptyString ∧
  AdminImagesManager.isLoading (manager st') = false.
Proof.
  intros H Hfiles Hcat Hnonzero Hnofail'. unfold handleFileChange in H.
  destruct files as [|file0 files0] eqn:Hf; [done|]. rewrite <-Hf in *.
  rewrite Hcat in H. simpl in H.
  assert (negb (categoryId =? 0) = true) as Htruthy.
  { apply negb_true_iff, Z.eqb_neq. done. }
  rewrite Htruthy in H.
  apply runs_bind in H as (t1 & t2 & outcome & -> & H1 & H2).
  apply uploadFiles_runs in H1
    as (rounds & rest & tail & st1 & Hsplit & -> & Hm & Hu & Hi & Hcases).
  destruct (passages_observed (AdminImagesManager.selectedType (manager st))
              categoryId rounds) as (Hup & Hins & Hnofail & Hnoreload & Hnodel).
  set (passages := rounds ≫= _) in *.
  rewrite !omap_app in Hnofail'.
  apply app_eq_nil in Hnofail' as [[_ Htail]%app_eq_nil _].
  destruct Hcases as [(-> & -> & ->)|[(file & rest' & fileName & message' & -> & -> & ->)
    |(file & rest' & fileName & publicUrl & message' & -> & -> & ->)]];
    [|done..].
  rewrite app_nil_r in *. intros type.
  run_step H2. destruct r; repeat run_step H2;
    rewrite !omap_app, Hup, Hins, Hnoreload, !Forall_app; simpl;
    rewrite ?app_nil_r; split_and!; try done; try (by repeat constructor);
    exists (rounds.*2); rewrite Hsplit, !length_fmap, <-list_fmap_compose; done.
Qed.

Lemma all_files_uploaded_witness :
  let files := [mkFile "a.png"; mkFile "b.jpg"] in
  let run := exec (refusingRow "") (handleFileChange percentOf files choosing) in
  omap uploadedFile run.1 = files ∧
  (∃ urls, length urls = length files ∧
           omap insertedRow run.1
           = (λ url, (url, 2, "proofs", None)) <$> urls) ∧
  omap reload run.1 = [("proofs", 2)] ∧
  Forall (λ ev, deletes ev = false) run.1 ∧
  uploading run.2 = false ∧ uploadProgress run.2 = 0 ∧
  inputValue run.2 = EmptyString ∧
  AdminImagesManager.isLoading (manager run.2) = false.
Proof.
  intros files run.
  apply (all_files_uploaded percentOf files 2 choosing run.1 run.2).
  - apply exec_runs.
  - done.
  - reflexivity.
  - lia.
  - reflexivity.
Defined.

End UploadExtras.

Module ServiceExtras.
Import JS Effects Embedding ServiceDeletion.
Import EffectFacts EmbeddingFacts TraceFacts ImageDeletionClaims.

#[local] Arguments AdminServicesManager.deleteStoredImage : simpl never.
#[local] Arguments imageUrlToDelete : simpl never.
#[local] Arguments String.append : simpl never.

Lemma loadServices_runs categoryId st trace st' :
  runs (loadServices categoryId st) trace st' →
  omap rowDelete trace = [] ∧ omap removeCall trace = [] ∧
  omap reload trace = [categoryId] ∧ isLoading st' = false.
Proof.
  intros H. unfold loadServices in H. run_step H.
  destruct r; repeat run_step H; done.
Qed.

Lemma omap_removeCall_lift (t : list (Event AdminServicesManager.Call)) :
  omap removeCall (liftEvent (@Manager) <$> t)
  = omap AdminServicesManager.removeCall t ∧
  omap rowDelete (liftEvent (@Manager) <$> t) = [] ∧
  omap reload (liftEvent (@Manager) <$> t) = [].
Proof.
  induction t as [|[R e r] t (IH1 & IH2 & IH3)]; [done|].
  rewrite !fmap_cons. split_and!.
  - destruct e; simpl; first [exact IH1|f_equal; exact IH1].
  - by rewrite omap_cons_None.
  - by rewrite omap_cons_None.
Qed.



End ServiceExtras.
